(** * Function spaces of ODL ([odl/space/fspace.py]): evaluation and algebra

    A shallow embedding of [odl.space.fspace] -- the vectorization decorator,
    [FunctionSet] / [FunctionSetVector], [FunctionSpace] /
    [FunctionSpaceVector] -- together with the properties of its
    specification that concern them.

    Conventions of the embedding.

    - Field scalars are the elements of a type with the operations of the
      source and a decidable equality ([Scalar]).  The laws of a commutative
      ring ([ScalarLaws]) are a hypothesis of the properties that name them:
      floating point numbers do not satisfy them, and their rounding is not
      modelled.
    - A scalar value is a Python number: dividing by zero and raising zero
      to a negative power raise [ZeroDivisionError].  Entry by entry in an
      array, numpy raises nothing.
    - [numpy] arrays are mutable objects: they live in a heap and are
      referred to by location, so that the in-place operators of the source
      ([*=], [+=], [out[i] = ...]) act on shared storage.  Views ([x[0]],
      the rows of [x.T]) are modelled as copies.
    - Function-space vectors are mutable objects too: they live in a store of
      vector records, and the closures the source builds at run time are
      terms of the type [closure], interpreted by [call].  A closure that
      captures a vector ([self]) holds its reference, not its content.
    - A Python exception is an outcome [Raise]; unbounded recursion is cut by
      a fuel argument and reported as [OutOfFuel].
    - Where the source text is not executable as it stands, or code it calls
      lies outside this module, the definition says so. *)

From Stdlib Require Import ZArith Bool Lia Ring.
From stdpp Require Import base option list.

Unset Default Proof Using.
Set Warnings "-register-all".
Open Scope nat_scope.

(** ** Field scalars *)

Class Scalar : Type := {
  R : Type;
  rO : R;
  rI : R;
  radd : R -> R -> R;
  rmul : R -> R -> R;
  rsub : R -> R -> R;
  ropp : R -> R;
  rdiv : R -> R -> R;       (* true division, [/] *)
  rpow : R -> Z -> R;       (* [**] with an integer exponent *)
  reqb : R -> R -> bool;    (* [==] *)
  rjunk : R                 (* what uninitialised storage happens to hold *)
}.

(** The laws of exact arithmetic.  The [float64] and [complex128] entries
    the module computes with do not satisfy them (their multiplication is not
    associative): a property that takes [ScalarLaws] as a hypothesis is one
    of the exact function values, and says so. *)
Record ScalarLaws (S : Scalar) : Prop := {
  sl_ring : ring_theory rO rI radd rmul rsub ropp (@eq R);
  sl_eqb : forall a b : R, reqb a b = true <-> a = b;
  sl_pow_0 : forall x : R, rpow x 0%Z = rI;
  sl_pow_succ : forall (x : R) (n : Z), (0 <= n)%Z -> rpow x (Z.succ n) = rmul x (rpow x n)
}.

(** The integers, used to run the model on concrete inputs. *)
Definition Z_scalar : Scalar := {|
  R := Z; rO := 0%Z; rI := 1%Z;
  radd := Z.add; rmul := Z.mul; rsub := Z.sub; ropp := Z.opp;
  rdiv := Z.div; rpow := Z.pow; reqb := Z.eqb; rjunk := 7%Z
|}.

(** ** Exceptions and outcomes *)

Inductive pyclass :=
| TypeError | ValueError | AttributeError | NotImplementedError
| IndexError | UnboundLocalError | ZeroDivisionError.

(** The failure taxonomy of the specification; [Runtime] marks an error
    raised by the Python runtime or numpy rather than by a [raise] of the
    module. *)
Inductive signal :=
| TypeConflict | InvalidInput | OutOfDomain | OutOfRange | MissingCapability
| ShapeMismatch | InvalidUsage | NotImplemented | Runtime.

Record exn := Exn { exn_class : pyclass; exn_signal : signal }.

Inductive outcome (A : Type) :=
| Ok (a : A)
| Raise (e : exn)
| OutOfFuel          (* the recursion did not end within the fuel given *)
| Unmodelled.        (* runtime behaviour outside the fragment embedded here *)
Arguments Ok {A} a.
Arguments Raise {A} e.
Arguments OutOfFuel {A}.
Arguments Unmodelled {A}.

Definition is_ok {A} (o : outcome A) : bool :=
  match o with Ok _ => true | _ => false end.

Declare Scope py_scope.
Delimit Scope py_scope with py.

(** Computations over a state, ending in an [outcome]; the state reached is
    returned in every case, since a Python exception does not undo writes. *)
Definition St (Σ A : Type) : Type := Σ -> outcome A * Σ.

Definition ret {Σ A} (a : A) : St Σ A := fun m => (Ok a, m).
Definition raise {Σ A} (c : pyclass) (s : signal) : St Σ A :=
  fun m => (Raise (Exn c s), m).
Definition unmodelled {Σ A} : St Σ A := fun m => (Unmodelled, m).
Definition out_of_fuel {Σ A} : St Σ A := fun m => (OutOfFuel, m).
Definition lift {Σ A} (o : outcome A) : St Σ A := fun m => (o, m).

Definition bind {Σ A B} (c : St Σ A) (k : A -> St Σ B) : St Σ B :=
  fun m =>
    match c m with
    | (Ok a, m') => k a m'
    | (Raise e, m') => (Raise e, m')
    | (OutOfFuel, m') => (OutOfFuel, m')
    | (Unmodelled, m') => (Unmodelled, m')
    end.

Notation "x <- c ;; k" := (bind c (fun x => k))
  (at level 100, c at next level, right associativity) : py_scope.
Notation "c ;;; k" := (bind c (fun _ => k))
  (at level 100, right associativity) : py_scope.
Open Scope py_scope.

(** [try: body except (TypeError, ValueError): handler] *)
Definition try_except {Σ A} (body : St Σ A) (handler : St Σ A) : St Σ A :=
  fun m =>
    match body m with
    | (Raise (Exn TypeError _), m') => handler m'
    | (Raise (Exn ValueError _), m') => handler m'
    | r => r
    end.

(** [fails c]: the computation [c] does not return, whatever the state. *)
Definition fails {Σ A} (c : St Σ A) : Prop := forall m, is_ok (fst (c m)) = false.

Section Model.
Context {S : Scalar}.

(** ** Arrays, values and memory *)

Record ndarray := { shape : list nat; data : list R }.

Inductive value :=
| VNone
| VNum (r : R)             (* a scalar *)
| VArr (l : nat)           (* an [ndarray], by location *)
| VSeq (vs : list value)   (* a list or tuple *)
| VObj.                    (* any other object *)

(** [trace] records the user callables invoked, most recent last. *)
Record mem := { heap : list ndarray; trace : list nat }.

(** Evaluation runs over the memory. *)
Definition M : Type -> Type := St mem.

(** ** Shapes *)

Definition size (sh : list nat) : nat := foldr Nat.mul 1 sh.

Definition shape_eqb (a b : list nat) : bool := bool_decide (a = b).

Fixpoint bshape_rev (a b : list nat) : option (list nat) :=
  match a, b with
  | [], _ => Some b
  | _, [] => Some a
  | x :: a', y :: b' =>
      if x =? y then cons x <$> bshape_rev a' b'
      else if x =? 1 then cons y <$> bshape_rev a' b'
      else if y =? 1 then cons x <$> bshape_rev a' b'
      else None
  end.

(** numpy's broadcasting rule on shapes, trailing axes aligned. *)
Definition broadcast_shapes (a b : list nat) : option (list nat) :=
  reverse <$> bshape_rev (reverse a) (reverse b).

Fixpoint broadcast_all (shs : list (list nat)) : option (list nat) :=
  match shs with
  | [] => Some []
  | sh :: rest => b ← broadcast_all rest; broadcast_shapes sh b
  end.

(** All multi-indices of a shape in C order, and the flat offset of one. *)
Fixpoint indices (sh : list nat) : list (list nat) :=
  match sh with
  | [] => [[]]
  | n :: t => flat_map (fun i => map (cons i) (indices t)) (seq 0 n)
  end.

Fixpoint ravel (sh idx : list nat) : nat :=
  match sh, idx with
  | _ :: sh', i :: idx' => i * size sh' + ravel sh' idx'
  | _, _ => 0
  end.

Definition proj (from idx : list nat) : list nat :=
  zip_with (fun n i => if n =? 1 then 0 else i) from
           (drop (length idx - length from) idx).

(** The data of an array of shape [from] read at shape [to]. *)
Definition bcast_data (from to : list nat) (d : list R) : list R :=
  map (fun idx => nth (ravel from (proj from idx)) d rjunk) (indices to).

(** ** Heap primitives *)

Definition alloc (a : ndarray) : M value :=
  fun m => (Ok (VArr (length (heap m))),
            {| heap := heap m ++ [a]; trace := trace m |}).

Definition load (l : nat) : M ndarray :=
  fun m => match heap m !! l with
           | Some a => (Ok a, m)
           | None => (Unmodelled, m)
           end.

Definition store (l : nat) (a : ndarray) : M unit :=
  fun m => (Ok tt, {| heap := <[l := a]> (heap m); trace := trace m |}).

Definition log_call (id : nat) : M unit :=
  fun m => (Ok tt, {| heap := heap m; trace := trace m ++ [id] |}).

(** ** numpy operations used by the module *)

(** The [dtype] argument of [vectorize], [np.empty], ...: absent, a numeric
    type, or an object numpy does not understand as a data type. *)
Inductive dtype := DNone | DFloat | DComplex | DBad.

(** [np.empty(sh, dtype=dt)] *)
Definition np_empty (sh : list nat) (dt : dtype) : M value :=
  match dt with
  | DBad => raise TypeError Runtime
  | _ => alloc {| shape := sh; data := replicate (size sh) rjunk |}
  end.

(** [np.zeros(sh)], [np.ones(sh)] *)
Definition np_full (sh : list nat) (r : R) : M value :=
  alloc {| shape := sh; data := replicate (size sh) r |}.

(** [np.empty_like(out)] *)
Definition np_empty_like (out : value) : M value :=
  match out with
  | VArr l => a <- load l ;; np_empty (shape a) DFloat
  | VNum _ => np_empty [] DFloat
  | _ => unmodelled
  end.

(** [x.copy()] *)
Definition np_copy (x : value) : M value :=
  match x with
  | VArr l => a <- load l ;; alloc a
  | VNum _ | VNone | VSeq _ | VObj => raise AttributeError Runtime
  end.

(** [isinstance(x, np.ndarray)] *)
Definition is_ndarray (x : value) : bool :=
  match x with VArr _ => true | _ => false end.

(** [x.shape] *)
Definition get_shape (x : value) : M (list nat) :=
  match x with
  | VArr l => a <- load l ;; ret (shape a)
  | _ => raise AttributeError Runtime
  end.

(** [out op= a] with a scalar right-hand side, e.g. [out *= a]. On an array
    the storage is updated; on a scalar the name is rebound. *)
Definition iop_scalar (f : R -> R -> R) (out : value) (a : R) : M value :=
  match out with
  | VArr l =>
      A <- load l ;;
      store l {| shape := shape A; data := map (fun v => f v a) (data A) |} ;;;
      ret out
  | VNum r => ret (VNum (f r a))
  | VNone | VObj => raise TypeError Runtime
  | VSeq _ => unmodelled
  end.

(** [x op y] on array data, shapes broadcast. *)
Definition bcast_zip (f : R -> R -> R) (A B : ndarray) : outcome ndarray :=
  if shape_eqb (shape A) (shape B)
  then Ok {| shape := shape A; data := zip_with f (data A) (data B) |}
  else match broadcast_shapes (shape A) (shape B) with
       | Some s => Ok {| shape := s;
                         data := zip_with f (bcast_data (shape A) s (data A))
                                            (bcast_data (shape B) s (data B)) |}
       | None => Raise (Exn ValueError Runtime)
       end.

(** [out op= tmp], e.g. [out += tmp]: in place when [out] is an array (the
    broadcast shape must then be the shape of [out]). *)
Definition iop (f : R -> R -> R) (out tmp : value) : M value :=
  match out, tmp with
  | VArr l, VArr l' =>
      A <- load l ;; B <- load l' ;;
      C <- lift (bcast_zip f A B) ;;
      if shape_eqb (shape C) (shape A)
      then store l C ;;; ret out
      else raise ValueError Runtime
  | VArr _, VNum b => iop_scalar f out b
  | VNum a, VNum b => ret (VNum (f a b))
  | VNum a, VArr l' =>
      B <- load l' ;;
      alloc {| shape := shape B; data := map (fun v => f a v) (data B) |}
  | VNone, _ | VObj, _ | _, VNone | _, VObj => raise TypeError Runtime
  | VSeq _, _ | _, VSeq _ => unmodelled
  end.

(** [x op y] for an operator that raises nothing between numbers ([+],
    [*]), allocating the result; [/] is [div_value] below. *)
Definition bop (f : R -> R -> R) (x y : value) : M value :=
  match x, y with
  | VArr l, VArr l' =>
      A <- load l ;; B <- load l' ;;
      C <- lift (bcast_zip f A B) ;; alloc C
  | VArr l, VNum b =>
      A <- load l ;;
      alloc {| shape := shape A; data := map (fun v => f v b) (data A) |}
  | VNum a, VArr l' =>
      B <- load l' ;;
      alloc {| shape := shape B; data := map (fun v => f a v) (data B) |}
  | VNum a, VNum b => ret (VNum (f a b))
  | VNone, _ | VObj, _ | _, VNone | _, VObj => raise TypeError Runtime
  | VSeq _, _ | _, VSeq _ => unmodelled
  end.

(** [x / y], true division.  Between two scalars, which are Python
    numbers, a zero divisor raises [ZeroDivisionError]; where an array takes
    part numpy divides entry by entry and raises nothing. *)
Definition div_value (x y : value) : M value :=
  match x, y with
  | VNum _, VNum b =>
      if reqb b rO then raise ZeroDivisionError Runtime else bop rdiv x y
  | _, _ => bop rdiv x y
  end.

(** [out /= tmp] *)
Definition idiv_value (out tmp : value) : M value :=
  match out, tmp with
  | VNum _, VNum b =>
      if reqb b rO then raise ZeroDivisionError Runtime else iop rdiv out tmp
  | _, _ => iop rdiv out tmp
  end.

(** [x ** p] and [out **= p].  A scalar zero raised to a negative power
    raises [ZeroDivisionError]; on an array numpy raises nothing. *)
Definition pow_value (x : value) (p : Z) : M value :=
  match x with
  | VArr l =>
      A <- load l ;;
      alloc {| shape := shape A; data := map (fun v => rpow v p) (data A) |}
  | VNum r =>
      if (p <? 0)%Z && reqb r rO then raise ZeroDivisionError Runtime
      else ret (VNum (rpow r p))
  | VNone | VObj | VSeq _ => raise TypeError Runtime
  end.

Definition ipow_value (out : value) (p : Z) : M value :=
  match out with
  | VNum _ => pow_value out p
  | _ => iop_scalar (fun v _ => rpow v p) out rO
  end.

(** [x[0]] *)
Definition getitem0 (x : value) : M value :=
  match x with
  | VArr l =>
      A <- load l ;;
      match shape A with
      | [] => raise IndexError Runtime
      | 0 :: _ => raise IndexError Runtime
      | [_] => match data A with
               | r :: _ => ret (VNum r)
               | [] => unmodelled
               end
      | _ :: tl => alloc {| shape := tl; data := take (size tl) (data A) |}
      end
  | VSeq (v :: _) => ret v
  | VSeq [] => raise IndexError Runtime
  | VNum _ | VNone | VObj => raise TypeError Runtime
  end.

(** [out[i] = v] *)
Definition setitem (out : value) (i : nat) (v : value) : M value :=
  match out with
  | VSeq vs =>
      if decide (i < length vs) then ret (VSeq (<[i := v]> vs))
      else raise IndexError Runtime
  | VArr l =>
      A <- load l ;;
      match shape A with
      | [] => raise IndexError Runtime
      | n :: tl =>
          if decide (i < n) then
            let blk := size tl in
            let put (src : list R) :=
              store l {| shape := shape A;
                         data := take (i * blk) (data A) ++ src
                                   ++ drop (i * blk + blk) (data A) |} ;;;
              ret out in
            match v with
            | VNum r => put (replicate blk r)
            | VArr l' =>
                B <- load l' ;;
                match tl with
                | [] => match data B with
                        | [r] => put [r]
                        | _ => raise ValueError Runtime
                        end
                | _ => if bool_decide (broadcast_shapes (shape B) tl = Some tl)
                       then put (bcast_data (shape B) tl (data B))
                       else raise ValueError Runtime
                end
            | VNone | VObj => raise TypeError Runtime
            | VSeq _ => unmodelled
            end
          else raise IndexError Runtime
      end
  | VNum _ | VNone | VObj => raise TypeError Runtime
  end.

(** [out[:] = v] *)
Definition setslice (out : value) (v : value) : M value :=
  match out with
  | VArr l =>
      A <- load l ;;
      match v with
      | VNum r =>
          store l {| shape := shape A; data := replicate (size (shape A)) r |} ;;;
          ret out
      | VArr l' =>
          B <- load l' ;;
          if bool_decide (broadcast_shapes (shape B) (shape A) = Some (shape A))
          then store l {| shape := shape A;
                          data := if shape_eqb (shape B) (shape A) then data B
                                  else bcast_data (shape B) (shape A) (data B) |} ;;;
               ret out
          else raise ValueError Runtime
      | VNone | VObj => raise TypeError Runtime
      | VSeq _ => unmodelled
      end
  | VSeq _ => unmodelled
  | VNum _ | VNone | VObj => raise TypeError Runtime
  end.

(** [np.atleast_2d(x).T] *)
Definition atleast_2d_T (x : value) : M value :=
  match x with
  | VNum r => alloc {| shape := [1; 1]; data := [r] |}
  | VArr l =>
      A <- load l ;;
      match shape A with
      | [] => alloc {| shape := [1; 1]; data := data A |}
      | [n] => alloc {| shape := [n; 1]; data := data A |}
      | [r; c] =>
          alloc {| shape := [c; r];
                   data := flat_map (fun i => map (fun j => nth (j * c + i) (data A) rjunk)
                                                  (seq 0 r)) (seq 0 c) |}
      | _ => unmodelled
      end
  | VNone | VObj | VSeq _ => unmodelled
  end.

(** The shapes of the arguments of [np.broadcast] called on the unpacked
    [x]: unpacking an array iterates over its first axis. *)
Definition unpack_shapes (x : value) : M (list (list nat)) :=
  match x with
  | VArr l =>
      A <- load l ;;
      match shape A with
      | [] => raise TypeError Runtime
      | n :: tl => ret (replicate n tl)
      end
  | VSeq vs =>
      (fix go (vs : list value) : M (list (list nat)) :=
         match vs with
         | [] => ret []
         | VArr l :: rest => A <- load l ;; r <- go rest ;; ret (shape A :: r)
         | VNum _ :: rest => r <- go rest ;; ret ([] :: r)
         | _ => unmodelled
         end) vs
  | VNum _ | VNone | VObj => raise TypeError Runtime
  end.

(** The [shape] of [np.broadcast] called on the unpacked [x]; numpy
    refuses more than 32 arguments. *)
Definition np_broadcast_shape (x : value) : M (list nat) :=
  shs <- unpack_shapes x ;;
  if 32 <? length shs then raise ValueError Runtime
  else
    match broadcast_all shs with
    | Some s => ret s
    | None => raise ValueError Runtime
    end.


(** ** Sets, function sets and function spaces *)

Inductive set_kind := KReal | KComplex | KOther.

(** The [Set] contract the module relies on.  The classes themselves
    ([odl.set.sets], [odl.set.domain]) lie outside this module, so a set is
    given by the operations the module calls on it; [contains_all] is absent
    for a set without bulk membership test.  Equality of sets is equality of
    [set_id]. *)
Record pset := {
  set_id : nat;
  kind : set_kind;
  ndim : nat;
  contains : value -> list ndarray -> bool;                 (* [x in s] *)
  contains_all : option (value -> list ndarray -> bool);    (* [s.contains_all(x)] *)
  element : value -> M value                                (* [s.element(x)] *)
}.

Definition pset_eqb (a b : pset) : bool := set_id a =? set_id b.

Inductive space_class := CFunctionSet | CFunctionSpace.

(** A [FunctionSet]: the pair of [domain] and [range]; a [FunctionSpace] is
    one whose range is its field. *)
Record fspace := { sp_class : space_class; domain : pset; range : pset }.

Definition field (sp : fspace) : pset := range sp.

(** [complex if self.field == ComplexNumbers() else float] *)
Definition field_dtype (sp : fspace) : dtype :=
  match kind (field sp) with KComplex => DComplex | _ => DFloat end.

(** ** Closures and vectors *)

Inductive outarg := OutNone | OutPositional | OutOptional.

Inductive binop := Lincomb (a b : R) | Product | Quotient.

(** The function objects that occur as evaluation closures: user callables,
    the module-level functions, and the functions the module defines at run
    time, each with what it captures. *)
Inductive closure :=
| CUser (id : nat)
| C_out_of_place_not_impl
| C_default_in_place
| Cip_wrapper (self : nat)
| Coop_wrapper (self : nat) (dt : dtype)
| Cvect_wrapper (oa : outarg) (dt : dtype) (func : closure)
| Cvect_decorator (dt : dtype) (oa : outarg)
| CVector (v : nat)
| Czero_novec
| Czero_vec (nd : nat)
| Cone_novec
| Cone_vec (nd : nat)
| Cbin_call_out_of_place (op : binop) (x1_call_oop x2_call_oop : closure)
| Cbin_call (op : binop) (x1_call_oop x1_call_ip x2_call_oop x2_call_ip : closure)
| Cpower_call_out_of_place (p : Z) (x_call_oop : closure)
| Cpower_call (p : Z) (x_call_oop x_call_ip : closure).

Inductive vector_class := CFunctionSetVector | CFunctionSpaceVector.

(** The attributes of a vector object.  [_vectorized] is unset until
    [assign] or an operator of the space stores it. *)
Record vector := {
  v_class : vector_class;
  _space : fspace;
  _call_in_place : closure;
  _call_out_of_place : closure;
  _call_has_out : bool;
  _call_out_optional : bool;
  _vectorized : option bool
}.

(** What the module takes from its environment: the behaviour of the user
    callables, how [_dispatch_call_args] classifies their signature
    ([call_has_out], [call_out_optional]), and the value of the attribute
    [vectorized] -- declared outside this module -- on a vector whose
    [_vectorized] has not been stored. *)
Record Env := {
  user : nat -> value -> option value -> list ndarray -> outcome value * list ndarray;
  user_sig : nat -> bool * bool;
  vectorized_default : bool
}.

(** A callable handed to [element] or to a constructor. *)
Inductive pyobj :=
| ONone
| OFunction (c : closure)            (* [isfunction] *)
| OUfunc (nin : nat) (c : closure)   (* a [numpy.ufunc] *)
| OClass (c : closure)               (* [isclass] *)
| OVector (v : nat)                  (* a [FunctionSetVector] *)
| OCallable                          (* another callable object *)
| OOther.                            (* not callable *)

(** ** Helpers of [odl.util.vectorization] *)

(** Modelled from the spec: [is_valid_input_array] (not part of this
    module): "a coordinate array of shape (d, N)", for a 1-D domain also a
    plain array of N points. *)
Definition is_valid_input_array (x : value) (d : nat) : M bool :=
  match x with
  | VArr l =>
      A <- load l ;;
      ret (match shape A with
           | [_] => d =? 1
           | [r; _] => r =? d
           | _ => false
           end)
  | _ => ret false
  end.

Fixpoint mesh_shapes (vs : list value) : M (option (list (list nat))) :=
  match vs with
  | [] => ret (Some [])
  | VArr l :: rest =>
      A <- load l ;; r <- mesh_shapes rest ;; ret (cons (shape A) <$> r)
  | _ => ret None
  end.

(** Modelled from the spec: [is_valid_input_meshgrid] (not part of this
    module): "a length-d sequence of broadcastable per-axis coordinate
    arrays". *)
Definition is_valid_input_meshgrid (x : value) (d : nat) : M bool :=
  match x with
  | VSeq vs =>
      r <- mesh_shapes vs ;;
      ret (match r with
           | Some shs =>
               (length shs =? d)
               && forallb (fun sh => length sh =? d) shs
               && bool_decide (is_Some (broadcast_all shs))
           | None => false
           end)
  | _ => ret false
  end.

(** Modelled from the spec: [out_shape_from_array] (not part of this
    module): "derived from its trailing axis length (or, for 1-D domains, its
    own shape)". *)
Definition out_shape_from_array (x : value) : M (list nat) :=
  s <- get_shape x ;;
  ret (match s with
       | [_; n] => [n]
       | _ => s
       end).

(** Modelled from the spec: [out_shape_from_meshgrid] (not part of this
    module): "the broadcast shape of its components". *)
Definition out_shape_from_meshgrid (x : value) : M (list nat) :=
  match x with
  | VSeq [v] => get_shape v
  | _ => np_broadcast_shape x
  end.

(** Modelled from the spec: [vecs_from_meshgrid] (not part of this module),
    for meshgrid arrays in C order: the coordinate vector of each axis. *)
Fixpoint vecs_from_meshgrid (vs : list value) : M (list (list R)) :=
  match vs with
  | [] => ret []
  | VArr l :: rest => A <- load l ;; r <- vecs_from_meshgrid rest ;; ret (data A :: r)
  | _ => unmodelled
  end.

(** [itertools.product] *)
Fixpoint product (vecs : list (list R)) : list (list R) :=
  match vecs with
  | [] => [[]]
  | v :: rest => flat_map (fun r => map (cons r) (product rest)) v
  end.

(** Modelled from the spec: [_dispatch_call_args] (not part of this module):
    "inspect whether it declares an output parameter and whether that
    parameter is optional", read off the signature of each function. *)
Definition _dispatch_call_args (E : Env) (c : closure) : bool * bool :=
  match c with
  | CUser id => user_sig E id
  | C_out_of_place_not_impl => (false, false)
  | C_default_in_place => (true, false)
  | Cip_wrapper _ => (true, false)
  | Coop_wrapper _ _ => (false, false)
  | Cvect_wrapper OutNone _ _ => (false, false)
  | Cvect_wrapper OutPositional _ _ => (true, false)
  | Cvect_wrapper OutOptional _ _ => (true, true)
  | Cvect_decorator _ _ => (false, false)
  | CVector _ => (true, true)
  | Czero_novec | Czero_vec _ | Cone_novec | Cone_vec _ => (false, false)
  | Cbin_call_out_of_place _ _ _ => (false, false)
  | Cbin_call _ _ _ _ _ => (true, true)
  | Cpower_call_out_of_place _ _ => (false, false)
  | Cpower_call _ _ _ => (true, true)
  end.

(** ** Evaluation *)

Section Eval.
Context (E : Env) (V : list vector).

(** The interpreter of closures, one level up. *)
Variable rec : closure -> value -> option value -> M value.

Definition lookup_vector (v : nat) : M vector :=
  match V !! v with
  | Some r => ret r
  | None => unmodelled
  end.

(** The attribute [vectorized] of a vector. *)
Definition vectorized (v : vector) : bool :=
  default (vectorized_default E) (_vectorized v).

(** [FunctionSetVector._call] *)
Definition FunctionSetVector__call (self : vector) (x : value) (out : option value)
  : M value :=
  match out with
  | None => rec (_call_out_of_place self) x None
  | Some o => rec (_call_in_place self) x (Some o) ;;; ret o
  end.

Definition in_set (s : pset) (x : value) : M bool :=
  fun m => (Ok (contains s x (heap m)), m).

Definition all_in_set (s : pset) (x : value) : M bool :=
  match contains_all s with
  | Some f => fun m => (Ok (f x (heap m)), m)
  | None => raise AttributeError Runtime
  end.

Definition when (b : bool) (c : M unit) : M unit := if b then c else ret tt.

(** [FunctionSetVector.__call__].

    Lines 541-550 of the source are not well-formed Python: the range check
    written for the out-of-place path (545-549) is indented under the [raise]
    of the shape test, where it could never run, and the [else] commented
    "out is not None" is attached to the shape test [if out_shape != (1,)
    and ...], not to [if out is None].  The definition follows the text as
    it is laid out: the block under the [raise] is dead, and the branch
    written for a supplied buffer runs whenever the shape test passes.

    [scalar_out] is [None] while the local variable is unbound. *)
Definition FunctionSetVector___call__ (self : nat) (x : value) (out : option value)
    (vec_bounds_check : bool) : M value :=
  v <- lookup_vector self ;;
  let dom := domain (_space v) in
  when (vec_bounds_check && negb (bool_decide (is_Some (contains_all dom))))
       (raise AttributeError MissingCapability) ;;;
  is_elem <- in_set dom x ;;
  xs <- (if negb is_elem then
           try_except
             (x1 <- element dom x ;;
              x2 <- atleast_2d_T x1 ;;
              ret (x2, Some (bool_decide (out = None))))
             (ret (x, Some false))
         else ret (x, None)) ;;
  let x := fst xs in
  let scalar_out : option bool := snd xs in
  is_arr <- is_valid_input_array x (ndim dom) ;;
  xo <- (if is_arr then
           if ndim dom =? 1 then
             s <- get_shape x ;;
             x <- (if length s =? 2 then getitem0 x else ret x) ;;
             out_shape <- get_shape x ;;
             ret (x, out_shape)
           else
             s <- get_shape x ;;
             ret (x, [nth 1 s 0])
         else
           is_mg <- is_valid_input_meshgrid x (ndim dom) ;;
           if is_mg then
             if ndim dom =? 1 then
               x <- getitem0 x ;;
               out_shape <- get_shape x ;;
               ret (x, out_shape)
             else
               out_shape <- np_broadcast_shape x ;;
               ret (x, out_shape)
           else raise TypeError InvalidInput) ;;
  let x := fst xo in
  let out_shape : list nat := snd xo in
  when vec_bounds_check
       (ok <- all_in_set dom x ;;
        when (negb ok) (raise ValueError OutOfDomain)) ;;;
  out <- match out with
         | None => FunctionSetVector__call v x None
         | Some o => ret o
         end ;;
  mismatch <- (if negb (shape_eqb out_shape [1]) then
                 s <- get_shape out ;; ret (negb (shape_eqb s out_shape))
               else ret false) ;;
  (if mismatch then raise ValueError ShapeMismatch
   else
     if vectorized v then
       when (negb (is_ndarray out)) (raise TypeError TypeConflict) ;;;
       s <- get_shape out ;;
       when (negb (shape_eqb s out_shape)) (raise ValueError ShapeMismatch) ;;;
       FunctionSetVector__call v x (Some out) ;;;
       when vec_bounds_check
            (ok <- all_in_set (range (_space v)) out ;;
             when (negb ok) (raise ValueError OutOfRange))
     else raise ValueError InvalidUsage) ;;;
  match scalar_out with
  | None => raise UnboundLocalError Runtime
  | Some true => getitem0 out
  | Some false => ret out
  end.

(** [_default_in_place(func, x, out)], [func] being a vector. *)
Definition _default_in_place (func : nat) (x out : value) : M value :=
  r <- FunctionSetVector___call__ func x None true ;;
  setslice out r.

(** [_default_out_of_place(func, dtype, x)], [func] being a vector. *)
Definition _default_out_of_place (func : nat) (dt : dtype) (x : value) : M value :=
  v <- lookup_vector func ;;
  let d := ndim (domain (_space v)) in
  is_arr <- is_valid_input_array x d ;;
  out_shape <- (if is_arr then out_shape_from_array x
                else
                  is_mg <- is_valid_input_meshgrid x d ;;
                  if is_mg then out_shape_from_meshgrid x
                  else raise TypeError TypeConflict) ;;
  out <- np_empty out_shape dt ;;
  FunctionSetVector___call__ func x (Some out) true ;;;
  ret out.

(** *** The wrappers of [vectorize] *)

(** The items of [x.T]: the entries of a one-axis array, the columns of a
    [(d, N)] array. *)
Inductive point := PScalar (r : R) | PVec (coords : list R).

Definition rows_of_T (x : value) : M (list point) :=
  match x with
  | VArr l =>
      A <- load l ;;
      match shape A with
      | [] => raise TypeError Runtime
      | [_] => ret (PScalar <$> data A)
      | [d; n] =>
          ret ((fun i => PVec ((fun j => nth (j * n + i) (data A) rjunk) <$> seq 0 d))
                 <$> seq 0 n)
      | _ => unmodelled
      end
  | _ => unmodelled
  end.

Definition point_value (p : point) : M value :=
  match p with
  | PScalar r => ret (VNum r)
  | PVec cs => alloc {| shape := [length cs]; data := cs |}
  end.

(** [for i, pt in enumerate(...): out[i] = func(pt)] *)
Fixpoint fill_loop (func : closure) (pts : list point) (i : nat) (out : value)
  : M value :=
  match pts with
  | [] => ret out
  | p :: rest =>
      pt <- point_value p ;;
      r <- rec func pt None ;;
      out <- setitem out i r ;;
      fill_loop func rest (Datatypes.S i) out
  end.

(** [[0] * out_shape[0]] or [np.empty(out_shape, dtype=dtype)] *)
Definition new_out (dt : dtype) (out_shape : list nat) : M value :=
  match dt with
  | DNone =>
      match out_shape with
      | n :: _ => ret (VSeq (replicate n (VNum rO)))
      | [] => raise IndexError Runtime
      end
  | _ => np_empty out_shape dt
  end.

Definition _vect_wrapper_array (dt : dtype) (func : closure) (x : value)
    (out : option value) : M value :=
  out <- match out with
         | None => out_shape <- out_shape_from_array x ;; new_out dt out_shape
         | Some o => ret o
         end ;;
  pts <- rows_of_T x ;;
  fill_loop func pts 0 out.

(** [out.flat[i] = r] *)
Definition setflat (out : value) (i : nat) (r : value) : M value :=
  match out with
  | VArr l =>
      A <- load l ;;
      if decide (i < length (data A)) then
        match r with
        | VNum v => store l {| shape := shape A; data := <[i := v]> (data A) |} ;;; ret out
        | VNone | VObj => raise TypeError Runtime
        | VArr _ | VSeq _ => unmodelled
        end
      else raise IndexError Runtime
  | _ => raise AttributeError Runtime
  end.

Fixpoint fill_flat (func : closure) (pts : list (list R)) (i : nat) (out : value)
  : M value :=
  match pts with
  | [] => ret out
  | p :: rest =>
      r <- rec func (VSeq (VNum <$> p)) None ;;
      out <- setflat out i r ;;
      fill_flat func rest (Datatypes.S i) out
  end.

(** The meshgrid arrays are taken in C order ([meshgrid_input_order] reads
    the memory layout, which the embedding does not represent). *)
Definition _vect_wrapper_meshgrid (dt : dtype) (func : closure) (x : value)
    (out : option value) : M value :=
  out <- match out with
         | None => out_shape <- out_shape_from_meshgrid x ;; new_out dt out_shape
         | Some o => ret o
         end ;;
  vecs <- match x with
          | VSeq vs => vecs_from_meshgrid vs
          | _ => unmodelled
          end ;;
  fill_flat func (product vecs) 0 out.

Definition _vect_wrapper (dt : dtype) (func : closure) (x : value)
    (out : option value) : M value :=
  dim <- match x with
         | VArr l =>
             A <- load l ;;
             match shape A with
             | [_] => ret 1
             | [d; _] => ret d
             | _ => raise ValueError InvalidInput
             end
         | VSeq vs => ret (length vs)
         | VNum _ | VNone | VObj => raise TypeError Runtime
         end ;;
  is_arr <- is_valid_input_array x dim ;;
  if is_arr then _vect_wrapper_array dt func x out
  else
    is_mg <- is_valid_input_meshgrid x dim ;;
    if is_mg then _vect_wrapper_meshgrid dt func x out
    else raise TypeError InvalidInput.

(** [vect_wrapper_no_out], [vect_wrapper_pos_out], [vect_wrapper_opt_out] *)
Definition vect_wrapper (oa : outarg) (dt : dtype) (func : closure) (x : value)
    (out : option value) : M value :=
  match oa, out with
  | OutNone, Some _ => raise TypeError TypeConflict
  | OutNone, None => _vect_wrapper dt func x None
  | OutPositional, None => raise TypeError Runtime
  | OutPositional, Some o => _vect_wrapper dt func x (Some o)
  | OutOptional, _ => _vect_wrapper dt func x out
  end.

(** *** The functions [zero] and [one] define *)

Definition const_vec (r : R) (nd : nat) (x : value) : M value :=
  is_valid_input_meshgrid x nd ;;;
  sh <- np_broadcast_shape x ;;
  np_full sh r.

(** *** The functions the operators of [FunctionSpace] define *)

Definition scale (out : value) (a : R) : M value :=
  if negb (reqb a rI) then iop_scalar rmul out a else ret out.

Definition lincomb_call_out_of_place (a b : R) (x1_call_oop x2_call_oop : closure)
    (x : value) : M value :=
  if reqb a rO && negb (reqb b rO) then
    out <- rec x2_call_oop x None ;;
    scale out b
  else if reqb b rO then
    out <- rec x1_call_oop x None ;;
    scale out a
  else
    out <- rec x1_call_oop x None ;;
    out <- scale out a ;;
    tmp <- rec x2_call_oop x None ;;
    tmp <- scale tmp b ;;
    iop radd out tmp.

Definition lincomb_call_in_place (a b : R) (x1_call_ip x2_call_ip : closure)
    (x out : value) : M value :=
  if negb (is_ndarray out) then raise TypeError TypeConflict
  else if reqb a rO && reqb b rO then
    iop_scalar rmul out rO
  else if reqb a rO && negb (reqb b rO) then
    rec x2_call_ip x (Some out) ;;;
    scale out b
  else if reqb b rO && negb (reqb a rO) then
    rec x1_call_ip x (Some out) ;;;
    scale out a
  else
    tmp <- np_empty_like out ;;
    rec x1_call_ip x (Some out) ;;;
    rec x2_call_ip x (Some tmp) ;;;
    out <- scale out a ;;
    tmp <- scale tmp b ;;
    iop radd out tmp.

Definition product_call_out_of_place (x1_call_oop x2_call_oop : closure) (x : value)
  : M value :=
  r1 <- rec x1_call_oop x None ;;
  r2 <- rec x2_call_oop x None ;;
  bop rmul r1 r2.

Definition product_call_in_place (x1_call_ip x2_call_ip : closure) (x out : value)
  : M value :=
  tmp <- np_empty_like out ;;
  rec x1_call_ip x (Some out) ;;;
  rec x2_call_ip x (Some tmp) ;;;
  iop rmul out tmp.

Definition quotient_call_out_of_place (x1_call_oop x2_call_oop : closure) (x : value)
  : M value :=
  r1 <- rec x1_call_oop x None ;;
  r2 <- rec x2_call_oop x None ;;
  div_value r1 r2.

Definition quotient_call_in_place (x1_call_ip x2_call_ip : closure) (x out : value)
  : M value :=
  tmp <- np_empty_like out ;;
  rec x1_call_ip x (Some out) ;;;
  rec x2_call_ip x (Some tmp) ;;;
  idiv_value out tmp.

(** [ipow_posint(x, n)] for [n >= 1], the only exponents it is called with;
    the cases [n == 1], [n % 2 == 0] and otherwise are the three forms of a
    binary positive number, and [n // 2] is its tail. *)
Fixpoint ipow_posint (x : value) (n : positive) : M value :=
  match n with
  | xH => ret x
  | xO n2 =>
      x <- iop rmul x x ;;
      ipow_posint x n2
  | xI n2 =>
      tmp <- np_copy x ;;
      x <- iop rmul x x ;;
      ipow_posint x n2 ;;;
      x <- iop rmul x tmp ;;
      ret x
  end.

Definition pow_posint (x : value) (n : positive) : M value :=
  if is_ndarray x then
    y <- np_copy x ;;
    ipow_posint y n
  else pow_value x (Zpos n).

Definition power_call_out_of_place (p : Z) (x_call_oop : closure) (x : value)
  : M value :=
  if (1 <=? p)%Z then
    r <- rec x_call_oop x None ;;
    pow_posint r (Z.to_pos p)
  else
    r <- rec x_call_oop x None ;;
    pow_value r p.

Definition power_call_in_place (p : Z) (x_call_ip : closure) (x out : value)
  : M value :=
  rec x_call_ip x (Some out) ;;;
  if (1 <=? p)%Z then ipow_posint out (Z.to_pos p)
  else ipow_value out p.

(** *** Calling a function object *)

(** [c(x)] when [out] is [None], [c(x, out)] otherwise; a call that does not
    fit the signature of the function is a [TypeError] of the runtime. *)
Definition call_body (c : closure) (x : value) (out : option value) : M value :=
  match c with
  | CUser id =>
      let '(has_out, out_optional) := user_sig E id in
      match out with
      | Some _ => when (negb has_out) (raise TypeError Runtime)
      | None => when (has_out && negb out_optional) (raise TypeError Runtime)
      end ;;;
      log_call id ;;;
      (fun m => let '(r, h) := user E id x out (heap m) in
                (r, {| heap := h; trace := trace m |}))
  | C_out_of_place_not_impl => raise NotImplementedError NotImplemented
  | C_default_in_place => raise TypeError Runtime
  | Cip_wrapper self =>
      match out with
      | Some o => _default_in_place self x o
      | None => raise TypeError Runtime
      end
  | Coop_wrapper self dt =>
      match out with
      | None => _default_out_of_place self dt x
      | Some _ => raise TypeError Runtime
      end
  | Cvect_wrapper oa dt func => vect_wrapper oa dt func x out
  | Cvect_decorator _ _ =>
      match out with
      | None => ret VObj
      | Some _ => raise TypeError Runtime
      end
  | CVector v => FunctionSetVector___call__ v x out true
  | Czero_novec =>
      match out with None => ret (VNum rO) | Some _ => raise TypeError Runtime end
  | Czero_vec nd =>
      match out with None => const_vec rO nd x | Some _ => raise TypeError Runtime end
  | Cone_novec =>
      match out with None => ret (VNum rI) | Some _ => raise TypeError Runtime end
  | Cone_vec nd =>
      match out with None => const_vec rI nd x | Some _ => raise TypeError Runtime end
  | Cbin_call_out_of_place op c1 c2 =>
      match out with
      | Some _ => raise TypeError Runtime
      | None =>
          match op with
          | Lincomb a b => lincomb_call_out_of_place a b c1 c2 x
          | Product => product_call_out_of_place c1 c2 x
          | Quotient => quotient_call_out_of_place c1 c2 x
          end
      end
  | Cbin_call op c1 c1i c2 c2i =>
      match op, out with
      | Lincomb a b, None => lincomb_call_out_of_place a b c1 c2 x
      | Lincomb a b, Some o => lincomb_call_in_place a b c1i c2i x o
      | Product, None => product_call_out_of_place c1 c2 x
      | Product, Some o => product_call_in_place c1i c2i x o
      | Quotient, None => quotient_call_out_of_place c1 c2 x
      | Quotient, Some o => quotient_call_in_place c1i c2i x o
      end
  | Cpower_call_out_of_place p c1 =>
      match out with
      | Some _ => raise TypeError Runtime
      | None => power_call_out_of_place p c1 x
      end
  | Cpower_call p c1 c1i =>
      match out with
      | None => power_call_out_of_place p c1 x
      | Some o => power_call_in_place p c1i x o
      end
  end.

End Eval.

(** [call E V n c x out]: the call of [c] with recursion depth at most [n]. *)
Fixpoint call (E : Env) (V : list vector) (n : nat) (c : closure) (x : value)
    (out : option value) : M value :=
  match n with
  | 0 => out_of_fuel
  | Datatypes.S n' => call_body E V (call E V n') c x out
  end.

(** Evaluation of the vector [self] through [__call__]. *)
Definition evaluate (E : Env) (V : list vector) (n : nat) (self : nat) (x : value)
    (out : option value) (vec_bounds_check : bool) : M value :=
  FunctionSetVector___call__ E V (call E V n) self x out vec_bounds_check.

(** ** Vector objects: construction, assignment and the algebra *)

(** Operations on vector objects run over the store of vectors. *)
Definition VM : Type -> Type := St (list vector).

Definition get_vector (v : nat) : VM vector :=
  fun V => match V !! v with
           | Some r => (Ok r, V)
           | None => (Unmodelled, V)
           end.

Definition set_vector (v : nat) (r : vector) : VM unit :=
  fun V => (Ok tt, <[v := r]> V).

(** Instantiation of a class: a new object is allocated and its [__init__]
    run on it; when [__init__] raises, the object is dropped. *)
Definition new_object (init : nat -> outcome vector) : VM nat :=
  fun V => match init (length V) with
           | Ok r => (Ok (length V), V ++ [r])
           | Raise e => (Raise e, V)
           | OutOfFuel => (OutOfFuel, V)
           | Unmodelled => (Unmodelled, V)
           end.

(** A call binds the keyword arguments it passes to parameters the function
    declares; a keyword that names none of them is a [TypeError]. *)
Inductive keyword := kw_vectorized.

Definition keyword_eqb (k k' : keyword) : bool :=
  match k, k' with kw_vectorized, kw_vectorized => true end.

Definition bind_keywords (declared given : list keyword) : outcome unit :=
  if forallb (fun k => existsb (keyword_eqb k) declared) given then Ok tt
  else Raise (Exn TypeError Runtime).

Section Objects.
Context (E : Env).

(** [FunctionSet.__eq__] and [FunctionSpace.__eq__] ([self == other]) *)
Definition fspace_eqb (self other : fspace) : bool :=
  match sp_class self with
  | CFunctionSet =>
      pset_eqb (domain self) (domain other) && pset_eqb (range self) (range other)
  | CFunctionSpace =>
      match sp_class other with
      | CFunctionSpace =>
          pset_eqb (domain self) (domain other) && pset_eqb (range self) (range other)
      | CFunctionSet => false
      end
  end.

(** [FunctionSetVector.__init__(self, fset, fcall)]; [keywords] names the
    keyword arguments the call passes besides the two positional ones. *)
Definition FunctionSetVector___init__ (cls : vector_class) (self : nat) (fset : fspace)
    (fcall : pyobj) (keywords : list keyword) : outcome vector :=
  match bind_keywords [] keywords with
  | Ok _ =>
      let flags : outcome (closure * (bool * bool)) :=
        match fcall with
        | OVector w => Ok (CVector w, _dispatch_call_args E (CVector w))
        | OUfunc nin c =>
            if negb (nin =? 1) then Raise (Exn ValueError TypeConflict)
            else Ok (c, (true, true))
        | OFunction c => Ok (c, _dispatch_call_args E c)
        | OClass c => Ok (c, _dispatch_call_args E c)
        | ONone | OCallable | OOther => Raise (Exn TypeError TypeConflict)
        end in
      match flags with
      | Ok (f, (call_has_out, call_out_optional)) =>
          Ok (if negb call_has_out then
                (* Out-of-place only *)
                {| v_class := cls; _space := fset;
                   _call_in_place := Cip_wrapper self;
                   _call_out_of_place := f;
                   _call_has_out := call_has_out;
                   _call_out_optional := call_out_optional;
                   _vectorized := None |}
              else if call_out_optional then
                (* Dual-use *)
                {| v_class := cls; _space := fset;
                   _call_in_place := f;
                   _call_out_of_place := f;
                   _call_has_out := call_has_out;
                   _call_out_optional := call_out_optional;
                   _vectorized := None |}
              else
                (* In-place only *)
                {| v_class := cls; _space := fset;
                   _call_in_place := f;
                   _call_out_of_place := C_out_of_place_not_impl;
                   _call_has_out := call_has_out;
                   _call_out_optional := call_out_optional;
                   _vectorized := None |})
      | Raise e => Raise e
      | OutOfFuel => OutOfFuel
      | Unmodelled => Unmodelled
      end
  | Raise e => Raise e
  | OutOfFuel => OutOfFuel
  | Unmodelled => Unmodelled
  end.

(** [FunctionSpaceVector.__init__(self, fspace, fcall=None, vectorized=True)]:
    line 1063 calls
    [FunctionSetVector.__init__(self, fspace, fcall, vectorized=vectorized)]. *)
Definition FunctionSpaceVector___init__ (self : nat) (fspace : fspace) (fcall : pyobj)
    (vectorized : bool) : outcome vector :=
  match sp_class fspace with
  | CFunctionSet => Raise (Exn TypeError TypeConflict)
  | CFunctionSpace =>
      match FunctionSetVector___init__ CFunctionSpaceVector self fspace fcall
              [kw_vectorized] with
      | Ok v =>
          if _call_has_out v && negb (_call_out_optional v) then
            (* Now we can use a default out-of-place implementation *)
            let dt := match kind (field fspace) with KReal => DFloat | _ => DComplex end in
            Ok {| v_class := v_class v; _space := _space v;
                  _call_in_place := _call_in_place v;
                  _call_out_of_place := Coop_wrapper self dt;
                  _call_has_out := _call_has_out v;
                  _call_out_optional := _call_out_optional v;
                  _vectorized := _vectorized v |}
          else Ok v
      | r => r
      end
  end.

(** [callable(fcall)] *)
Definition callable (fcall : pyobj) : bool :=
  match fcall with
  | ONone | OOther => false
  | _ => true
  end.

(** [self.element_type(self, fcall)] *)
Definition element_type (self : fspace) (fcall : pyobj) : VM nat :=
  match sp_class self with
  | CFunctionSet =>
      new_object (fun o => FunctionSetVector___init__ CFunctionSetVector o self fcall [])
  | CFunctionSpace =>
      new_object (fun o => FunctionSpaceVector___init__ o self fcall true)
  end.

(** [FunctionSet.element(self, fcall=None, vectorized=True)].  Line 297
    passes [fcall] to [vectorize] as its [dtype]; what comes back is the
    decorator, not a wrapped function. *)
Definition FunctionSet_element (self : fspace) (fcall : pyobj) (vectorized : bool)
  : VM nat :=
  if negb (callable fcall) then raise TypeError TypeConflict
  else
    let fcall := if negb vectorized
                 then OFunction (Cvect_decorator DBad OutOptional)
                 else fcall in
    element_type self fcall.

(** [FunctionSpace.zero(self, vectorized=True)]; its call of [self.element]
    passes a function, so that [FunctionSpace.element] goes on to
    [FunctionSet.element]. *)
Definition FunctionSpace_zero (self : fspace) (vectorized : bool) : VM nat :=
  let zero_func := if vectorized then Czero_vec (ndim (domain self)) else Czero_novec in
  FunctionSet_element self (OFunction zero_func) vectorized.

(** [FunctionSpace.one(self, vectorized=True)] *)
Definition FunctionSpace_one (self : fspace) (vectorized : bool) : VM nat :=
  let one_func := if vectorized then Cone_vec (ndim (domain self)) else Cone_novec in
  FunctionSet_element self (OFunction one_func) vectorized.

(** [FunctionSpace.element(self, fcall=None, vectorized=True)] *)
Definition FunctionSpace_element (self : fspace) (fcall : pyobj) (vectorized : bool)
  : VM nat :=
  match fcall with
  | ONone => FunctionSpace_zero self vectorized
  | _ => FunctionSet_element self fcall vectorized
  end.

(** [self.space.element()], dispatched on the class of the space *)
Definition space_element (sp : fspace) : VM nat :=
  match sp_class sp with
  | CFunctionSet => FunctionSet_element sp ONone true
  | CFunctionSpace => FunctionSpace_element sp ONone true
  end.

(** [FunctionSet.__contains__] ([other in self]) *)
Definition FunctionSet___contains__ (self : fspace) (other : vector) : bool :=
  match sp_class self, v_class other with
  | CFunctionSpace, CFunctionSetVector => false
  | _, _ => fspace_eqb self (_space other)
  end.

(** [FunctionSetVector.assign(self, other)] *)
Definition FunctionSetVector_assign (self other : nat) : VM unit :=
  s <- get_vector self ;;
  o <- get_vector other ;;
  if negb (FunctionSet___contains__ (_space s) o) then raise TypeError TypeConflict
  else
    set_vector self
      {| v_class := v_class s; _space := _space s;
         _call_in_place := _call_in_place o;
         _call_out_of_place := _call_out_of_place o;
         _call_has_out := _call_has_out o;
         _call_out_optional := _call_out_optional o;
         _vectorized := Some (vectorized E o) |}.

(** [FunctionSetVector.copy(self)] *)
Definition FunctionSetVector_copy (self : nat) : VM nat :=
  s <- get_vector self ;;
  result <- space_element (_space s) ;;
  FunctionSetVector_assign result self ;;;
  ret result.

Global Instance dtype_eq_dec : EqDecision dtype.
Proof. solve_decision. Defined.
Global Instance outarg_eq_dec : EqDecision outarg.
Proof. solve_decision. Defined.

Definition binop_eqb (o o' : binop) : bool :=
  match o, o' with
  | Lincomb a b, Lincomb a' b' => reqb a a' && reqb b b'
  | Product, Product => true
  | Quotient, Quotient => true
  | _, _ => false
  end.

(** Equality of function objects.  Python compares them by identity; two
    references to one function object are equal terms, which is the
    direction [assign] relies on. *)
Fixpoint closure_eqb (c d : closure) : bool :=
  match c, d with
  | CUser i, CUser j => i =? j
  | C_out_of_place_not_impl, C_out_of_place_not_impl => true
  | C_default_in_place, C_default_in_place => true
  | Cip_wrapper i, Cip_wrapper j => i =? j
  | Coop_wrapper i dt, Coop_wrapper j dt' => (i =? j) && bool_decide (dt = dt')
  | Cvect_wrapper oa dt f, Cvect_wrapper oa' dt' f' =>
      bool_decide (oa = oa') && bool_decide (dt = dt') && closure_eqb f f'
  | Cvect_decorator dt oa, Cvect_decorator dt' oa' =>
      bool_decide (oa = oa') && bool_decide (dt = dt')
  | CVector i, CVector j => i =? j
  | Czero_novec, Czero_novec => true
  | Czero_vec i, Czero_vec j => i =? j
  | Cone_novec, Cone_novec => true
  | Cone_vec i, Cone_vec j => i =? j
  | Cbin_call_out_of_place op a b, Cbin_call_out_of_place op' a' b' =>
      binop_eqb op op' && closure_eqb a a' && closure_eqb b b'
  | Cbin_call op a ai b bi, Cbin_call op' a' ai' b' bi' =>
      binop_eqb op op' && closure_eqb a a' && closure_eqb ai ai'
      && closure_eqb b b' && closure_eqb bi bi'
  | Cpower_call_out_of_place p a, Cpower_call_out_of_place p' a' =>
      (p =? p')%Z && closure_eqb a a'
  | Cpower_call p a ai, Cpower_call p' a' ai' =>
      (p =? p')%Z && closure_eqb a a' && closure_eqb ai ai'
  | _, _ => false
  end.

(** [FunctionSetVector.__eq__(self, other)] *)
Definition FunctionSetVector___eq__ (self other : nat) : VM bool :=
  if self =? other then ret true
  else
    s <- get_vector self ;;
    o <- get_vector other ;;
    if negb (eqb (_call_has_out s) (_call_has_out o))
       || negb (eqb (_call_out_optional s) (_call_out_optional o))
    then ret false
    else
      let funcs_equal :=
        if _call_has_out s
        then closure_eqb (_call_in_place s) (_call_in_place o)
        else closure_eqb (_call_out_of_place s) (_call_out_of_place o) in
      ret (fspace_eqb (_space s) (_space o)
           && eqb (vectorized E s) (vectorized E o)
           && funcs_equal).

(** The part the three binary operators share: the operand closures are
    read first ("Store to allow aliasing"), a non-vectorized operand is
    wrapped when the result is to be vectorized, and the new closures are
    stored on [out]. *)
Definition binary_operator (op : binop) (self : fspace) (x1 x2 out : nat) : VM nat :=
  v1 <- get_vector x1 ;;
  v2 <- get_vector x2 ;;
  let x1_call_oop := _call_out_of_place v1 in
  let x1_call_ip := _call_in_place v1 in
  let x2_call_oop := _call_out_of_place v2 in
  let x2_call_ip := _call_in_place v2 in
  let vect := vectorized E v1 || vectorized E v2 in
  let dt := field_dtype self in
  (* Manually vectorize if necessary. Use out-of-place for both *)
  let '(x1_call_oop, x1_call_ip) :=
    if vect && negb (vectorized E v1) then
      let x1_call_oop := Cvect_wrapper OutNone dt x1_call_oop in
      (x1_call_oop, Cvect_wrapper OutPositional dt x1_call_oop)
    else (x1_call_oop, x1_call_ip) in
  let '(x2_call_oop, x2_call_ip) :=
    if vect && negb (vectorized E v2) then
      let x2_call_oop := Cvect_wrapper OutNone dt x2_call_oop in
      (x2_call_oop, Cvect_wrapper OutPositional dt x2_call_oop)
    else (x2_call_oop, x2_call_ip) in
  o <- get_vector out ;;
  set_vector out
    (if vect then
       let f := Cbin_call op x1_call_oop x1_call_ip x2_call_oop x2_call_ip in
       {| v_class := v_class o; _space := _space o;
          _call_in_place := f;
          _call_out_of_place := f;
          _call_has_out := true;
          _call_out_optional := true;
          _vectorized := Some vect |}
     else
       {| v_class := v_class o; _space := _space o;
          _call_in_place := C_default_in_place;
          _call_out_of_place := Cbin_call_out_of_place op x1_call_oop x2_call_oop;
          _call_has_out := false;
          _call_out_optional := false;
          _vectorized := Some vect |}) ;;;
  ret out.

(** [FunctionSpace._lincomb(self, a, x1, b, x2, out)] *)
Definition FunctionSpace__lincomb (self : fspace) (a : R) (x1 : nat) (b : R) (x2 out : nat)
  : VM nat :=
  binary_operator (Lincomb a b) self x1 x2 out.

(** [FunctionSpace._multiply(self, x1, x2, out)] *)
Definition FunctionSpace__multiply (self : fspace) (x1 x2 out : nat) : VM nat :=
  binary_operator Product self x1 x2 out.

(** [FunctionSpace._divide(self, x1, x2, out)] *)
Definition FunctionSpace__divide (self : fspace) (x1 x2 out : nat) : VM nat :=
  binary_operator Quotient self x1 x2 out.

(** The attribute [vectorized] read on a space.  Modelled from the spec: a
    function set is "an immutable pair (domain, range)" and a function space
    one "additionally holding a Field"; neither has such an attribute. *)
Definition space_vectorized (self : fspace) : outcome bool :=
  Raise (Exn AttributeError Runtime).

(** [FunctionSpace._scalar_power(self, x, p, out)]: having read the
    closures of [x] and defined [power_call] and the like, the method
    branches on [self.vectorized], [self] being the space. *)
Definition FunctionSpace__scalar_power (self : fspace) (x : nat) (p : Z) (out : nat)
  : VM nat :=
  v <- get_vector x ;;
  let x_call_oop := _call_out_of_place v in
  let x_call_ip := _call_in_place v in
  vect <- lift (space_vectorized self) ;;
  o <- get_vector out ;;
  set_vector out
    (if vect : bool then
       let f := Cpower_call p x_call_oop x_call_ip in
       {| v_class := v_class o; _space := _space o;
          _call_in_place := f;
          _call_out_of_place := f;
          _call_has_out := true;
          _call_out_optional := true;
          _vectorized := Some vect |}
     else
       {| v_class := v_class o; _space := _space o;
          _call_in_place := C_default_in_place;
          _call_out_of_place := Cpower_call_out_of_place p x_call_oop;
          _call_has_out := false;
          _call_out_optional := false;
          _vectorized := Some vect |}) ;;;
  ret out.

(** [FunctionSpaceVector.__pow__(self, p)] *)
Definition FunctionSpaceVector___pow__ (self : nat) (p : Z) : VM nat :=
  s <- get_vector self ;;
  out <- space_element (_space s) ;;
  FunctionSpace__scalar_power (_space s) self p out ;;;
  ret out.

(** [FunctionSpaceVector.__ipow__(self, p)] *)
Definition FunctionSpaceVector___ipow__ (self : nat) (p : Z) : VM nat :=
  s <- get_vector self ;;
  FunctionSpace__scalar_power (_space s) self p self.

End Objects.

(** ** Specifications

    The predicates in which the properties below are stated. *)

(** The closures an operator captures for one operand: the operand's own,
    or their wrapping by [vectorize] when the operand is not vectorized and
    the result is.  The in-place one wraps the out-of-place closure that has
    just been wrapped. *)
Definition captured_oop (E : Env) (dt : dtype) (vect : bool) (v : vector) : closure :=
  if vect && negb (vectorized E v)
  then Cvect_wrapper OutNone dt (_call_out_of_place v)
  else _call_out_of_place v.

Definition captured_ip (E : Env) (dt : dtype) (vect : bool) (v : vector) : closure :=
  if vect && negb (vectorized E v)
  then Cvect_wrapper OutPositional dt (Cvect_wrapper OutNone dt (_call_out_of_place v))
  else _call_in_place v.

(** What a binary operator stores on [out], from the operand records [v1]
    and [v2] as they were when the operator was entered. *)
Definition installed (E : Env) (op : binop) (sp : fspace) (v1 v2 o : vector) : vector :=
  let vect := vectorized E v1 || vectorized E v2 in
  let dt := field_dtype sp in
  if vect then
    let f := Cbin_call op (captured_oop E dt vect v1) (captured_ip E dt vect v1)
                          (captured_oop E dt vect v2) (captured_ip E dt vect v2) in
    {| v_class := v_class o; _space := _space o;
       _call_in_place := f; _call_out_of_place := f;
       _call_has_out := true; _call_out_optional := true;
       _vectorized := Some true |}
  else
    {| v_class := v_class o; _space := _space o;
       _call_in_place := C_default_in_place;
       _call_out_of_place :=
         Cbin_call_out_of_place op (_call_out_of_place v1) (_call_out_of_place v2);
       _call_has_out := false; _call_out_optional := false;
       _vectorized := Some false |}.

Definition coords (p : point) : list R :=
  match p with
  | PScalar r => [r]
  | PVec cs => cs
  end.

(** The points an input array stands for: the entries of a one-axis array
    (one coordinate each), the columns of a [(d, N)] array. *)
Definition input_points (A : ndarray) : option (list point) :=
  match shape A with
  | [n] => if decide (length (data A) = n) then Some (PScalar <$> data A) else None
  | [d; n] =>
      Some ((fun i => PVec ((fun j => nth (j * n + i) (data A) rjunk) <$> seq 0 d))
              <$> seq 0 n)
  | _ => None
  end.

(** [pv] is the value by which the point [p] is passed in the heap [h]. *)
Definition point_at (h : list ndarray) (pv : value) (p : point) : Prop :=
  match p with
  | PScalar r => pv = VNum r
  | PVec cs => exists l, pv = VArr l /\ h !! l = Some {| shape := [length cs]; data := cs |}
  end.

(** [c] evaluates [f] point by point: called on a point it returns the
    scalar [f] has there and leaves the heap as it is. *)
Definition pt_spec (E : Env) (V : list vector) (n : nat) (c : closure) (f : list R -> R) : Prop :=
  forall k h t pv p, n <= k -> point_at h pv p ->
    exists t', call E V k c pv None {| heap := h; trace := t |}
               = (Ok (VNum (f (coords p))), {| heap := h; trace := t' |}).

(** [c] evaluates [f] out of place on the input array [A], whose points are
    [pts]: called on it, [c] returns a newly allocated array, of the shape
    inferred from the input, holding the values of [f] at the points; no
    array that existed before is changed. *)
Definition vec_oop_at (E : Env) (V : list vector) (n : nat) (c : closure) (f : list R -> R) (A : ndarray)
    (pts : list point) : Prop :=
  forall k h t lx, n <= k -> h !! lx = Some A ->
    exists lo extra t',
      call E V k c (VArr lx) None {| heap := h; trace := t |}
      = (Ok (VArr lo), {| heap := h ++ extra; trace := t' |})
      /\ length h <= lo
      /\ (h ++ extra) !! lo
         = Some {| shape := [length pts]; data := (fun p => f (coords p)) <$> pts |}.

(** [c] evaluates [f] out of place on arrays: it does so on every input
    array. *)
Definition vec_oop_spec (E : Env) (V : list vector) (n : nat) (c : closure) (f : list R -> R) : Prop :=
  forall k h t lx A pts, n <= k -> h !! lx = Some A -> input_points A = Some pts ->
    exists lo extra t',
      call E V k c (VArr lx) None {| heap := h; trace := t |}
      = (Ok (VArr lo), {| heap := h ++ extra; trace := t' |})
      /\ length h <= lo
      /\ (h ++ extra) !! lo
         = Some {| shape := [length pts]; data := (fun p => f (coords p)) <$> pts |}.


(** [c] evaluates [f] in place on arrays: called on an input array and a
    buffer of the inferred shape (holding as many entries as its shape
    says), distinct from the input, it fills the buffer with the values of
    [f] and changes no other array. *)
Definition vec_ip_spec (E : Env) (V : list vector) (n : nat) (c : closure) (f : list R -> R) : Prop :=
  forall k h t lx A pts lo O, n <= k ->
    h !! lx = Some A -> input_points A = Some pts ->
    h !! lo = Some O -> lo <> lx ->
    shape O = [length pts] -> length (data O) = length pts ->
    exists r extra t',
      call E V k c (VArr lx) (Some (VArr lo)) {| heap := h; trace := t |}
      = (Ok r, {| heap := <[lo := {| shape := [length pts];
                                     data := (fun p => f (coords p)) <$> pts |}]> h ++ extra;
                  trace := t' |}).

Definition numeric (dt : dtype) : Prop := dt = DFloat \/ dt = DComplex.

(** Column [i] of an array of shape [(d, n)] stored row by row: row [i] of
    the transposed coordinate matrix. *)
Definition column (A : ndarray) (d n i : nat) : list R :=
  (fun j => nth (j * n + i) (data A) rjunk) <$> seq 0 d.

(** The heap [H] is [h] with the array at [lo] replaced by [Z], followed by
    arrays allocated since. *)
Definition updates (lo : nat) (Z : ndarray) (h H : list ndarray) : Prop :=
  exists extra, H = <[lo := Z]> h ++ extra.

(** What an operand vector computes: the values of [f], on arrays when the
    vector is vectorized, point by point when it is not. *)
Definition operand_spec (E : Env) (V : list vector) (n : nat) (v : vector) (f : list R -> R) : Prop :=
  if vectorized E v
  then vec_oop_spec E V n (_call_out_of_place v) f
  else pt_spec E V n (_call_out_of_place v) f.

(** The linearity property as the specification states it. *)

(** The data of the array an out-of-place call returns. *)
Definition returned_data (E : Env) (V : list vector) (n : nat) (c : closure)
    (x : value) (m : mem) : option (list R) :=
  match call E V n c x None m with
  | (Ok (VArr l), m') => data <$> heap m' !! l
  | _ => None
  end.

(** "[_lincomb(a, x1, b, x2, out)] evaluated at [x] equals
    [a*x1(x) + b*x2(x)]", for the input [x] in the memory [m]: whatever
    arrays the operands return when evaluated at [x], the vector the operator
    produces returns their combination. *)
Definition lincomb_linear_at (E : Env) (sp : fspace) (a : R) (x1 : nat) (b : R)
    (x2 out : nat) (V : list vector) (n : nat) (x : value) (m : mem) : Prop :=
  forall V' v1 v2 r d1 d2,
    FunctionSpace__lincomb E sp a x1 b x2 out V = (Ok out, V') ->
    V !! x1 = Some v1 -> V !! x2 = Some v2 -> V' !! out = Some r ->
    returned_data E V n (_call_out_of_place v1) x m = Some d1 ->
    returned_data E V n (_call_out_of_place v2) x m = Some d2 ->
    returned_data E V' n (_call_out_of_place r) x m
    = Some (zip_with (fun u w => radd (rmul a u) (rmul b w)) d1 d2).

(** *** Predicates for the further properties *)

(** The set [dom] takes the value [x] for no element of its own: [x in dom]
    is false and [dom.element(x)] raises [TypeError] or [ValueError], leaving
    the memory as it is.  This is how a domain answers to an array of points
    or a meshgrid. *)
Definition no_element (dom : pset) (x : value) (m : mem) : Prop :=
  contains dom x (heap m) = false
  /\ exists c s, (c = TypeError \/ c = ValueError)
                 /\ element dom x m = (Raise (Exn c s), m).

(** An input array that [__call__] passes on to the closures as it is, for a
    domain of dimension [d]: points of the line in one axis, or a [(d, N)]
    array with [d <> 1] (of a [(1, N)] array the row [x[0]] is passed on). *)
Definition passed_on (d : nat) (A : ndarray) : Prop :=
  match shape A with
  | [_] => d = 1
  | [r; _] => r = d /\ d <> 1
  | _ => False
  end.

(** The bulk membership test [s.contains_all] answers [b] on the array [Y],
    wherever it lies in memory. *)
Definition bulk_test (s : pset) (Y : ndarray) (b : bool) : Prop :=
  exists fs, contains_all s = Some fs
             /\ forall H l, H !! l = Some Y -> fs (VArr l) H = b.

(** [c] evaluates [f] point by point and each call of it records the calls
    [tr] of user callables, no others. *)
Definition pt_spec_traced (E : Env) (V : list vector) (n : nat) (c : closure)
    (f : list R -> R) (tr : list nat) : Prop :=
  forall k h t pv p, n <= k -> point_at h pv p ->
    call E V k c pv None {| heap := h; trace := t |}
    = (Ok (VNum (f (coords p))), {| heap := h; trace := t ++ tr |}).

(** The pointwise operation a binary operator of the space stands for. *)
Definition binop_fun (op : binop) : R -> R -> R :=
  match op with
  | Lincomb a b => fun u w => radd (rmul a u) (rmul b w)
  | Product => rmul
  | Quotient => rdiv
  end.

(** [c] evaluates [f] on the points of a meshgrid: called on the tuple of
    the coordinates of a point it returns the scalar [f] has there and leaves
    the heap as it is. *)
Definition tuple_spec (E : Env) (V : list vector) (n : nat) (c : closure)
    (f : list R -> R) : Prop :=
  forall k h t p, n <= k ->
    exists t', call E V k c (VSeq (VNum <$> p)) None {| heap := h; trace := t |}
               = (Ok (VNum (f p)), {| heap := h; trace := t' |}).

(** [c] returns its argument, as [lambda x: x] does, and leaves the heap as
    it is. *)
Definition returns_argument (E : Env) (V : list vector) (n : nat) (c : closure) : Prop :=
  forall k x h t, n <= k ->
    exists t', call E V k c x None {| heap := h; trace := t |}
               = (Ok x, {| heap := h; trace := t' |}).

(** With fuel [k], [c] returns the value of [f] at the point [p],
    respectively raises [e] there; in either case it leaves the heap as it
    is. *)
Definition returns_at (E : Env) (V : list vector) (k : nat) (c : closure)
    (f : list R -> R) (p : point) : Prop :=
  forall h t pv, point_at h pv p ->
    exists t', call E V k c pv None {| heap := h; trace := t |}
               = (Ok (VNum (f (coords p))), {| heap := h; trace := t' |}).

Definition raises_at (E : Env) (V : list vector) (k : nat) (c : closure)
    (e : exn) (p : point) : Prop :=
  forall h t pv, point_at h pv p ->
    exists t', call E V k c pv None {| heap := h; trace := t |}
               = (Raise e, {| heap := h; trace := t' |}).

(** The number of copies [ipow_posint(x, n)] makes: one for each odd
    exponent above 1 met on the way down. *)
Fixpoint copies (n : positive) : nat :=
  match n with
  | xH => 0
  | xO n2 => copies n2
  | xI n2 => Datatypes.S (copies n2)
  end.

(** The product [ipow_posint(x, n)] leaves in an entry that held [v]: the
    multiplications of the code in the order it performs them, with no law
    of arithmetic applied.  For an even exponent [x *= x] and the recursion
    with [n // 2]; for an odd one the recursion on [x * x], then [x *= tmp]
    with the copy [tmp] of the entry. *)
Fixpoint sq_pow (v : R) (n : positive) : R :=
  match n with
  | xH => v
  | xO n2 => sq_pow (rmul v v) n2
  | xI n2 => rmul (sq_pow (rmul v v) n2) v
  end.



End Model.

(** ** The model on the integers

    Concrete callables, sets, vectors and arrays, over the scalars [Z_scalar]. *)

Section IntegerModel.
Local Open Scope Z_scope.
#[local] Existing Instance Z_scalar.

Definition arr (sh : list nat) (d : list Z) : ndarray := @Build_ndarray Z_scalar sh d.

Definition first_plus_one (p : list Z) : Z := hd 0 p + 1.
Definition first (p : list Z) : Z := hd 0 p.
Definition coordinate_sum (p : list Z) : Z := foldr Z.add 0 p.

(** A vectorized implementation of the function [f] of a point: out of
    place when [out] is [None], into the buffer otherwise. *)
Definition pointwise (f : list Z -> Z) (x : value) (out : option value)
    (h : list ndarray) : outcome value * list ndarray :=
  match x with
  | VArr l =>
      match h !! l with
      | Some A =>
          match input_points A with
          | Some pts =>
              let res := arr [length pts] ((fun p => f (coords p)) <$> pts) in
              match out with
              | None => (Ok (VArr (length h)), h ++ [res])
              | Some (VArr lo) => (Ok (VArr lo), <[lo := res]> h)
              | Some _ => (Raise (Exn TypeError Runtime), h)
              end
          | None => (Raise (Exn ValueError Runtime), h)
          end
      | None => (Unmodelled, h)
      end
  | _ => (Raise (Exn TypeError Runtime), h)
  end.

(** User callables.
    - 0: [lambda x: x], which returns its argument;
    - 1: [x[0] + 1] on arrays, returned in a new array;
    - 2: a per-point function, the sum of the coordinates;
    - 3: the first coordinate, dual-use [f(x, out=None)];
    - 4: the first coordinate, in-place only [f(x, out)]. *)
Definition user_Z (id : nat) (x : value) (out : option value) (h : list ndarray)
  : outcome value * list ndarray :=
  match id with
  | 0%nat => (Ok x, h)
  | 1%nat => pointwise first_plus_one x None h
  | 2%nat =>
      match x with
      | VNum r => (Ok (VNum (coordinate_sum [r])), h)
      | VArr l =>
          match h !! l with
          | Some A => (Ok (VNum (coordinate_sum (data A))), h)
          | None => (Unmodelled, h)
          end
      | _ => (Raise (Exn TypeError Runtime), h)
      end
  | 3%nat | 4%nat => pointwise first x out h
  | _ => (Unmodelled, h)
  end.

Definition env_Z : Env :=
  {| user := user_Z;
     user_sig := fun id => match id with
                           | 3%nat => (true, true)
                           | 4%nat => (true, false)
                           | _ => (false, false)
                           end;
     vectorized_default := true |}.

Definition in_interval (lo hi : Z) (r : Z) : bool := (lo <=? r) && (r <=? hi).

Definition all_in_interval (lo hi : Z) (v : value) (h : list ndarray) : bool :=
  match v with
  | VArr l =>
      match h !! l with
      | Some A => forallb (in_interval lo hi) (data A)
      | None => false
      end
  | _ => false
  end.

(** An interval of the line, as a domain or a range. *)
Definition interval (id : nat) (lo hi : Z) : pset :=
  {| set_id := id; kind := KOther; ndim := 1;
     contains := fun v _ => match v with VNum r => in_interval lo hi r | _ => false end;
     contains_all := Some (all_in_interval lo hi);
     element := fun v =>
       match v with
       | VNum r => if in_interval lo hi r then ret v else raise ValueError Runtime
       | _ => raise TypeError Runtime
       end |}.

Definition reals : pset :=
  {| set_id := 100; kind := KReal; ndim := 1;
     contains := fun v _ => match v with VNum _ => true | _ => false end;
     contains_all := Some (fun _ _ => true);
     element := fun v => match v with VNum _ => ret v | _ => raise TypeError Runtime end |}.

(** Functions from [0, 10] to [0, 3], and the function space over [0, 10]. *)
Definition set_Z : fspace :=
  {| sp_class := CFunctionSet; domain := interval 0 0 10; range := interval 1 0 3 |}.
Definition space_Z : fspace :=
  {| sp_class := CFunctionSpace; domain := interval 0 0 10; range := reals |}.

Definition class_of (sp : fspace) : vector_class :=
  match sp_class sp with
  | CFunctionSet => CFunctionSetVector
  | CFunctionSpace => CFunctionSpaceVector
  end.

(** A vector wrapping the out-of-place callable [c]: its in-place closure
    is the default wrapper around the vector itself. *)
Definition wrap (self : nat) (sp : fspace) (c : closure) (vect : option bool) : vector :=
  {| v_class := class_of sp; _space := sp;
     _call_in_place := Cip_wrapper self; _call_out_of_place := c;
     _call_has_out := false; _call_out_optional := false;
     _vectorized := vect |}.

(** A vectorized vector wrapping the dual-use callable [c]. *)
Definition dual (sp : fspace) (c : closure) : vector :=
  {| v_class := class_of sp; _space := sp;
     _call_in_place := c; _call_out_of_place := c;
     _call_has_out := true; _call_out_optional := true;
     _vectorized := Some true |}.

(** [lambda x: x] as [FunctionSet.element] wraps it, and a dual-use
    vector. *)
Definition store_Z : list vector := [wrap 0 set_Z (CUser 0) None; dual set_Z (CUser 3)].
Definition x_Z : ndarray := arr [3%nat] [1; 2; 5].
Definition buffer_Z : ndarray := arr [3%nat] [0; 0; 0].

Definition f_vec : vector := dual space_Z (CUser 3).
Definition g_novec : vector := wrap 1 space_Z (CUser 2) (Some false).
Definition h_out : vector := wrap 2 space_Z (CUser 0) (Some true).
Definition store_fgh : list vector := [f_vec; g_novec; h_out].
Definition combined : vector := installed env_Z (Lincomb 2 3) space_Z f_vec g_novec h_out.

Definition store_alias : list vector :=
  [wrap 0 space_Z (CUser 0) (Some true); wrap 1 space_Z (CUser 0) (Some true);
   wrap 2 space_Z (CUser 0) (Some true)].

(** What [_lincomb(2, x1, 3, x2, out)] makes of the third vector of
    [store_alias], all three wrapping [lambda x: x]. *)
Definition combined_alias : vector :=
  installed env_Z (Lincomb 2 3) space_Z
    (wrap 0 space_Z (CUser 0) (Some true)) (wrap 1 space_Z (CUser 0) (Some true))
    (wrap 2 space_Z (CUser 0) (Some true)).

Definition coordinates_Z : ndarray := arr [2%nat; 3%nat] [1; 2; 3; 4; 5; 6].

Definition plane_Z : ndarray := arr [2%nat; 3%nat] [1; 2; 5; 0; 0; 0].

(** *** Further sets, vectors and callables *)

(** The interval [0, 10] as a set without bulk membership test, and the
    functions from it to [0, 3]. *)
Definition bare_interval : pset :=
  {| set_id := 2; kind := KOther; ndim := 1;
     contains := contains (interval 0 0 10);
     contains_all := None;
     element := element (interval 0 0 10) |}.
Definition set_bare : fspace :=
  {| sp_class := CFunctionSet; domain := bare_interval; range := interval 1 0 3 |}.

(** The functions from [0, 10] to a range without bulk membership test. *)
Definition set_open : fspace :=
  {| sp_class := CFunctionSet; domain := interval 0 0 10; range := bare_interval |}.

(** Three vectors of the function space, each wrapping the dual-use
    callable 3. *)
Definition store_dual : list vector := [f_vec; f_vec; f_vec].

(** A vector of the function space that holds the default out-of-place
    evaluator around the in-place-only callable 4. *)
Definition k_in_place : vector :=
  {| v_class := CFunctionSpaceVector; _space := space_Z;
     _call_in_place := CUser 4; _call_out_of_place := Coop_wrapper 0 DFloat;
     _call_has_out := true; _call_out_optional := false; _vectorized := Some true |}.

Definition cube_Z : ndarray := arr [1%nat; 1%nat; 2%nat] [1; 2].

(** An environment whose callable takes a point as a tuple of coordinates
    and returns their sum. *)
Definition numbers (vs : list value) : list Z :=
  flat_map (fun v => match v with VNum r => [r] | _ => [] end) vs.

Definition user_T (id : nat) (x : value) (out : option value) (h : list ndarray)
  : outcome value * list ndarray :=
  match x with
  | VSeq vs => (Ok (VNum (coordinate_sum (numbers vs))), h)
  | _ => (Raise (Exn TypeError Runtime), h)
  end.

Definition env_T : Env :=
  {| user := user_T; user_sig := fun _ => (false, false); vectorized_default := true |}.

(** An environment whose callable is defined on the numbers from 0 on,
    where it adds one, and raises [ValueError] below. *)
Definition user_P (id : nat) (x : value) (out : option value) (h : list ndarray)
  : outcome value * list ndarray :=
  match x with
  | VNum r => if r <? 0 then (Raise (Exn ValueError Runtime), h) else (Ok (VNum (r + 1)), h)
  | _ => (Raise (Exn TypeError Runtime), h)
  end.

Definition env_P : Env :=
  {| user := user_P; user_sig := fun _ => (false, false); vectorized_default := true |}.

Definition column_Z : ndarray := arr [2%nat; 1%nat] [10; 20].
Definition row_Z : ndarray := arr [1%nat; 3%nat] [1; 2; 3].

End IntegerModel.

(** * Properties *)

Section Properties.
Context {S : Scalar}.

(** ** Construction of vectors *)

Section Construction.
Context (E : Env).

Lemma bind_keywords_vectorized :
  bind_keywords [] [kw_vectorized] = Raise (Exn TypeError Runtime).
Proof. reflexivity. Qed.

(** The constructor of [FunctionSetVector] declares no parameter
    [vectorized]: called with that keyword it raises before its body runs. *)
Lemma FunctionSetVector_init_keyword cls self fset fcall :
  FunctionSetVector___init__ E cls self fset fcall [kw_vectorized]
  = Raise (Exn TypeError Runtime).
Proof. reflexivity. Qed.

Lemma FunctionSpaceVector_init_raises self fspace fcall vect :
  FunctionSpaceVector___init__ E self fspace fcall vect
  = Raise (Exn TypeError
             (match sp_class fspace with
              | CFunctionSet => TypeConflict
              | CFunctionSpace => Runtime
              end)).
Proof.
  unfold FunctionSpaceVector___init__.
  destruct (sp_class fspace); [reflexivity|].
  now rewrite FunctionSetVector_init_keyword.
Qed.

(** No element of a function space can be created. *)
Lemma FunctionSpace_element_type_raises sp fcall V :
  sp_class sp = CFunctionSpace ->
  element_type E sp fcall V = (Raise (Exn TypeError Runtime), V).
Proof.
  intros Hc. unfold element_type, new_object. rewrite Hc.
  rewrite FunctionSpaceVector_init_raises, Hc. reflexivity.
Qed.

Lemma FunctionSet_element_function_space sp fcall vect V :
  sp_class sp = CFunctionSpace -> callable fcall = true ->
  FunctionSet_element E sp fcall vect V = (Raise (Exn TypeError Runtime), V).
Proof.
  intros Hc Hf. unfold FunctionSet_element. rewrite Hf. cbn [negb].
  now apply FunctionSpace_element_type_raises.
Qed.

(** [self.space.element()] raises for a function set ([None] is not
    callable) and for a function space (the constructor raises). *)
Lemma space_element_raises sp V :
  space_element E sp V
  = (Raise (Exn TypeError
              (match sp_class sp with
               | CFunctionSet => TypeConflict
               | CFunctionSpace => Runtime
               end)), V).
Proof.
  unfold space_element. destruct (sp_class sp) eqn:Hc.
  - reflexivity.
  - unfold FunctionSpace_element, FunctionSpace_zero.
    now apply FunctionSet_element_function_space.
Qed.

(** C5.  [zero()] and [one()] are to be the additive and the multiplicative
    identity of the space.  In the code neither returns a vector: for every
    function space and either value of [vectorized], [zero] and [one] raise
    the [TypeError] of the constructor call at line 1063, and the store of
    vectors is left as it was. *)
Theorem zero_one_raise (d r : pset) (vect : bool) (V : list vector) :
  let sp := {| sp_class := CFunctionSpace; domain := d; range := r |} in
  FunctionSpace_zero E sp vect V = (Raise (Exn TypeError Runtime), V)
  /\ FunctionSpace_one E sp vect V = (Raise (Exn TypeError Runtime), V).
Proof.
  intros sp. split.
  - unfold FunctionSpace_zero. now apply FunctionSet_element_function_space.
  - unfold FunctionSpace_one. now apply FunctionSet_element_function_space.
Qed.

(** C7.  [g = f.copy()] is to give a vector equal to [f].  In the code
    [copy] never returns: [self.space.element()] raises for every vector,
    whatever the store -- in a function set because [element] rejects the
    missing callable, in a function space because the constructor raises. *)
Theorem copy_never_returns (self : nat) (V : list vector) :
  is_ok (fst (FunctionSetVector_copy E self V)) = false
  /\ snd (FunctionSetVector_copy E self V) = V.
Proof.
  unfold FunctionSetVector_copy, bind, get_vector.
  destruct (V !! self) as [s|]; [|now split].
  rewrite space_element_raises. now split.
Qed.

(** After [g.assign(f)] the two vectors hold the same closures and flags. *)
Lemma assign_transfers self other s o V :
  V !! self = Some s -> V !! other = Some o ->
  FunctionSet___contains__ (_space s) o = true ->
  FunctionSetVector_assign E self other V
  = (Ok tt, <[self := {| v_class := v_class s; _space := _space s;
                         _call_in_place := _call_in_place o;
                         _call_out_of_place := _call_out_of_place o;
                         _call_has_out := _call_has_out o;
                         _call_out_optional := _call_out_optional o;
                         _vectorized := Some (vectorized E o) |}]> V).
Proof.
  intros Hs Ho Hin. unfold FunctionSetVector_assign, bind, get_vector.
  rewrite Hs, Ho, Hin. reflexivity.
Qed.

(** A vector wrapped from an out-of-place callable evaluates in place
    through the default wrapper around itself. *)
Lemma init_out_of_place_only cls self fset c oo :
  _dispatch_call_args E c = (false, oo) ->
  FunctionSetVector___init__ E cls self fset (OFunction c) []
  = Ok {| v_class := cls; _space := fset;
          _call_in_place := Cip_wrapper self; _call_out_of_place := c;
          _call_has_out := false; _call_out_optional := oo;
          _vectorized := None |}.
Proof.
  intros Hd. unfold FunctionSetVector___init__. cbn [bind_keywords forallb].
  now rewrite Hd.
Qed.

(** C6.  A vector wrapped from an in-place-only callable [f(x, out)]: in a
    plain [FunctionSetVector] the out-of-place closure is
    [_out_of_place_not_impl], and the raw evaluation without a buffer raises
    [NotImplementedError]; a [FunctionSpaceVector] is to get a default
    out-of-place evaluator instead, but its constructor raises a [TypeError]
    for every argument (line 1063), so that no such vector exists. *)
Theorem in_place_only_wrapping :
  (forall cls self fset c,
      _dispatch_call_args E c = (true, false) ->
      exists v,
        FunctionSetVector___init__ E cls self fset (OFunction c) [] = Ok v
        /\ _call_in_place v = c
        /\ _call_out_of_place v = C_out_of_place_not_impl
        /\ forall V n x m,
             FunctionSetVector__call (call E V (Datatypes.S n)) v x None m
             = (Raise (Exn NotImplementedError NotImplemented), m))
  /\ (forall self fspace fcall vect,
         is_ok (FunctionSpaceVector___init__ E self fspace fcall vect) = false).
Proof.
  split.
  - intros cls self fset c Hd. eexists. split; [|split; [|split]].
    + unfold FunctionSetVector___init__. cbn [bind_keywords forallb].
      rewrite Hd. cbn. reflexivity.
    + reflexivity.
    + reflexivity.
    + intros V n x m. reflexivity.
  - intros. now rewrite FunctionSpaceVector_init_raises.
Qed.

(** [_scalar_power] raises on [self.vectorized] before it stores anything
    on [out]. *)
Lemma scalar_power_raises sp x p out V :
  is_ok (fst (FunctionSpace__scalar_power sp x p out V)) = false
  /\ snd (FunctionSpace__scalar_power sp x p out V) = V.
Proof.
  unfold FunctionSpace__scalar_power, bind, get_vector.
  destruct (V !! x); now split.
Qed.

Lemma scalar_power_attribute_error sp x p out v V :
  V !! x = Some v ->
  FunctionSpace__scalar_power sp x p out V = (Raise (Exn AttributeError Runtime), V).
Proof.
  intros Hx. unfold FunctionSpace__scalar_power, bind, get_vector.
  now rewrite Hx.
Qed.

End Construction.

(** ** The operators of the space on the store of vectors *)

Section Operators.
Context (E : Env).

Lemma binary_operator_result op sp x1 x2 out v1 v2 o V :
  V !! x1 = Some v1 -> V !! x2 = Some v2 -> V !! out = Some o ->
  binary_operator E op sp x1 x2 out V
  = (Ok out, <[out := installed E op sp v1 v2 o]> V).
Proof.
  intros H1 H2 Ho.
  unfold binary_operator, bind, get_vector, set_vector, ret, installed,
    captured_oop, captured_ip.
  rewrite H1, H2.
  destruct (vectorized E v1) eqn:Hv1, (vectorized E v2) eqn:Hv2;
    cbn; rewrite Ho; reflexivity.
Qed.

(** C2.  [f ** n] is to evaluate to [f(x) ** n].  In the code [__pow__]
    never returns a vector: [self.space.element()] raises, and
    [_scalar_power] itself, whatever vector it is given as [out], raises on
    [self.vectorized] -- read on the space, where the sibling operators read
    the flag of their operands -- before any closure is stored. *)
Theorem pow_never_returns (self : nat) (p : Z) (V : list vector) :
  (is_ok (fst (FunctionSpaceVector___pow__ E self p V)) = false
   /\ snd (FunctionSpaceVector___pow__ E self p V) = V)
  /\ forall sp x out,
       is_ok (fst (FunctionSpace__scalar_power sp x p out V)) = false
       /\ snd (FunctionSpace__scalar_power sp x p out V) = V.
Proof.
  split.
  - unfold FunctionSpaceVector___pow__, bind, get_vector.
    destruct (V !! self) as [s|]; [|now split].
    rewrite space_element_raises. now split.
  - intros. apply scalar_power_raises.
Qed.

(** C10.  The operators read the closures of their operands before they
    store on [out], so that [out] may be one of the operands.  For the three
    binary operators this is what the code does: with [out] aliased to [x1],
    the closure stored on it is built from the closures [x1] and [x2] held
    on entry.  [__ipow__], the aliased call of [_scalar_power], stores
    nothing: it raises [AttributeError] and leaves the vector as it was. *)
Theorem aliased_out (op : binop) (sp : fspace) (x1 x2 : nat) (v1 v2 : vector)
    (p : Z) (V : list vector) :
  V !! x1 = Some v1 -> V !! x2 = Some v2 ->
  let r := installed E op sp v1 v2 v1 in
  binary_operator E op sp x1 x2 x1 V = (Ok x1, <[x1 := r]> V)
  /\ (vectorized E v1 = true -> vectorized E v2 = true ->
      _call_out_of_place r
      = Cbin_call op (_call_out_of_place v1) (_call_in_place v1)
                     (_call_out_of_place v2) (_call_in_place v2))
  /\ (vectorized E v1 = false -> vectorized E v2 = false ->
      _call_out_of_place r
      = Cbin_call_out_of_place op (_call_out_of_place v1) (_call_out_of_place v2))
  /\ FunctionSpaceVector___ipow__ x1 p V = (Raise (Exn AttributeError Runtime), V).
Proof.
  intros H1 H2 r. split; [|split; [|split]].
  - now apply binary_operator_result.
  - intros Hv1 Hv2. subst r. unfold installed, captured_oop, captured_ip.
    now rewrite Hv1, Hv2.
  - intros Hv1 Hv2. subst r. unfold installed. now rewrite Hv1, Hv2.
  - unfold FunctionSpaceVector___ipow__, bind, get_vector. rewrite H1.
    now rewrite (scalar_power_attribute_error _ _ _ _ v1).
Qed.

End Operators.

(** ** Evaluation through [__call__] *)

Lemma fails_raise {Σ A} c s : fails (@raise Σ A c s).
Proof. intros m. reflexivity. Qed.

Lemma fails_out_of_fuel {Σ A} : fails (@out_of_fuel Σ A).
Proof. intros m. reflexivity. Qed.

Lemma fails_unmodelled {Σ A} : fails (@unmodelled Σ A).
Proof. intros m. reflexivity. Qed.

Lemma fails_bind_l {Σ A B} (c : St Σ A) (k : A -> St Σ B) :
  fails c -> fails (bind c k).
Proof.
  intros Hc m. unfold bind. specialize (Hc m).
  destruct (c m) as [[a| | |] m']; cbn in *; congruence.
Qed.

Lemma fails_bind_r {Σ A B} (c : St Σ A) (k : A -> St Σ B) :
  (forall a, fails (k a)) -> fails (bind c k).
Proof.
  intros Hk m. unfold bind.
  destruct (c m) as [[a| | |] m']; cbn; auto. apply Hk.
Qed.

Section Protocol.
Context (E : Env) (V : list vector).

(** The last statement of [__call__] reads [scalar_out]; while that variable
    is unbound, no path through the method returns. *)
Lemma call_tail_unbound rec (v : vector) (x : value) (out : option value) chk :
  fails
    (is_arr <- is_valid_input_array x (ndim (domain (_space v))) ;;
     xo <- (if is_arr then
              if ndim (domain (_space v)) =? 1 then
                s <- get_shape x ;;
                x <- (if length s =? 2 then getitem0 x else ret x) ;;
                out_shape <- get_shape x ;;
                ret (x, out_shape)
              else
                s <- get_shape x ;;
                ret (x, [nth 1 s 0])
            else
              is_mg <- is_valid_input_meshgrid x (ndim (domain (_space v))) ;;
              if is_mg then
                if ndim (domain (_space v)) =? 1 then
                  x <- getitem0 x ;;
                  out_shape <- get_shape x ;;
                  ret (x, out_shape)
                else
                  out_shape <- np_broadcast_shape x ;;
                  ret (x, out_shape)
              else raise TypeError InvalidInput) ;;
     when chk
          (ok <- all_in_set (domain (_space v)) (fst xo) ;;
           when (negb ok) (raise ValueError OutOfDomain)) ;;;
     out <- match out with
            | None => FunctionSetVector__call rec v (fst xo) None
            | Some o => ret o
            end ;;
     mismatch <- (if negb (shape_eqb (snd xo) [1]) then
                    s <- get_shape out ;; ret (negb (shape_eqb s (snd xo)))
                  else ret false) ;;
     (if mismatch then raise ValueError ShapeMismatch
      else
        if vectorized E v then
          when (negb (is_ndarray out)) (raise TypeError TypeConflict) ;;;
          s <- get_shape out ;;
          when (negb (shape_eqb s (snd xo))) (raise ValueError ShapeMismatch) ;;;
          FunctionSetVector__call rec v (fst xo) (Some out) ;;;
          when chk
               (ok <- all_in_set (range (_space v)) out ;;
                when (negb ok) (raise ValueError OutOfRange))
        else raise ValueError InvalidUsage) ;;;
     match @None bool with
     | None => raise UnboundLocalError Runtime
     | Some true => getitem0 out
     | Some false => ret out
     end)%py.
Proof.
  do 6 (apply fails_bind_r; intros). apply fails_raise.
Qed.

(** C8.  An input [x] that already is an element of the domain is to be
    turned into a [(d, 1)] array and the call marked as scalar, so that the
    bare value is returned.  In the code the conversion and the assignment
    of [scalar_out] stand under [if x not in self.domain]: for [x] in the
    domain neither happens, [scalar_out] stays unbound, and the call returns
    nothing, whatever the vector, the fuel and the memory. *)
Theorem domain_element_never_returns (n self : nat) (v : vector) (x : value)
    (chk : bool) (m : mem) :
  V !! self = Some v ->
  contains (domain (_space v)) x (heap m) = true ->
  is_ok (fst (evaluate E V n self x None chk m)) = false.
Proof.
  intros Hv Hx. unfold evaluate, FunctionSetVector___call__.
  unfold bind at 1. unfold lookup_vector. rewrite Hv. cbn [ret].
  unfold bind at 1.
  destruct (when _ _ m) as [[[]| | |] m1] eqn:Hw; try reflexivity.
  assert (heap m1 = heap m) as Hm1.
  { unfold when, raise, ret in Hw. destruct (_ && _); congruence. }
  unfold bind at 1. unfold in_set. rewrite Hm1, Hx. cbn [negb].
  unfold bind at 1. cbn [ret fst snd].
  exact (call_tail_unbound (call E V n) v x None chk m1).
Qed.

(** The default in-place closure of a vector evaluates the vector itself. *)
Lemma call_returns_only_through_in_place rec self (v : vector) x chk :
  V !! self = Some v ->
  (forall x o, fails (rec (_call_in_place v) x (Some o))) ->
  fails (FunctionSetVector___call__ E V rec self x None chk).
Proof.
  intros Hv Hrec. unfold FunctionSetVector___call__.
  intros m. unfold bind at 1. unfold lookup_vector. rewrite Hv. cbn [ret].
  revert m. do 7 (apply fails_bind_r; intros ?).
  apply fails_bind_r; intros mismatch.
  apply fails_bind_l.
  destruct mismatch; [apply fails_raise|].
  destruct (vectorized E v); [|apply fails_raise].
  do 3 (apply fails_bind_r; intros).
  apply fails_bind_l. unfold FunctionSetVector__call.
  apply fails_bind_l. apply Hrec.
Qed.

Lemma default_in_place_fails self (v : vector) :
  V !! self = Some v ->
  _call_in_place v = Cip_wrapper self ->
  forall n x o, fails (call E V n (Cip_wrapper self) x o).
Proof.
  intros Hv Hip. induction n as [|n IH]; intros x o.
  - apply fails_out_of_fuel.
  - cbn [call call_body]. destruct o as [o|]; [|apply fails_raise].
    unfold _default_in_place. apply fails_bind_l.
    apply (call_returns_only_through_in_place _ _ v); [exact Hv|].
    intros x' o'. rewrite Hip. apply IH.
Qed.

(** C3.  A vectorized vector called with a [(d, N)] array or a meshgrid is
    to return an array of the inferred shape.  In the code, as laid out, the
    call without a buffer passes on to the branch written for a supplied
    buffer and evaluates in place; for a vector wrapped from an out-of-place
    callable the in-place closure is the default one, which calls the vector
    again.  Such a vector returns for no input and no amount of fuel. *)
Theorem out_of_place_only_never_returns (n self : nat) (v : vector) (x : value)
    (chk : bool) (m : mem) :
  V !! self = Some v ->
  _call_in_place v = Cip_wrapper self ->
  is_ok (fst (evaluate E V n self x None chk m)) = false.
Proof.
  intros Hv Hip. unfold evaluate.
  apply (call_returns_only_through_in_place _ _ v); [exact Hv|].
  intros x' o'. rewrite Hip. now apply (default_in_place_fails _ v).
Qed.

End Protocol.

(** ** Closures that evaluate a function *)

Lemma bind_ok {Σ A B} (c : St Σ A) (k : A -> St Σ B) m a m' :
  c m = (Ok a, m') -> bind c k m = k a m'.
Proof. intros H. unfold bind. now rewrite H. Qed.

Lemma load_ok l (A : ndarray) h t :
  h !! l = Some A ->
  load l {| heap := h; trace := t |} = (Ok A, {| heap := h; trace := t |}).
Proof. intros H. unfold load. cbn. now rewrite H. Qed.

Lemma size_1 n : size [n] = n.
Proof. unfold size. cbn. lia. Qed.

Section Semantics.
Context (E : Env) (V : list vector).

Lemma vec_oop_spec_at n c f A pts :
  vec_oop_spec E V n c f -> input_points A = Some pts -> vec_oop_at E V n c f A pts.
Proof. intros H Hp k h t lx Hk Hx. now apply (H k h t lx A pts). Qed.

Lemma input_points_rows h t lx A pts :
  h !! lx = Some A -> input_points A = Some pts ->
  rows_of_T (VArr lx) {| heap := h; trace := t |}
  = (Ok pts, {| heap := h; trace := t |}).
Proof.
  intros Hx Hp. unfold rows_of_T, bind, load. cbn [heap]. rewrite Hx.
  unfold input_points in Hp. destruct (shape A) as [|a [|b [|c s]]]; try discriminate.
  - destruct (decide _); [|discriminate]. now inversion Hp.
  - now inversion Hp.
Qed.

Lemma input_points_valid h t lx A pts :
  h !! lx = Some A -> input_points A = Some pts ->
  exists d,
    (match shape A with [_] => d = 1 | [r; _] => d = r | _ => False end)
    /\ is_valid_input_array (VArr lx) d {| heap := h; trace := t |}
       = (Ok true, {| heap := h; trace := t |})
    /\ out_shape_from_array (VArr lx) {| heap := h; trace := t |}
       = (Ok [length pts], {| heap := h; trace := t |}).
Proof.
  intros Hx Hp. unfold input_points in Hp.
  unfold is_valid_input_array, out_shape_from_array, get_shape.
  destruct (shape A) as [|a [|b [|c s]]] eqn:Hs; try discriminate.
  - destruct (decide _) as [Hl|]; [|discriminate]. inversion Hp; subst pts.
    exists 1. split; [reflexivity|].
    unfold bind, load, ret. cbn [heap]. rewrite Hx, Hs.
    rewrite length_fmap, Hl. now split.
  - inversion Hp; subst pts. exists a. split; [reflexivity|].
    unfold bind, load, ret. cbn [heap]. rewrite Hx, Hs.
    rewrite Nat.eqb_refl, length_fmap, length_seq. now split.
Qed.

End Semantics.
Section Loops.
Context (E : Env) (V : list vector).

Lemma setitem_scalar h t lo N D i r :
  h !! lo = Some {| shape := [N]; data := D |} -> i < N ->
  setitem (VArr lo) i (VNum r) {| heap := h; trace := t |}
  = (Ok (VArr lo),
     {| heap := <[lo := {| shape := [N]; data := take i D ++ [r] ++ drop (Datatypes.S i) D |}]> h;
        trace := t |}).
Proof.
  intros Hlo Hi. unfold setitem.
  rewrite (bind_ok _ _ _ _ _ (load_ok _ _ _ _ Hlo)). cbn [shape data].
  destruct (decide (i < N)); [|lia].
  unfold bind, store, ret. cbn.
  rewrite Nat.mul_1_r, Nat.add_1_r. reflexivity.
Qed.

Lemma point_value_spec p h t :
  exists pv e,
    point_value p {| heap := h; trace := t |} = (Ok pv, {| heap := h ++ e; trace := t |})
    /\ point_at (h ++ e) pv p.
Proof.
  destruct p as [r|cs]; cbn.
  - exists (VNum r), []. rewrite app_nil_r. now split.
  - exists (VArr (length h)), [{| shape := [length cs]; data := cs |}]. split; [reflexivity|].
    exists (length h). split; [reflexivity|]. now apply list_lookup_middle.
Qed.

Lemma fill_loop_spec n g f k :
  pt_spec E V n g f -> n <= k ->
  forall pts i h t lo D N,
    h !! lo = Some {| shape := [N]; data := D |} -> length D = N ->
    i + length pts <= N ->
    exists extra t',
      fill_loop (call E V k) g pts i (VArr lo) {| heap := h; trace := t |}
      = (Ok (VArr lo),
         {| heap := <[lo := {| shape := [N];
                               data := take i D ++ ((fun p => f (coords p)) <$> pts)
                                         ++ drop (i + length pts) D |}]> h ++ extra;
            trace := t' |}).
Proof.
  intros Hg Hk. induction pts as [|p rest IH]; intros i h t lo D N Hlo HD Hi.
  - exists [], t. cbn [fill_loop fmap list_fmap length]. rewrite Nat.add_0_r.
    cbn [app]. rewrite take_drop, app_nil_r, list_insert_id; [reflexivity|exact Hlo].
  - cbn [length] in Hi. cbn [fill_loop].
    destruct (point_value_spec p h t) as (pv & e & Hpv & Hat).
    rewrite (bind_ok _ _ _ _ _ Hpv).
    destruct (Hg k (h ++ e) t pv p Hk Hat) as (t1 & Hcall).
    rewrite (bind_ok _ _ _ _ _ Hcall).
    assert (lo < length h) as Hlt by (eapply lookup_lt_Some; eauto).
    assert ((h ++ e) !! lo = Some {| shape := [N]; data := D |}) as Hlo'
      by (rewrite lookup_app_l; auto).
    rewrite (bind_ok _ _ _ _ _ (setitem_scalar _ t1 _ _ _ i (f (coords p)) Hlo' ltac:(lia))).
    set (D' := take i D ++ [f (coords p)] ++ drop (Datatypes.S i) D).
    assert (length D' = N) as HD'.
    { unfold D'. rewrite !length_app, length_take, length_drop. cbn [length]. lia. }
    edestruct (IH (Datatypes.S i) (<[lo := {| shape := [N]; data := D' |}]> (h ++ e)) t1 lo D' N)
      as (extra & t' & Hrest).
    { apply list_lookup_insert_eq. rewrite length_app. lia. }
    { exact HD'. }
    { lia. }
    rewrite Hrest. exists (e ++ extra), t'. f_equal. f_equal.
    rewrite list_insert_insert_eq, insert_app_l by lia.
    rewrite <- app_assoc. f_equal. f_equal. f_equal.
    unfold D'. cbn [fmap list_fmap].
    rewrite take_app_ge by (rewrite length_take; lia).
    rewrite length_take, Nat.min_l by lia.
    replace (Datatypes.S i - i) with 1 by lia.
    rewrite drop_app_ge by (rewrite length_take; lia).
    rewrite length_take, Nat.min_l by lia.
    replace (Datatypes.S i + length rest - i) with (Datatypes.S (length rest)) by lia.
    cbn [app take drop]. rewrite drop_drop.
    replace (Datatypes.S i + length rest) with (i + Datatypes.S (length rest)) by lia.
    rewrite <- !app_assoc. reflexivity.
Qed.

Lemma setitem_list vs i (v : value) (m : mem) :
  i < length vs ->
  setitem (VSeq vs) i v m = (Ok (VSeq (<[i := v]> vs)), m).
Proof.
  intros Hi. unfold setitem. destruct (decide (i < length vs)); [reflexivity|lia].
Qed.

Lemma fill_loop_list_spec n g f k :
  pt_spec E V n g f -> n <= k ->
  forall pts i h t vs,
    i + length pts <= length vs ->
    exists extra t',
      fill_loop (call E V k) g pts i (VSeq vs) {| heap := h; trace := t |}
      = (Ok (VSeq (take i vs ++ ((fun p => VNum (f (coords p))) <$> pts)
                     ++ drop (i + length pts) vs)),
         {| heap := h ++ extra; trace := t' |}).
Proof.
  intros Hg Hk. induction pts as [|p rest IH]; intros i h t vs Hi.
  - exists [], t. cbn [fill_loop fmap list_fmap length]. rewrite Nat.add_0_r.
    cbn [app]. now rewrite take_drop, app_nil_r.
  - cbn [length] in Hi. cbn [fill_loop].
    destruct (point_value_spec p h t) as (pv & e & Hpv & Hat).
    rewrite (bind_ok _ _ _ _ _ Hpv).
    destruct (Hg k (h ++ e) t pv p Hk Hat) as (t1 & Hcall).
    rewrite (bind_ok _ _ _ _ _ Hcall).
    rewrite (bind_ok _ _ _ _ _ (setitem_list vs i _ _ ltac:(lia))).
    destruct (IH (Datatypes.S i) (h ++ e) t1 (<[i := VNum (f (coords p))]> vs))
      as (extra & t' & Hrest).
    { rewrite length_insert. lia. }
    rewrite Hrest. exists (e ++ extra), t'. rewrite <- app_assoc. f_equal. f_equal. f_equal.
    cbn [fmap list_fmap].
    rewrite (insert_take_drop vs) by lia.
    rewrite take_app_ge by (rewrite length_take; lia).
    rewrite length_take, Nat.min_l by lia.
    replace (Datatypes.S i - i) with 1 by lia.
    rewrite drop_app_ge by (rewrite length_take; lia).
    rewrite length_take, Nat.min_l by lia.
    replace (Datatypes.S i + length rest - i) with (Datatypes.S (length rest)) by lia.
    cbn [app take drop]. rewrite drop_drop.
    replace (Datatypes.S i + length rest) with (i + Datatypes.S (length rest)) by lia.
    rewrite <- !app_assoc. reflexivity.
Qed.

(** The wrapper of [vectorize] run on an input array, with a numeric
    [dtype]: the result is a new array, allocated first, then filled. *)
Lemma vect_wrapper_run n g f k oa dt h t lx A pts :
  pt_spec E V n g f -> n <= k -> oa <> OutPositional -> numeric dt ->
  h !! lx = Some A -> input_points A = Some pts ->
  exists extra t',
    call E V (Datatypes.S k) (Cvect_wrapper oa dt g) (VArr lx) None {| heap := h; trace := t |}
    = (Ok (VArr (length h)),
       {| heap := h ++ {| shape := [length pts];
                          data := (fun p => f (coords p)) <$> pts |} :: extra;
          trace := t' |}).
Proof.
  intros Hg Hk Hoa Hdt Hx Hp.
  destruct (input_points_valid h t lx A pts Hx Hp) as (d & Hd & Hvalid & Hshape).
  assert (call E V (Datatypes.S k) (Cvect_wrapper oa dt g) (VArr lx) None
          = _vect_wrapper (call E V k) dt g (VArr lx) None) as ->.
  { cbn [call call_body]. unfold vect_wrapper. destruct oa; congruence. }
  unfold _vect_wrapper.
  rewrite (bind_ok _ _ _ d {| heap := h; trace := t |}).
  2:{ rewrite (bind_ok _ _ _ _ _ (load_ok _ _ _ _ Hx)).
      destruct (shape A) as [|a [|b [|c s]]]; try contradiction; now subst d. }
  rewrite (bind_ok _ _ _ _ _ Hvalid).
  unfold _vect_wrapper_array.
  rewrite (bind_ok _ _ _ (VArr (length h))
             {| heap := h ++ [{| shape := [length pts];
                                 data := replicate (length pts) rjunk |}];
                trace := t |}).
  2:{ rewrite (bind_ok _ _ _ _ _ Hshape). unfold new_out, np_empty.
      rewrite size_1. destruct Hdt; subst dt; reflexivity. }
  rewrite (bind_ok _ _ _ pts
             {| heap := h ++ [{| shape := [length pts];
                                 data := replicate (length pts) rjunk |}];
                trace := t |}).
  2:{ apply (input_points_rows _ _ _ A); [|exact Hp].
      rewrite lookup_app_l; [exact Hx|]. eapply lookup_lt_Some; eauto. }
  edestruct (fill_loop_spec n g f k Hg Hk pts 0
               (h ++ [{| shape := [length pts]; data := replicate (length pts) rjunk |}])
               t (length h) (replicate (length pts) rjunk) (length pts))
    as (extra & t' & Hfill).
  { now apply list_lookup_middle. }
  { apply length_replicate. }
  { lia. }
  rewrite Hfill. exists extra, t'. f_equal. f_equal.
  rewrite insert_app_r_alt by lia. rewrite Nat.sub_diag. cbn [insert list_insert app].
  rewrite drop_ge by (rewrite length_replicate; lia).
  rewrite app_nil_r, <- app_assoc. reflexivity.
Qed.

(** The same with no [dtype]: the results are collected in a list. *)
Lemma vect_wrapper_run_list n g f k oa h t lx A pts :
  pt_spec E V n g f -> n <= k -> oa <> OutPositional ->
  h !! lx = Some A -> input_points A = Some pts ->
  exists extra t',
    call E V (Datatypes.S k) (Cvect_wrapper oa DNone g) (VArr lx) None {| heap := h; trace := t |}
    = (Ok (VSeq ((fun p => VNum (f (coords p))) <$> pts)),
       {| heap := h ++ extra; trace := t' |}).
Proof.
  intros Hg Hk Hoa Hx Hp.
  destruct (input_points_valid h t lx A pts Hx Hp) as (d & Hd & Hvalid & Hshape).
  assert (call E V (Datatypes.S k) (Cvect_wrapper oa DNone g) (VArr lx) None
          = _vect_wrapper (call E V k) DNone g (VArr lx) None) as ->.
  { cbn [call call_body]. unfold vect_wrapper. destruct oa; congruence. }
  unfold _vect_wrapper.
  rewrite (bind_ok _ _ _ d {| heap := h; trace := t |}).
  2:{ rewrite (bind_ok _ _ _ _ _ (load_ok _ _ _ _ Hx)).
      destruct (shape A) as [|a [|b [|c s]]]; try contradiction; now subst d. }
  rewrite (bind_ok _ _ _ _ _ Hvalid).
  unfold _vect_wrapper_array.
  rewrite (bind_ok _ _ _ (VSeq (replicate (length pts) (VNum rO)))
             {| heap := h; trace := t |}).
  2:{ now rewrite (bind_ok _ _ _ _ _ Hshape). }
  rewrite (bind_ok _ _ _ _ _ (input_points_rows _ _ _ A _ Hx Hp)).
  destruct (fill_loop_list_spec n g f k Hg Hk pts 0 h t (replicate (length pts) (VNum rO)))
    as (extra & t' & Hfill).
  { rewrite length_replicate. lia. }
  rewrite Hfill. exists extra, t'. f_equal. f_equal.
  cbn [take app]. rewrite drop_ge by (rewrite length_replicate; lia).
  now rewrite app_nil_r.
Qed.

(** A per-point function wrapped by [vectorize] evaluates out of place on
    arrays. *)
Lemma vect_wrapper_vec_oop n g f oa dt :
  pt_spec E V n g f -> oa <> OutPositional -> numeric dt ->
  vec_oop_spec E V (Datatypes.S n) (Cvect_wrapper oa dt g) f.
Proof.
  intros Hg Hoa Hdt k h t lx A pts Hk Hx Hp.
  destruct k as [|k]; [lia|].
  destruct (vect_wrapper_run n g f k oa dt h t lx A pts Hg ltac:(lia) Hoa Hdt Hx Hp)
    as (extra & t' & Hrun).
  eexists (length h), _, t'. split; [exact Hrun|]. split; [lia|].
  now apply list_lookup_middle.
Qed.

End Loops.

(** ** The vectorization decorator *)

Section Vectorize.
Context (E : Env) (V : list vector).

Lemma input_points_columns A d n :
  shape A = [d; n] ->
  input_points A = Some ((fun i => PVec (column A d n i)) <$> seq 0 n).
Proof. intros Hs. unfold input_points. now rewrite Hs. Qed.

(** C9.  A per-point scalar function [g] wrapped by [vectorize] and called
    on a coordinate array of shape [(d, N)] without an output buffer.  With a
    numeric [dtype] the result is a new array -- allocated once, of shape
    [(N,)], at the first free location -- whose entry [i] is [g] at column
    [i] of the input; with no [dtype] the values are collected in a list. *)
Theorem vectorize_array_call (n : nat) (g : closure) (f : list R -> R) (oa : outarg)
    (dt : dtype) (k : nat) (h : list ndarray) (t : list nat) (lx : nat)
    (A : ndarray) (d N : nat) :
  pt_spec E V n g f -> n <= k -> oa <> OutPositional -> dt <> DBad ->
  h !! lx = Some A -> shape A = [d; N] ->
  exists extra t',
    call E V (Datatypes.S k) (Cvect_wrapper oa dt g) (VArr lx) None
         {| heap := h; trace := t |}
    = match dt with
      | DNone =>
          (Ok (VSeq ((fun i => VNum (f (column A d N i))) <$> seq 0 N)),
           {| heap := h ++ extra; trace := t' |})
      | _ =>
          (Ok (VArr (length h)),
           {| heap := h ++ {| shape := [N];
                              data := (fun i => f (column A d N i)) <$> seq 0 N |} :: extra;
              trace := t' |})
      end.
Proof.
  intros Hg Hk Hoa Hdt Hx Hs.
  pose proof (input_points_columns A d N Hs) as Hp.
  destruct dt; try congruence.
  - destruct (vect_wrapper_run_list E V n g f k oa h t lx A _ Hg Hk Hoa Hx Hp)
      as (extra & t' & Hrun).
    exists extra, t'. rewrite Hrun. now rewrite <- list_fmap_compose.
  - destruct (vect_wrapper_run E V n g f k oa DFloat h t lx A _ Hg Hk Hoa
                ltac:(now left) Hx Hp) as (extra & t' & Hrun).
    exists extra, t'. rewrite Hrun.
    now rewrite <- list_fmap_compose, length_fmap, length_seq.
  - destruct (vect_wrapper_run E V n g f k oa DComplex h t lx A _ Hg Hk Hoa
                ltac:(now right) Hx Hp) as (extra & t' & Hrun).
    exists extra, t'. rewrite Hrun.
    now rewrite <- list_fmap_compose, length_fmap, length_seq.
Qed.

End Vectorize.

(** ** Linear combination *)

Section ArrayOps.

Lemma updates_insert_same lo Y Z h H :
  updates lo Y h H -> lo < length h -> updates lo Z h (<[lo := Z]> H).
Proof.
  intros [e ->] Hlt. exists e.
  rewrite insert_app_l by (rewrite length_insert; lia).
  now rewrite list_insert_insert_eq.
Qed.

Lemma updates_insert_ge lo Y h H i x :
  updates lo Y h H -> length h <= i -> updates lo Y h (<[i := x]> H).
Proof.
  intros [e ->] Hi. exists (<[i - length h := x]> e).
  rewrite insert_app_r_alt by (rewrite length_insert; lia).
  now rewrite length_insert.
Qed.

Lemma updates_app lo Y h H e :
  updates lo Y h H -> updates lo Y h (H ++ e).
Proof. intros [e' ->]. exists (e' ++ e). now rewrite app_assoc. Qed.

Lemma updates_lookup lo Y h H :
  updates lo Y h H -> lo < length h -> H !! lo = Some Y.
Proof.
  intros [e ->] Hlt. rewrite lookup_app_l by (rewrite length_insert; lia).
  now apply list_lookup_insert_eq.
Qed.

Lemma updates_lookup_ne lo Y h H l :
  updates lo Y h H -> l < length h -> l <> lo -> H !! l = h !! l.
Proof.
  intros [e ->] Hlt Hne. rewrite lookup_app_l by (rewrite length_insert; lia).
  now apply list_lookup_insert_ne.
Qed.

Lemma updates_length lo Y h H : updates lo Y h H -> length h <= length H.
Proof. intros [e ->]. rewrite length_app, length_insert. lia. Qed.

Lemma prefix_insert_ge (h H : list ndarray) i x :
  h `prefix_of` H -> length h <= i -> h `prefix_of` <[i := x]> H.
Proof.
  intros [e ->] Hi. exists (<[i - length h := x]> e).
  now rewrite insert_app_r_alt.
Qed.

Lemma iop_scalar_array f l (X : ndarray) a h t :
  h !! l = Some X ->
  iop_scalar f (VArr l) a {| heap := h; trace := t |}
  = (Ok (VArr l),
     {| heap := <[l := {| shape := shape X; data := (fun v => f v a) <$> data X |}]> h;
        trace := t |}).
Proof.
  intros Hl. unfold iop_scalar. now rewrite (bind_ok _ _ _ _ _ (load_ok _ _ _ _ Hl)).
Qed.

Lemma iop_array f lo lt (X Y : ndarray) h t :
  h !! lo = Some X -> h !! lt = Some Y -> shape X = shape Y ->
  iop f (VArr lo) (VArr lt) {| heap := h; trace := t |}
  = (Ok (VArr lo),
     {| heap := <[lo := {| shape := shape X; data := zip_with f (data X) (data Y) |}]> h;
        trace := t |}).
Proof.
  intros Hlo Hlt Hs. unfold iop.
  rewrite (bind_ok _ _ _ _ _ (load_ok _ _ _ _ Hlo)).
  rewrite (bind_ok _ _ _ _ _ (load_ok _ _ _ _ Hlt)).
  unfold bcast_zip, shape_eqb. rewrite bool_decide_eq_true_2 by exact Hs.
  unfold lift, bind. cbn [shape]. rewrite bool_decide_eq_true_2 by reflexivity.
  reflexivity.
Qed.

End ArrayOps.

Lemma bind_assoc {Σ A B C} (c : St Σ A) (f : A -> St Σ B) (g : B -> St Σ C) m :
  bind (bind c f) g m = bind c (fun x => bind (f x) g) m.
Proof. unfold bind. destruct (c m) as [[a| | |] m']; reflexivity. Qed.

Section Lincomb.
Context (L : ScalarLaws S) (E : Env) (V : list vector).

Add Ring scalar_ring : (sl_ring S L).

Lemma reqb_true a b : reqb a b = true -> a = b.
Proof. apply (sl_eqb S L). Qed.

Lemma scale_array l (X : ndarray) a h t :
  h !! l = Some X ->
  scale (VArr l) a {| heap := h; trace := t |}
  = (Ok (VArr l),
     {| heap := <[l := {| shape := shape X; data := rmul a <$> data X |}]> h;
        trace := t |}).
Proof.
  intros Hl. unfold scale. destruct (reqb a rI) eqn:Ha; cbn [negb].
  - apply reqb_true in Ha. subst a. unfold ret. f_equal. f_equal.
    symmetry. apply list_insert_id. rewrite Hl. f_equal.
    destruct X as [sh d]. cbn. f_equal.
    transitivity (id <$> d); [now rewrite list_fmap_id|].
    apply list_fmap_ext. intros _ v _. cbn. ring.
  - rewrite (iop_scalar_array _ _ _ _ _ _ Hl). do 4 f_equal.
    apply list_fmap_ext. intros _ v _. ring.
Qed.

Lemma scale_num r a (m : mem) : scale (VNum r) a m = (Ok (VNum (rmul a r)), m).
Proof.
  unfold scale. destruct (reqb a rI) eqn:Ha; cbn [negb].
  - apply reqb_true in Ha. subst a. unfold ret. do 3 f_equal. ring.
  - cbn. unfold ret. do 3 f_equal. ring.
Qed.

(** One operand evaluated out of place and scaled. *)
Lemma oop_scaled n c f a k h t lx A pts :
  vec_oop_at E V n c f A pts -> n <= k ->
  h !! lx = Some A ->
  exists lo H t',
    (out <- call E V k c (VArr lx) None ;; scale out a)%py {| heap := h; trace := t |}
    = (Ok (VArr lo), {| heap := H; trace := t' |})
    /\ h `prefix_of` H /\ length h <= lo
    /\ H !! lo = Some {| shape := [length pts];
                         data := (fun p => rmul a (f (coords p))) <$> pts |}.
Proof.
  intros Hc Hk Hx.
  destruct (Hc k h t lx Hk Hx) as (lo & extra & t' & Hrun & Hlo & Hres).
  rewrite (bind_ok _ _ _ _ _ Hrun), (scale_array _ _ _ _ _ Hres). cbn [shape data].
  eexists lo, _, t'. split; [reflexivity|]. split; [|split].
  - apply prefix_insert_ge; [|exact Hlo]. now exists extra.
  - exact Hlo.
  - rewrite list_lookup_insert_eq by (eapply lookup_lt_Some; eauto).
    now rewrite <- list_fmap_compose.
Qed.

Lemma lincomb_oop_run n c1 c2 f1 f2 a b k h t lx A pts :
  vec_oop_at E V n c1 f1 A pts -> vec_oop_at E V n c2 f2 A pts -> n <= k ->
  h !! lx = Some A ->
  exists lo extra t',
    lincomb_call_out_of_place (call E V k) a b c1 c2 (VArr lx) {| heap := h; trace := t |}
    = (Ok (VArr lo), {| heap := h ++ extra; trace := t' |})
    /\ length h <= lo
    /\ (h ++ extra) !! lo
       = Some {| shape := [length pts];
                 data := (fun p => radd (rmul a (f1 (coords p))) (rmul b (f2 (coords p))))
                           <$> pts |}.
Proof.
  intros H1 H2 Hk Hx. unfold lincomb_call_out_of_place.
  destruct (reqb b rO) eqn:Hb.
  - (* b == 0: only x1 is evaluated *)
    apply reqb_true in Hb. subst b. rewrite andb_false_r.
    destruct (oop_scaled n c1 f1 a k h t lx A pts H1 Hk Hx)
      as (lo & H & t' & Hrun & [e ->] & Hlo & Hres).
    exists lo, e, t'. split; [exact Hrun|]. split; [exact Hlo|].
    rewrite Hres. do 2 f_equal. apply list_fmap_ext. intros _ p _. cbn. ring.
  - destruct (reqb a rO) eqn:Ha; cbn [andb negb].
    + (* a == 0 and b != 0: only x2 is evaluated *)
      apply reqb_true in Ha. subst a.
      destruct (oop_scaled n c2 f2 b k h t lx A pts H2 Hk Hx)
        as (lo & H & t' & Hrun & [e ->] & Hlo & Hres).
      exists lo, e, t'. split; [exact Hrun|]. split; [exact Hlo|].
      rewrite Hres. do 2 f_equal. apply list_fmap_ext. intros _ p _. cbn. ring.
    + (* both are evaluated *)
      destruct (oop_scaled n c1 f1 a k h t lx A pts H1 Hk Hx)
        as (lo1 & Ha1 & t1 & Hrun1 & [e1 ->] & Hlo1 & Hres1).
      rewrite <- (bind_assoc (call E V k c1 (VArr lx) None) (fun out => scale out a)).
      rewrite (bind_ok _ _ _ _ _ Hrun1).
      assert ((h ++ e1) !! lx = Some A) as Hx1
        by (rewrite lookup_app_l; [exact Hx|eapply lookup_lt_Some; eauto]).
      destruct (oop_scaled n c2 f2 b k (h ++ e1) t1 lx A pts H2 Hk Hx1)
        as (lo2 & Hb2 & t2 & Hrun2 & [e2 ->] & Hlo2 & Hres2).
      rewrite <- (bind_assoc (call E V k c2 (VArr lx) None) (fun tmp => scale tmp b)).
      rewrite (bind_ok _ _ _ _ _ Hrun2).
      assert (lo1 < length (h ++ e1)) as Hlt1 by (eapply lookup_lt_Some; eauto).
      assert (((h ++ e1) ++ e2) !! lo1
              = Some {| shape := [length pts];
                        data := (fun p => rmul a (f1 (coords p))) <$> pts |}) as Hres1'
        by (rewrite lookup_app_l; auto).
      rewrite (iop_array _ _ _ _ _ _ _ Hres1' Hres2 eq_refl). cbn [shape data].
      exists lo1, (<[lo1 - length h := {| shape := [length pts];
                       data := zip_with radd ((fun p => rmul a (f1 (coords p))) <$> pts)
                                 ((fun p => rmul b (f2 (coords p))) <$> pts) |}]> (e1 ++ e2)), t2.
      split; [|split].
      * rewrite <- app_assoc. now rewrite insert_app_r_alt.
      * exact Hlo1.
      * rewrite <- insert_app_r_alt by exact Hlo1.
        rewrite list_lookup_insert_eq by (rewrite !length_app in *; lia).
        do 2 f_equal. rewrite zip_with_fmap_l, zip_with_fmap_r, zip_with_diag.
        reflexivity.
Qed.

Lemma lincomb_pt_run n c1 c2 f1 f2 a b k h t pv p :
  pt_spec E V n c1 f1 -> pt_spec E V n c2 f2 -> n <= k -> point_at h pv p ->
  exists t',
    lincomb_call_out_of_place (call E V k) a b c1 c2 pv {| heap := h; trace := t |}
    = (Ok (VNum (radd (rmul a (f1 (coords p))) (rmul b (f2 (coords p))))),
       {| heap := h; trace := t' |}).
Proof.
  intros H1 H2 Hk Hat. unfold lincomb_call_out_of_place.
  destruct (reqb b rO) eqn:Hb.
  - apply reqb_true in Hb. subst b. rewrite andb_false_r.
    destruct (H1 k h t pv p Hk Hat) as (t1 & Hrun1).
    rewrite (bind_ok _ _ _ _ _ Hrun1), scale_num. exists t1. do 3 f_equal. ring.
  - destruct (reqb a rO) eqn:Ha; cbn [andb negb].
    + apply reqb_true in Ha. subst a.
      destruct (H2 k h t pv p Hk Hat) as (t1 & Hrun1).
      rewrite (bind_ok _ _ _ _ _ Hrun1), scale_num. exists t1. do 3 f_equal. ring.
    + destruct (H1 k h t pv p Hk Hat) as (t1 & Hrun1).
      rewrite (bind_ok _ _ _ _ _ Hrun1).
      rewrite (bind_ok _ _ _ _ _ (scale_num _ _ _)).
      destruct (H2 k h t1 pv p Hk Hat) as (t2 & Hrun2).
      rewrite (bind_ok _ _ _ _ _ Hrun2).
      rewrite (bind_ok _ _ _ _ _ (scale_num _ _ _)).
      exists t2. reflexivity.
Qed.

(** One operand evaluated into [out] and scaled there. *)
Lemma ip_scaled n c f a k h t lx A pts lo O :
  vec_ip_spec E V n c f -> n <= k ->
  h !! lx = Some A -> input_points A = Some pts ->
  h !! lo = Some O -> lo <> lx ->
  shape O = [length pts] -> length (data O) = length pts ->
  exists extra t',
    (call E V k c (VArr lx) (Some (VArr lo)) ;;; scale (VArr lo) a)%py
      {| heap := h; trace := t |}
    = (Ok (VArr lo),
       {| heap := <[lo := {| shape := [length pts];
                             data := (fun p => rmul a (f (coords p))) <$> pts |}]> h ++ extra;
          trace := t' |}).
Proof.
  intros Hc Hk Hx Hp Hlo Hne HsO HdO.
  destruct (Hc k h t lx A pts lo O Hk Hx Hp Hlo Hne HsO HdO) as (r & e & t' & Hrun).
  rewrite (bind_ok _ _ _ _ _ Hrun).
  assert (lo < length h) as Hlt by (eapply lookup_lt_Some; eauto).
  erewrite scale_array.
  2:{ rewrite lookup_app_l by (rewrite length_insert; lia).
      now apply list_lookup_insert_eq. }
  cbn [shape data]. exists e, t'. do 2 f_equal.
  rewrite insert_app_l by (rewrite length_insert; lia).
  now rewrite list_insert_insert_eq, <- list_fmap_compose.
Qed.

Lemma lincomb_ip_run n c1 c2 f1 f2 a b k h t lx A pts lo O :
  vec_ip_spec E V n c1 f1 -> vec_ip_spec E V n c2 f2 -> n <= k ->
  h !! lx = Some A -> input_points A = Some pts ->
  h !! lo = Some O -> lo <> lx ->
  shape O = [length pts] -> length (data O) = length pts ->
  exists r extra t',
    lincomb_call_in_place (call E V k) a b c1 c2 (VArr lx) (VArr lo)
      {| heap := h; trace := t |}
    = (Ok r,
       {| heap := <[lo := {| shape := [length pts];
                             data := (fun p => radd (rmul a (f1 (coords p)))
                                                    (rmul b (f2 (coords p)))) <$> pts |}]> h
                    ++ extra;
          trace := t' |}).
Proof.
  intros H1 H2 Hk Hx Hp Hlo Hne HsO HdO. unfold lincomb_call_in_place.
  cbn [is_ndarray negb].
  assert (lo < length h) as Hlt by (eapply lookup_lt_Some; eauto).
  assert (lx < length h) as Hxlt by (eapply lookup_lt_Some; eauto).
  destruct (reqb a rO) eqn:Ha, (reqb b rO) eqn:Hb; cbn [andb negb].
  - (* a == 0 and b == 0 *)
    apply reqb_true in Ha, Hb. subst a b.
    rewrite (iop_scalar_array _ _ _ _ _ _ Hlo).
    exists (VArr lo), [], t. rewrite app_nil_r, HsO. do 4 f_equal.
    apply list_eq_same_length with (length pts);
      [now rewrite length_fmap|now rewrite length_fmap|].
    intros i u v _ Hu Hv.
    apply list_lookup_fmap_Some in Hu as (u' & -> & _).
    apply list_lookup_fmap_Some in Hv as (p & -> & _). ring.
  - (* a == 0 and b != 0 *)
    apply reqb_true in Ha. subst a.
    destruct (ip_scaled n c2 f2 b k h t lx A pts lo O H2 Hk Hx Hp Hlo Hne HsO HdO)
      as (e & t' & Hrun).
    rewrite Hrun. exists (VArr lo), e, t'. do 5 f_equal.
    apply list_fmap_ext. intros _ p _. cbn. ring.
  - (* b == 0 and a != 0 *)
    apply reqb_true in Hb. subst b.
    destruct (ip_scaled n c1 f1 a k h t lx A pts lo O H1 Hk Hx Hp Hlo Hne HsO HdO)
      as (e & t' & Hrun).
    rewrite Hrun. exists (VArr lo), e, t'. do 5 f_equal.
    apply list_fmap_ext. intros _ p _. cbn. ring.
  - (* both nonzero: a temporary shaped like [out] *)
    set (T := {| shape := shape O; data := replicate (size (shape O)) rjunk |}).
    assert (np_empty_like (VArr lo) {| heap := h; trace := t |}
            = (Ok (VArr (length h)), {| heap := h ++ [T]; trace := t |})) as Htmp.
    { unfold np_empty_like. now rewrite (bind_ok _ _ _ _ _ (load_ok _ _ _ _ Hlo)). }
    rewrite (bind_ok _ _ _ _ _ Htmp).
    destruct (H1 k (h ++ [T]) t lx A pts lo O Hk) as (r1 & e1 & t1 & Hrun1);
      [now rewrite lookup_app_l|exact Hp|now rewrite lookup_app_l|exact Hne
      |exact HsO|exact HdO|].
    rewrite (bind_ok _ _ _ _ _ Hrun1).
    set (Y1 := {| shape := [length pts]; data := (fun p => f1 (coords p)) <$> pts |}) in *.
    set (H2' := <[lo := Y1]> (h ++ [T]) ++ e1) in *.
    assert (updates lo Y1 h H2') as U2.
    { exists ([T] ++ e1). unfold H2'. rewrite insert_app_l by lia.
      now rewrite <- app_assoc. }
    assert (H2' !! length h = Some T) as HT2.
    { unfold H2'. rewrite lookup_app_l by (rewrite length_insert, length_app; cbn; lia).
      rewrite list_lookup_insert_ne by lia. now apply list_lookup_middle. }
    destruct (H2 k H2' t1 lx A pts (length h) T Hk) as (r2 & e2 & t2 & Hrun2).
    { rewrite (updates_lookup_ne _ _ _ _ _ U2); auto. }
    { exact Hp. }
    { exact HT2. }
    { lia. }
    { exact HsO. }
    { cbn. rewrite length_replicate, HsO. apply size_1. }
    rewrite (bind_ok _ _ _ _ _ Hrun2).
    set (Y2 := {| shape := [length pts]; data := (fun p => f2 (coords p)) <$> pts |}) in *.
    set (H3 := <[length h := Y2]> H2' ++ e2) in *.
    assert (length h < length H2') as HltT by (eapply lookup_lt_Some; eauto).
    assert (updates lo Y1 h H3) as U3
      by (apply updates_app, updates_insert_ge; [exact U2|lia]).
    assert (H3 !! length h = Some Y2) as HT3.
    { unfold H3. rewrite lookup_app_l by (rewrite length_insert; lia).
      now apply list_lookup_insert_eq. }
    rewrite (bind_ok _ _ _ _ _ (scale_array _ _ _ _ _ (updates_lookup _ _ _ _ U3 Hlt))).
    cbn [shape data].
    set (aY1 := {| shape := [length pts]; data := rmul a <$> ((fun p => f1 (coords p)) <$> pts) |}).
    assert (updates lo aY1 h (<[lo := aY1]> H3)) as U4
      by (eapply updates_insert_same; eauto).
    assert ((<[lo := aY1]> H3) !! length h = Some Y2) as HT4
      by (rewrite list_lookup_insert_ne by lia; exact HT3).
    rewrite (bind_ok _ _ _ _ _ (scale_array _ _ _ _ _ HT4)). cbn [shape data].
    set (bY2 := {| shape := [length pts]; data := rmul b <$> ((fun p => f2 (coords p)) <$> pts) |}).
    set (H5 := <[length h := bY2]> (<[lo := aY1]> H3)).
    assert (updates lo aY1 h H5) as U5 by (apply updates_insert_ge; [exact U4|lia]).
    assert (H5 !! length h = Some bY2) as HT5.
    { unfold H5. apply list_lookup_insert_eq. rewrite length_insert.
      eapply lookup_lt_Some; eauto. }
    rewrite (iop_array _ _ _ _ _ _ _ (updates_lookup _ _ _ _ U5 Hlt) HT5 eq_refl).
    destruct (updates_insert_same lo aY1
                {| shape := shape aY1; data := zip_with radd (data aY1) (data bY2) |}
                h H5 U5 Hlt) as [e6 He6].
    exists (VArr lo), e6, t2. rewrite He6. cbn [aY1 bY2 shape data]. do 5 f_equal.
    rewrite <- !list_fmap_compose, zip_with_fmap_l, zip_with_fmap_r, zip_with_diag.
    reflexivity.
Qed.

Lemma vec_oop_spec_mono n n' c f :
  vec_oop_spec E V n c f -> n <= n' -> vec_oop_spec E V n' c f.
Proof. intros H Hn k h t lx A pts Hk. apply H. lia. Qed.

Lemma field_dtype_numeric sp : numeric (field_dtype sp).
Proof. unfold numeric, field_dtype. destruct (kind (field sp)); auto. Qed.

Lemma captured_oop_spec sp n v f :
  operand_spec E V n v f ->
  vec_oop_spec E V (Datatypes.S n) (captured_oop E (field_dtype sp) true v) f.
Proof.
  unfold operand_spec, captured_oop. intros Hv.
  destruct (vectorized E v); cbn [andb negb].
  - eapply vec_oop_spec_mono; [exact Hv|lia].
  - apply vect_wrapper_vec_oop; [exact Hv|discriminate|apply field_dtype_numeric].
Qed.

Lemma installed_vectorized op sp v1 v2 o :
  vectorized E (installed E op sp v1 v2 o) = vectorized E v1 || vectorized E v2.
Proof. unfold installed. now destruct (vectorized E v1 || vectorized E v2). Qed.

Lemma installed_lincomb_oop sp a b v1 v2 o f1 f2 n :
  operand_spec E V n v1 f1 -> operand_spec E V n v2 f2 ->
  let r := installed E (Lincomb a b) sp v1 v2 o in
  let F := fun p => radd (rmul a (f1 p)) (rmul b (f2 p)) in
  if vectorized E r
  then vec_oop_spec E V (n + 2) (_call_out_of_place r) F
  else pt_spec E V (n + 2) (_call_out_of_place r) F.
Proof.
  intros H1 H2 r F. subst r. rewrite installed_vectorized. unfold installed.
  destruct (vectorized E v1 || vectorized E v2) eqn:Hvect; cbn [_call_out_of_place].
  - intros k h t lx A pts Hk Hx Hp. destruct k as [|k]; [lia|].
    cbn [call call_body].
    apply (lincomb_oop_run (Datatypes.S n) _ _ _ _ _ _ _ _ _ _ A); auto; try lia;
      (eapply vec_oop_spec_at; [now apply captured_oop_spec|exact Hp]).
  - apply orb_false_elim in Hvect as [Hv1 Hv2].
    unfold operand_spec in H1, H2. rewrite Hv1 in H1. rewrite Hv2 in H2.
    intros k h t pv p Hk Hat. destruct k as [|k]; [lia|].
    cbn [call call_body].
    apply (lincomb_pt_run n); auto. lia.
Qed.

Lemma installed_lincomb_ip sp a b v1 v2 o f1 f2 n :
  vectorized E v1 = true -> vectorized E v2 = true ->
  vec_ip_spec E V n (_call_in_place v1) f1 ->
  vec_ip_spec E V n (_call_in_place v2) f2 ->
  vec_ip_spec E V (n + 1) (_call_in_place (installed E (Lincomb a b) sp v1 v2 o))
    (fun p => radd (rmul a (f1 p)) (rmul b (f2 p))).
Proof.
  intros Hv1 Hv2 H1 H2. unfold installed, captured_ip. rewrite Hv1, Hv2.
  cbn [orb andb negb _call_in_place].
  intros k h t lx A pts lo O Hk Hx Hp Hlo Hne HsO HdO. destruct k as [|k]; [lia|].
  cbn [call call_body].
  apply (lincomb_ip_run n _ _ _ _ _ _ _ _ _ _ A _ _ O); auto. lia.
Qed.

End Lincomb.

Section LinearCombination.
Context (L : ScalarLaws S) (E : Env).

(** The closures of [_lincomb] for operands that return new results.
    [_lincomb(a, x1, b, x2, out)] stores on [out] closures that evaluate
    [a*x1 + b*x2]:

    - out of place, whenever the operands evaluate [f1] and [f2] by closures
      that return newly allocated results -- on arrays for a vectorized
      operand, point by point for one that is not, which is then wrapped by
      [vectorize] if the other is vectorized; this covers all coefficients,
      among them [a = 0], [b = 0], [a = b = 0] and [a = b = 1];
    - in place, when both operands are vectorized and fill the buffer they
      are given; with both coefficients nonzero the second operand is
      evaluated into a temporary shaped like [out].

    The specifications of the operands are taken in the store as it is after
    the operator has run, the one the closures are evaluated in. *)
Theorem lincomb_evaluates (sp : fspace) (a b : R) (x1 x2 out : nat)
    (v1 v2 o : vector) (f1 f2 : list R -> R) (n : nat) (V : list vector) :
  V !! x1 = Some v1 -> V !! x2 = Some v2 -> V !! out = Some o ->
  let r := installed E (Lincomb a b) sp v1 v2 o in
  let V' := <[out := r]> V in
  let F := fun p => radd (rmul a (f1 p)) (rmul b (f2 p)) in
  FunctionSpace__lincomb E sp a x1 b x2 out V = (Ok out, V')
  /\ V' !! out = Some r
  /\ (operand_spec E V' n v1 f1 -> operand_spec E V' n v2 f2 ->
      operand_spec E V' (n + 2) r F)
  /\ (vectorized E v1 = true -> vectorized E v2 = true ->
      vec_ip_spec E V' n (_call_in_place v1) f1 ->
      vec_ip_spec E V' n (_call_in_place v2) f2 ->
      vec_ip_spec E V' (n + 1) (_call_in_place r) F).
Proof.
  intros H1 H2 Ho r V' F. split; [|split; [|split]].
  - unfold FunctionSpace__lincomb. now apply binary_operator_result.
  - apply list_lookup_insert_eq. eapply lookup_lt_Some; eauto.
  - intros Hs1 Hs2. now apply installed_lincomb_oop.
  - intros Hv1 Hv2 Hs1 Hs2. now apply installed_lincomb_ip.
Qed.

End LinearCombination.

(** ** Integer powers *)

Section Power.
Context (L : ScalarLaws S) (E : Env) (V : list vector).

Add Ring scalar_ring_power : (sl_ring S L).

Lemma rpow_1 x : rpow x 1%Z = x.
Proof.
  change 1%Z with (Z.succ 0). rewrite (sl_pow_succ S L) by lia.
  rewrite (sl_pow_0 S L). ring.
Qed.

Lemma rpow_double x n : (0 <= n)%Z -> rpow x (2 * n)%Z = rpow (rmul x x) n.
Proof.
  intros Hn. pattern n. apply natlike_ind; [| |exact Hn].
  - now rewrite Z.mul_0_r, !(sl_pow_0 S L).
  - intros k Hk IH.
    replace (2 * Z.succ k)%Z with (Z.succ (Z.succ (2 * k))) by lia.
    rewrite !(sl_pow_succ S L) by lia. rewrite IH. ring.
Qed.

Lemma rpow_xO x p : rpow x (Zpos (xO p)) = rpow (rmul x x) (Zpos p).
Proof. rewrite Pos2Z.inj_xO. apply rpow_double. lia. Qed.

Lemma rpow_xI x p : rpow x (Zpos (xI p)) = rmul (rpow (rmul x x) (Zpos p)) x.
Proof.
  rewrite Pos2Z.inj_xI. replace (2 * Z.pos p + 1)%Z with (Z.succ (2 * Z.pos p)) by lia.
  rewrite (sl_pow_succ S L) by lia. rewrite rpow_double by lia. ring.
Qed.

(** [ipow_posint(x, n)] on an array, under the laws of exact arithmetic
    [L]: the array holds the [n]-th powers of its former entries afterwards;
    for [n = 1] nothing is written.  The copies made for odd [n] are new
    arrays. *)
Lemma ipow_posint_array n :
  forall l (X : ndarray) h t,
    h !! l = Some X ->
    exists extra,
      ipow_posint (VArr l) n {| heap := h; trace := t |}
      = (Ok (VArr l),
         {| heap := <[l := {| shape := shape X;
                              data := (fun v => rpow v (Zpos n)) <$> data X |}]> h ++ extra;
            trace := t |}).
Proof.
  induction n as [n IH|n IH|]; intros l X h t Hl.
  - (* odd: copy, square, recurse, multiply the copy back *)
    assert (l < length h) as Hlt by (eapply lookup_lt_Some; eauto).
    cbn [ipow_posint].
    assert (np_copy (VArr l) {| heap := h; trace := t |}
            = (Ok (VArr (length h)), {| heap := h ++ [X]; trace := t |})) as Hcopy.
    { unfold np_copy. now rewrite (bind_ok _ _ _ _ _ (load_ok _ _ _ _ Hl)). }
    rewrite (bind_ok _ _ _ _ _ Hcopy).
    assert ((h ++ [X]) !! l = Some X) as Hl1 by (now rewrite lookup_app_l).
    rewrite (bind_ok _ _ _ _ _ (iop_array rmul _ _ _ _ _ t Hl1 Hl1 eq_refl)).
    set (X2 := {| shape := shape X; data := zip_with rmul (data X) (data X) |}).
    destruct (IH l X2 (<[l := X2]> (h ++ [X])) t) as (e & Hrec).
    { apply list_lookup_insert_eq. rewrite length_app. lia. }
    rewrite (bind_ok _ _ _ _ _ Hrec). cbn [shape data X2].
    set (Xp := {| shape := shape X;
                  data := (fun v => rpow v (Z.pos n)) <$> zip_with rmul (data X) (data X) |}).
    assert (updates l Xp h (<[l := Xp]> (<[l := X2]> (h ++ [X])) ++ e)) as U.
    { exists ([X] ++ e). rewrite list_insert_insert_eq, insert_app_l by lia.
      now rewrite <- app_assoc. }
    assert ((<[l := Xp]> (<[l := X2]> (h ++ [X])) ++ e) !! length h = Some X) as Hc.
    { rewrite lookup_app_l by (rewrite !length_insert, length_app; cbn; lia).
      rewrite !list_lookup_insert_ne by lia. now apply list_lookup_middle. }
    rewrite (bind_ok _ _ _ _ _
               (iop_array rmul _ _ _ _ _ t (updates_lookup _ _ _ _ U Hlt) Hc eq_refl)).
    destruct (updates_insert_same l Xp
                {| shape := shape Xp; data := zip_with rmul (data Xp) (data X) |}
                h _ U Hlt) as [e' He'].
    exists e'. unfold ret. rewrite He'. cbn [Xp shape data]. do 5 f_equal.
    rewrite zip_with_diag, <- list_fmap_compose.
    rewrite zip_with_fmap_l, zip_with_diag.
    apply list_fmap_ext. intros _ v _. cbn. now rewrite rpow_xI.
  - (* even: square, recurse *)
    assert (l < length h) as Hlt by (eapply lookup_lt_Some; eauto).
    cbn [ipow_posint].
    rewrite (bind_ok _ _ _ _ _ (iop_array rmul _ _ _ _ _ t Hl Hl eq_refl)).
    set (X2 := {| shape := shape X; data := zip_with rmul (data X) (data X) |}).
    destruct (IH l X2 (<[l := X2]> h) t) as (e & Hrec).
    { now apply list_lookup_insert_eq. }
    rewrite Hrec. exists e. rewrite list_insert_insert_eq. cbn [X2 shape data].
    do 5 f_equal. rewrite zip_with_diag, <- list_fmap_compose.
    apply list_fmap_ext. intros _ v _. cbn. now rewrite rpow_xO.
  - (* n == 1 *)
    exists []. cbn [ipow_posint]. unfold ret. rewrite app_nil_r. do 2 f_equal.
    symmetry. apply list_insert_id. rewrite Hl. f_equal.
    destruct X as [sh d]. cbn. f_equal.
    transitivity (id <$> d); [now rewrite list_fmap_id|].
    apply list_fmap_ext. intros _ v _. cbn. now rewrite rpow_1.
Qed.

Lemma power_call_out_of_place_run n c f p k h t lx A pts :
  vec_oop_spec E V n c f -> n <= k -> (0 <= p)%Z ->
  h !! lx = Some A -> input_points A = Some pts ->
  exists lo extra t',
    power_call_out_of_place (call E V k) p c (VArr lx) {| heap := h; trace := t |}
    = (Ok (VArr lo), {| heap := h ++ extra; trace := t' |})
    /\ length h <= lo
    /\ (h ++ extra) !! lo
       = Some {| shape := [length pts];
                 data := (fun q => rpow (f (coords q)) p) <$> pts |}.
Proof.
  intros Hc Hk Hp Hx Hpts. unfold power_call_out_of_place.
  destruct (Hc k h t lx A pts Hk Hx Hpts) as (lo1 & e1 & t1 & Hrun & Hlo1 & Hres1).
  set (Y := {| shape := [length pts]; data := (fun q => f (coords q)) <$> pts |}) in *.
  destruct (1 <=? p)%Z eqn:H1.
  - apply Z.leb_le in H1. rewrite (bind_ok _ _ _ _ _ Hrun).
    unfold pow_posint. cbn [is_ndarray].
    assert (np_copy (VArr lo1) {| heap := h ++ e1; trace := t1 |}
            = (Ok (VArr (length (h ++ e1))),
               {| heap := (h ++ e1) ++ [Y]; trace := t1 |})) as Hcopy.
    { unfold np_copy. now rewrite (bind_ok _ _ _ _ _ (load_ok _ _ _ _ Hres1)). }
    rewrite (bind_ok _ _ _ _ _ Hcopy).
    destruct (ipow_posint_array (Z.to_pos p) (length (h ++ e1)) Y ((h ++ e1) ++ [Y]) t1)
      as (e2 & Hpow).
    { now apply list_lookup_middle. }
    rewrite Hpow. rewrite Z2Pos.id by lia. cbn [Y shape data].
    rewrite <- list_fmap_compose.
    eexists (length (h ++ e1)), _, t1. split; [|split].
    + rewrite insert_app_r_alt by lia. rewrite Nat.sub_diag. cbn [insert list_insert].
      now rewrite <- !app_assoc.
    + rewrite length_app. lia.
    + rewrite length_app. rewrite (app_assoc h e1). apply list_lookup_middle.
      now rewrite length_app.
  - apply Z.leb_gt in H1. assert (p = 0%Z) as -> by lia.
    rewrite (bind_ok _ _ _ _ _ Hrun). unfold pow_value.
    rewrite (bind_ok _ _ _ _ _ (load_ok _ _ _ _ Hres1)). cbn [Y shape data].
    rewrite <- list_fmap_compose.
    eexists (length (h ++ e1)), _, t1. split; [|split].
    + unfold alloc. cbn [heap trace]. now rewrite <- app_assoc.
    + rewrite length_app. lia.
    + rewrite app_assoc. now apply list_lookup_middle.
Qed.

Lemma power_call_in_place_run n ci f p k h t lx A pts lo O :
  vec_ip_spec E V n ci f -> n <= k -> (0 <= p)%Z ->
  h !! lx = Some A -> input_points A = Some pts ->
  h !! lo = Some O -> lo <> lx ->
  shape O = [length pts] -> length (data O) = length pts ->
  exists r extra t',
    power_call_in_place (call E V k) p ci (VArr lx) (VArr lo) {| heap := h; trace := t |}
    = (Ok r,
       {| heap := <[lo := {| shape := [length pts];
                             data := (fun q => rpow (f (coords q)) p) <$> pts |}]> h ++ extra;
          trace := t' |}).
Proof.
  intros Hc Hk Hp Hx Hpts Hlo Hne HsO HdO. unfold power_call_in_place.
  destruct (Hc k h t lx A pts lo O Hk Hx Hpts Hlo Hne HsO HdO) as (r & e & t' & Hrun).
  rewrite (bind_ok _ _ _ _ _ Hrun).
  assert (lo < length h) as Hlt by (eapply lookup_lt_Some; eauto).
  set (Y := {| shape := [length pts]; data := (fun q => f (coords q)) <$> pts |}) in *.
  assert ((<[lo := Y]> h ++ e) !! lo = Some Y) as HY.
  { rewrite lookup_app_l by (rewrite length_insert; lia).
    now apply list_lookup_insert_eq. }
  destruct (1 <=? p)%Z eqn:H1.
  - apply Z.leb_le in H1.
    destruct (ipow_posint_array (Z.to_pos p) lo Y (<[lo := Y]> h ++ e) t' HY) as (e2 & Hpow).
    rewrite Hpow. rewrite Z2Pos.id by lia. cbn [Y shape data].
    rewrite <- list_fmap_compose.
    exists (VArr lo), (e ++ e2), t'. do 2 f_equal.
    rewrite insert_app_l by (rewrite length_insert; lia).
    now rewrite list_insert_insert_eq, <- app_assoc.
  - unfold ipow_value. rewrite (iop_scalar_array _ _ _ _ _ _ HY). cbn [Y shape data].
    rewrite <- list_fmap_compose.
    exists (VArr lo), e, t'. do 2 f_equal.
    rewrite insert_app_l by (rewrite length_insert; lia).
    now rewrite list_insert_insert_eq.
Qed.

(** Under the laws of exact arithmetic [L], the closures [_scalar_power]
    defines evaluate the power for every integer exponent [p >= 0]: out of
    place on a copy of what the operand returns, in place in the buffer. *)
Lemma power_call_evaluates n c ci f p :
  (0 <= p)%Z ->
  (vec_oop_spec E V n c f ->
   vec_oop_spec E V (Datatypes.S n) (Cpower_call p c ci) (fun q => rpow (f q) p))
  /\ (vec_ip_spec E V n ci f ->
      vec_ip_spec E V (Datatypes.S n) (Cpower_call p c ci) (fun q => rpow (f q) p)).
Proof.
  intros Hp. split.
  - intros Hc k h t lx A pts Hk Hx Hpts. destruct k as [|k]; [lia|].
    cbn [call call_body]. apply (power_call_out_of_place_run n _ _ _ _ _ _ _ A); auto. lia.
  - intros Hc k h t lx A pts lo O Hk Hx Hpts Hlo Hne HsO HdO.
    destruct k as [|k]; [lia|]. cbn [call call_body].
    apply (power_call_in_place_run n _ _ _ _ _ _ _ A _ _ O); auto. lia.
Qed.

End Power.

(** ** Pointwise product, and the functions [zero] and [one] wrap *)

Section Identities.
Context (L : ScalarLaws S) (E : Env) (V : list vector).

Add Ring scalar_ring_identities : (sl_ring S L).

Lemma vec_oop_at_mono n n' c f A pts :
  vec_oop_at E V n c f A pts -> n <= n' -> vec_oop_at E V n' c f A pts.
Proof. intros H Hn k h t lx Hk. apply H. lia. Qed.

Lemma bop_array f lo lt (X Y : ndarray) h t :
  h !! lo = Some X -> h !! lt = Some Y -> shape X = shape Y ->
  bop f (VArr lo) (VArr lt) {| heap := h; trace := t |}
  = (Ok (VArr (length h)),
     {| heap := h ++ [{| shape := shape X; data := zip_with f (data X) (data Y) |}];
        trace := t |}).
Proof.
  intros Hlo Hlt Hs. unfold bop.
  rewrite (bind_ok _ _ _ _ _ (load_ok _ _ _ _ Hlo)).
  rewrite (bind_ok _ _ _ _ _ (load_ok _ _ _ _ Hlt)).
  unfold bcast_zip, shape_eqb. rewrite bool_decide_eq_true_2 by exact Hs.
  reflexivity.
Qed.

(** [product_call_out_of_place]: the product of what the operands return,
    in a new array. *)
Lemma product_oop_run n c1 c2 f1 f2 k h t lx A pts :
  vec_oop_at E V n c1 f1 A pts -> vec_oop_at E V n c2 f2 A pts -> n <= k ->
  h !! lx = Some A ->
  exists lo extra t',
    product_call_out_of_place (call E V k) c1 c2 (VArr lx) {| heap := h; trace := t |}
    = (Ok (VArr lo), {| heap := h ++ extra; trace := t' |})
    /\ length h <= lo
    /\ (h ++ extra) !! lo
       = Some {| shape := [length pts];
                 data := (fun p => rmul (f1 (coords p)) (f2 (coords p))) <$> pts |}.
Proof.
  intros H1 H2 Hk Hx. unfold product_call_out_of_place.
  destruct (H1 k h t lx Hk Hx) as (lo1 & e1 & t1 & Hrun1 & Hlo1 & Hres1).
  rewrite (bind_ok _ _ _ _ _ Hrun1).
  assert ((h ++ e1) !! lx = Some A) as Hx1
    by (rewrite lookup_app_l; [exact Hx|eapply lookup_lt_Some; eauto]).
  destruct (H2 k (h ++ e1) t1 lx Hk Hx1) as (lo2 & e2 & t2 & Hrun2 & Hlo2 & Hres2).
  rewrite (bind_ok _ _ _ _ _ Hrun2).
  assert (lo1 < length (h ++ e1)) as Hlt1 by (eapply lookup_lt_Some; eauto).
  assert (((h ++ e1) ++ e2) !! lo1
          = Some {| shape := [length pts]; data := (fun p => f1 (coords p)) <$> pts |})
    as Hres1' by (rewrite lookup_app_l; auto).
  rewrite (bop_array _ _ _ _ _ _ _ Hres1' Hres2 eq_refl). cbn [shape data].
  eexists (length ((h ++ e1) ++ e2)), _, t2. split; [|split].
  - now rewrite <- !app_assoc.
  - rewrite !length_app. lia.
  - rewrite !app_assoc. rewrite list_lookup_middle by reflexivity.
    now rewrite zip_with_fmap_l, zip_with_fmap_r, zip_with_diag.
Qed.

Lemma broadcast_all_replicate d n :
  1 <= d -> broadcast_all (replicate d [n]) = Some [n].
Proof.
  induction d as [|[|d] IH]; intros Hd; [lia|reflexivity|].
  change (replicate (Datatypes.S (Datatypes.S d)) [n])
    with ([n] :: replicate (Datatypes.S d) [n]).
  cbn [broadcast_all]. rewrite IH by lia. cbn.
  unfold broadcast_shapes. cbn. now rewrite Nat.eqb_refl.
Qed.

Lemma fmap_const_replicate {A B} (b : B) (l : list A) :
  (fun _ => b) <$> l = replicate (length l) b.
Proof. induction l as [|a l IH]; cbn; [reflexivity|now rewrite IH]. Qed.

(** [zero_vec] and [one_vec] on a coordinate array of shape [(d, N)],
    [1 <= d <= 32]: a new array of shape [(N,)] filled with the constant. *)
Lemma const_vec_at r nd A d n :
  shape A = [d; n] -> 1 <= d <= 32 ->
  forall h t lx, h !! lx = Some A ->
    const_vec r nd (VArr lx) {| heap := h; trace := t |}
    = (Ok (VArr (length h)),
       {| heap := h ++ [{| shape := [n]; data := replicate n r |}]; trace := t |}).
Proof.
  intros Hs Hd h t lx Hx. unfold const_vec.
  rewrite (bind_ok _ _ _ false {| heap := h; trace := t |}) by reflexivity.
  rewrite (bind_ok _ _ _ [n] {| heap := h; trace := t |}).
  - unfold np_full, alloc. cbn [heap trace]. now rewrite size_1.
  - unfold np_broadcast_shape.
    rewrite (bind_ok _ _ _ (replicate d [n]) {| heap := h; trace := t |}).
    + rewrite length_replicate.
      replace (32 <? d) with false by (symmetry; apply Nat.ltb_ge; lia).
      now rewrite broadcast_all_replicate by lia.
    + unfold unpack_shapes. rewrite (bind_ok _ _ _ _ _ (load_ok _ _ _ _ Hx)).
      now rewrite Hs.
Qed.

Lemma zero_one_vec_at nd A d n pts :
  shape A = [d; n] -> 1 <= d <= 32 -> input_points A = Some pts ->
  vec_oop_at E V 1 (Czero_vec nd) (fun _ => rO) A pts
  /\ vec_oop_at E V 1 (Cone_vec nd) (fun _ => rI) A pts.
Proof.
  intros Hs Hd Hp.
  assert (length pts = n) as Hn.
  { rewrite (input_points_columns A d n Hs) in Hp. inversion Hp.
    now rewrite length_fmap, length_seq. }
  split; intros k h t lx Hk Hx; (destruct k as [|k]; [lia|]);
    cbn [call call_body]; rewrite (const_vec_at _ nd A d n Hs Hd h t lx Hx);
    eexists (length h), _, t; (split; [reflexivity|]); (split; [lia|]);
    rewrite list_lookup_middle by reflexivity;
    now rewrite fmap_const_replicate, Hn.
Qed.

(** The closures [zero()] and [one()] wrap are the identities of the
    pointwise algebra: on a coordinate array of shape [(d, N)], where the
    closure [c] returns the values of [f], the closure [_lincomb] builds for
    [1*c + 1*zero_vec] and the closure [_multiply] builds for [c * one_vec]
    return the values of [f] again. *)
Lemma zero_one_identities n c f nd A d N pts k h t lx :
  vec_oop_at E V n c f A pts -> n <= k -> 1 <= k ->
  shape A = [d; N] -> 1 <= d <= 32 -> input_points A = Some pts ->
  h !! lx = Some A ->
  (exists lo extra t',
      lincomb_call_out_of_place (call E V k) rI rI c (Czero_vec nd) (VArr lx)
        {| heap := h; trace := t |}
      = (Ok (VArr lo), {| heap := h ++ extra; trace := t' |})
      /\ (h ++ extra) !! lo
         = Some {| shape := [length pts]; data := (fun p => f (coords p)) <$> pts |})
  /\ (exists lo extra t',
         product_call_out_of_place (call E V k) c (Cone_vec nd) (VArr lx)
           {| heap := h; trace := t |}
         = (Ok (VArr lo), {| heap := h ++ extra; trace := t' |})
         /\ (h ++ extra) !! lo
            = Some {| shape := [length pts]; data := (fun p => f (coords p)) <$> pts |}).
Proof.
  intros Hc Hk Hk1 Hs Hd Hp Hx.
  destruct (zero_one_vec_at nd A d N pts Hs Hd Hp) as [Hzero Hone].
  split.
  - destruct (lincomb_oop_run L E V (Nat.max n 1) c (Czero_vec nd) f (fun _ => rO)
                rI rI k h t lx A pts) as (lo & extra & t' & Hrun & _ & Hres).
    + eapply vec_oop_at_mono; [exact Hc|lia].
    + eapply vec_oop_at_mono; [exact Hzero|lia].
    + lia.
    + exact Hx.
    + exists lo, extra, t'. split; [exact Hrun|]. rewrite Hres. do 2 f_equal.
      apply list_fmap_ext. intros _ p _. cbn. ring.
  - destruct (product_oop_run (Nat.max n 1) c (Cone_vec nd) f (fun _ => rI)
                k h t lx A pts) as (lo & extra & t' & Hrun & _ & Hres).
    + eapply vec_oop_at_mono; [exact Hc|lia].
    + eapply vec_oop_at_mono; [exact Hone|lia].
    + lia.
    + exact Hx.
    + exists lo, extra, t'. split; [exact Hrun|]. rewrite Hres. do 2 f_equal.
      apply list_fmap_ext. intros _ p _. cbn. ring.
Qed.

End Identities.

End Properties.

(** * The model run on the integers *)

Lemma Z_laws : ScalarLaws Z_scalar.
Proof.
  constructor.
  - exact Zth.
  - intros a b. apply Z.eqb_eq.
  - intros x. reflexivity.
  - intros x n Hn. cbn. now rewrite Z.pow_succ_r.
Qed.

Section Instances.
Local Open Scope Z_scope.
#[local] Existing Instance Z_scalar.

Example element_builds_wrap :
  FunctionSet_element env_Z set_Z (OFunction (CUser 0)) true []
  = (Ok 0%nat, [wrap 0 set_Z (CUser 0) None]).
Proof. reflexivity. Qed.

(** A plain vector wrapping the in-place-only callable 4 cannot be
    evaluated without a buffer. *)
Example in_place_only_call_raises :
  evaluate env_Z
    [{| v_class := CFunctionSetVector; _space := set_Z;
        _call_in_place := CUser 4; _call_out_of_place := C_out_of_place_not_impl;
        _call_has_out := true; _call_out_optional := false; _vectorized := None |}]
    5 0 (VArr 0) None true {| heap := [x_Z]; trace := [] |}
  = (Raise (Exn NotImplementedError NotImplemented), {| heap := [x_Z]; trace := [] |}).
Proof. reflexivity. Qed.

Lemma bind_out_of_fuel {Σ A B} (c : St Σ A) (k : A -> St Σ B) m :
  fst (c m) = OutOfFuel -> fst (bind c k m) = OutOfFuel.
Proof. unfold bind. destruct (c m) as [[a| | |] m']; cbn; congruence. Qed.

(** The dual-use vector called on an array of three points of the line:
    without a buffer it returns a new array of shape [(3,)]; a buffer of
    another shape is refused with [ShapeMismatch]. *)
Example dual_use_call_returns :
  evaluate env_Z store_Z 5 1 (VArr 0) None true
    {| heap := [arr [3%nat] [1; 2; 3]]; trace := [] |}
  = (Ok (VArr 1),
     {| heap := [arr [3%nat] [1; 2; 3]; arr [3%nat] [1; 2; 3]];
        trace := [3%nat; 3%nat] |}).
Proof. reflexivity. Qed.

Example wrong_buffer_shape_raises :
  fst (evaluate env_Z store_Z 5 1 (VArr 0) (Some (VArr 1)) true
         {| heap := [arr [3%nat] [1; 2; 3]; arr [2%nat] [0; 0]]; trace := [] |})
  = Raise (Exn ValueError ShapeMismatch).
Proof. reflexivity. Qed.

(** The default out-of-place evaluator of lines 1064-1074, on a vector
    record that holds it: a buffer of the inferred shape is allocated, the
    vector is called with it, and the buffer is returned filled. *)
Example default_out_of_place_runs :
  call env_Z
    [{| v_class := CFunctionSpaceVector; _space := space_Z;
        _call_in_place := CUser 4; _call_out_of_place := Coop_wrapper 0 DFloat;
        _call_has_out := true; _call_out_optional := false; _vectorized := Some true |}]
    6 (Coop_wrapper 0 DFloat) (VArr 0) None {| heap := [x_Z]; trace := [] |}
  = (Ok (VArr 1), {| heap := [x_Z; arr [3%nat] [1; 2; 5]]; trace := [4%nat] |}).
Proof. reflexivity. Qed.

(** The vector wrapping [lambda x: x], called without a buffer: each call
    evaluates out of place, then in place through the default wrapper, which
    calls the vector again. *)
Lemma unbounded_recursion n :
  forall chk t,
    fst (evaluate env_Z store_Z n 0 (VArr 0) None chk {| heap := [x_Z]; trace := t |})
    = OutOfFuel.
Proof.
  induction n as [|n IH]; intros chk t.
  - destruct chk; reflexivity.
  - unfold evaluate, FunctionSetVector___call__.
    do 9 (erewrite bind_ok; [|destruct chk; reflexivity]).
    apply bind_out_of_fuel.
    match goal with
    | |- fst ((if _ then _ else if _ then ?B else _) ?m) = _ =>
        change (fst (B m) = OutOfFuel)
    end.
    do 3 (erewrite bind_ok; [|reflexivity]).
    apply bind_out_of_fuel.
    unfold FunctionSetVector__call. apply bind_out_of_fuel.
    change (fst (_default_in_place env_Z store_Z (call env_Z store_Z n) 0 (VArr 0) (VArr 0)
                   {| heap := [x_Z]; trace := t ++ [0%nat] |}) = OutOfFuel).
    unfold _default_in_place. apply bind_out_of_fuel. apply IH.
Qed.

(** C4.  Bounds checking on the domain [0, 10] and the range [0, 3].

    - An input with a point outside the domain is refused with [OutOfDomain]
      before any user callable has run (the trace is empty).
    - For a dual-use callable, values outside the range are refused with
      [OutOfRange], with or without a buffer, and returned when the check is
      disabled.
    - For the vector wrapping the out-of-place callable [lambda x: x], whose
      values at [1, 2, 5] leave the range, the call without a buffer reaches
      no range check: it recurses without bound, whatever the fuel, and does
      so too when the check is disabled. *)
Theorem bounds_checks :
  evaluate env_Z store_Z 5 0 (VArr 0) None true
    {| heap := [arr [3%nat] [1; 20; 5]]; trace := [] |}
  = (Raise (Exn ValueError OutOfDomain),
     {| heap := [arr [3%nat] [1; 20; 5]]; trace := [] |})
  /\ fst (evaluate env_Z store_Z 5 1 (VArr 0) (Some (VArr 1)) true
            {| heap := [x_Z; buffer_Z]; trace := [] |})
     = Raise (Exn ValueError OutOfRange)
  /\ fst (evaluate env_Z store_Z 5 1 (VArr 0) None true {| heap := [x_Z]; trace := [] |})
     = Raise (Exn ValueError OutOfRange)
  /\ fst (evaluate env_Z store_Z 5 1 (VArr 0) (Some (VArr 1)) false
            {| heap := [x_Z; buffer_Z]; trace := [] |})
     = Ok (VArr 1)
  /\ forall n chk,
       fst (evaluate env_Z store_Z n 0 (VArr 0) None chk {| heap := [x_Z]; trace := [] |})
       = OutOfFuel.
Proof.
  split; [reflexivity|]. split; [reflexivity|]. split; [reflexivity|].
  split; [reflexivity|]. intros n chk. apply unbounded_recursion.
Qed.

(** *** The user callables meet the specifications of operands *)

Lemma pointwise_vec_oop (V : list vector) id f :
  (forall x h, user_Z id x None h = pointwise f x None h) ->
  fst (user_sig env_Z id) && negb (snd (user_sig env_Z id)) = false ->
  vec_oop_spec env_Z V 1 (CUser id) f.
Proof.
  intros Hu Hsig k h t lx A pts Hk Hx Hp. destruct k as [|k]; [lia|].
  exists (length h), [arr [length pts] ((fun p : point => f (@coords Z_scalar p)) <$> pts)],
    (t ++ [id]).
  split; [|split; [lia|now apply list_lookup_middle]].
  cbn [call call_body]. destruct (user_sig env_Z id) as [ho oo]. cbn in Hsig.
  rewrite Hsig. unfold when, bind, ret, log_call. cbn [user env_Z heap trace].
  rewrite Hu. unfold pointwise. now rewrite Hx, Hp.
Qed.

Lemma pointwise_vec_ip (V : list vector) id f :
  (forall x o h, user_Z id x (Some o) h = pointwise f x (Some o) h) ->
  fst (user_sig env_Z id) = true ->
  vec_ip_spec env_Z V 1 (CUser id) f.
Proof.
  intros Hu Hsig k h t lx A pts lo O Hk Hx Hp Hlo Hne HsO HdO.
  destruct k as [|k]; [lia|].
  exists (VArr lo), [], (t ++ [id]). rewrite app_nil_r.
  cbn [call call_body]. destruct (user_sig env_Z id) as [ho oo]. cbn in Hsig.
  subst ho. unfold when, bind, ret, log_call. cbn [negb user env_Z heap trace].
  rewrite Hu. unfold pointwise. now rewrite Hx, Hp.
Qed.

Lemma coordinate_sum_pt (V : list vector) : pt_spec env_Z V 1 (CUser 2) coordinate_sum.
Proof.
  intros k h t pv p Hk Hat. destruct k as [|k]; [lia|].
  exists (t ++ [2%nat]). destruct p as [r|cs]; cbn in Hat.
  - subst pv. reflexivity.
  - destruct Hat as (l & -> & Hl). cbn [call call_body].
    unfold when, bind, ret, log_call. cbn. now rewrite Hl.
Qed.

(** *** Linear combinations *)

(** [2*f + 3*g] for the vectorized [f(x) = x[0]] and the per-point
    [g(x) = sum(x)]: the operator stores closures on the third vector that
    evaluate the combination on arrays. *)
Lemma lincomb_evaluates_witness :
  FunctionSpace__lincomb env_Z space_Z 2 0 3 1 2 store_fgh
  = (Ok 2%nat, <[2%nat := combined]> store_fgh)
  /\ operand_spec env_Z (<[2%nat := combined]> store_fgh) 3 combined
       (fun p => 2 * first p + 3 * coordinate_sum p).
Proof.
  destruct (lincomb_evaluates Z_laws env_Z space_Z 2 3 0 1 2 f_vec g_novec h_out
              first coordinate_sum 1 store_fgh eq_refl eq_refl eq_refl)
    as (Hop & _ & Hoop & _).
  split; [exact Hop|]. apply Hoop.
  - apply pointwise_vec_oop; [reflexivity|reflexivity].
  - apply coordinate_sum_pt.
Defined.

Example lincomb_runs :
  call env_Z (<[2%nat := combined]> store_fgh) 4 (_call_out_of_place combined)
       (VArr 0) None {| heap := [arr [3%nat] [1; 2; 5]]; trace := [] |}
  = (Ok (VArr 1),
     {| heap := [arr [3%nat] [1; 2; 5]; arr [3%nat] [5; 10; 25]; arr [3%nat] [3; 6; 15]];
        trace := [3%nat; 2%nat; 2%nat; 2%nat] |}).
Proof. reflexivity. Qed.

(** C1.  The linearity the specification states does not hold of the code.
    Both operands wrap [lambda x: x], a vectorized function that returns its
    argument, the array the caller passed in.  [_lincomb(2, x1, 3, x2, out)]
    returns [out]; at [x = [1, 2, 3]] each operand alone returns
    [[1, 2, 3]], so that [2*x1(x) + 3*x2(x)] is [[5, 10, 15]]; but the
    out-of-place closure stored on [out], documented as the out-of-place
    version, applies [out *= a], [tmp *= b] and [out += tmp] to that one
    array: it returns [[12, 24, 36]], in the array of the caller, which it
    has overwritten. *)
Theorem lincomb_overwrites_operand_results :
  let x1 := wrap 0 space_Z (CUser 0) (Some true) in
  let x2 := wrap 1 space_Z (CUser 0) (Some true) in
  let V' := <[2%nat := combined_alias]> store_alias in
  let m := {| heap := [arr [3%nat] [1; 2; 3]]; trace := [] |} in
  FunctionSpace__lincomb env_Z space_Z 2 0 3 1 2 store_alias = (Ok 2%nat, V')
  /\ returned_data env_Z store_alias 5 (_call_out_of_place x1) (VArr 0) m = Some [1; 2; 3]
  /\ returned_data env_Z store_alias 5 (_call_out_of_place x2) (VArr 0) m = Some [1; 2; 3]
  /\ call env_Z V' 5 (_call_out_of_place combined_alias) (VArr 0) None m
     = (Ok (VArr 0), {| heap := [arr [3%nat] [12; 24; 36]]; trace := [0%nat; 0%nat] |})
  /\ ~ lincomb_linear_at env_Z space_Z 2 0 3 1 2 store_alias 5 (VArr 0) m.
Proof.
  intros x1 x2 V' m.
  split; [reflexivity|]. split; [reflexivity|]. split; [reflexivity|].
  split; [reflexivity|].
  intros H.
  specialize (H V' x1 x2 combined_alias [1; 2; 3] [1; 2; 3]
                eq_refl eq_refl eq_refl eq_refl eq_refl eq_refl).
  vm_compute in H. discriminate H.
Qed.

(** *** Further instances *)

Lemma out_of_place_only_never_returns_witness :
  is_ok (fst (evaluate env_Z store_Z 25 0 (VArr 0) None true
                {| heap := [x_Z]; trace := [] |})) = false.
Proof.
  exact (out_of_place_only_never_returns env_Z store_Z 25 0
           (wrap 0 set_Z (CUser 0) None) (VArr 0) true
           {| heap := [x_Z]; trace := [] |} eq_refl eq_refl).
Defined.

Lemma domain_element_never_returns_witness :
  is_ok (fst (evaluate env_Z store_Z 25 1 (VNum 3) None true
                {| heap := []; trace := [] |})) = false.
Proof.
  exact (domain_element_never_returns env_Z store_Z 25 1
           (dual set_Z (CUser 3)) (VNum 3) true {| heap := []; trace := [] |}
           eq_refl eq_refl).
Defined.

Lemma vectorize_array_call_witness :
  exists extra t',
    call env_Z [] 2 (Cvect_wrapper OutNone DFloat (CUser 2)) (VArr 0) None
         {| heap := [coordinates_Z]; trace := [] |}
    = (Ok (VArr 1),
       {| heap := [coordinates_Z] ++ arr [3%nat] [5; 7; 9] :: extra; trace := t' |}).
Proof.
  exact (vectorize_array_call env_Z [] 1 (CUser 2) coordinate_sum OutNone DFloat 1
           [coordinates_Z] [] 0 coordinates_Z 2 3
           (coordinate_sum_pt []) (le_n 1)
           ltac:(discriminate) ltac:(discriminate) eq_refl eq_refl).
Defined.

Lemma aliased_out_witness :
  binary_operator env_Z Product space_Z 0 1 0 store_alias
  = (Ok 0%nat,
     <[0%nat := installed env_Z Product space_Z (wrap 0 space_Z (CUser 0) (Some true))
                  (wrap 1 space_Z (CUser 0) (Some true)) (wrap 0 space_Z (CUser 0) (Some true))]>
       store_alias)
  /\ FunctionSpaceVector___ipow__ 0 2 store_alias
     = (Raise (Exn AttributeError Runtime), store_alias).
Proof.
  destruct (aliased_out env_Z Product space_Z 0 1 (wrap 0 space_Z (CUser 0) (Some true))
              (wrap 1 space_Z (CUser 0) (Some true)) 2 store_alias eq_refl eq_refl)
    as (Hop & _ & _ & Hpow).
  split; [exact Hop|exact Hpow].
Defined.

Lemma in_place_only_wrapping_witness :
  exists v,
    FunctionSetVector___init__ env_Z CFunctionSetVector 0 set_Z (OFunction (CUser 4)) []
    = Ok v
    /\ _call_in_place v = CUser 4
    /\ _call_out_of_place v = C_out_of_place_not_impl
    /\ forall V n x m,
         FunctionSetVector__call (call env_Z V (S n)) v x None m
         = (Raise (Exn NotImplementedError NotImplemented), m).
Proof.
  exact (proj1 (in_place_only_wrapping env_Z) CFunctionSetVector 0%nat set_Z
           (CUser 4) eq_refl).
Defined.

(** The in-place closure [_lincomb] captures for a non-vectorized operand
    wraps the out-of-place closure that line 796 has already wrapped.  On a
    two-dimensional domain the inner wrapper takes each point for an array of
    points on the line and returns an array of two values, which the outer
    wrapper cannot store in one entry of the buffer: the in-place evaluation
    of [2*f + 3*g] raises [ValueError]. *)
Example lincomb_in_place_mixed_raises :
  fst (call env_Z (<[2%nat := combined]> store_fgh) 6 (_call_in_place combined)
         (VArr 0) (Some (VArr 1)) {| heap := [plane_Z; buffer_Z]; trace := [] |})
  = Raise (Exn ValueError Runtime).
Proof. reflexivity. Qed.

End Instances.

(** * Further properties of the module *)

(** ** The closures of the binary operators *)

Section OperatorClosures.
Context {S : Scalar}.

(** X1.  An operand whose coefficient is zero is not evaluated by the
    closures of [_lincomb]: with [b == 0] neither the out-of-place nor the
    in-place closure depends on the closures of [x2], and with [a == 0],
    [b != 0] neither depends on those of [x1] -- whatever the operand that is
    left out would have done on the input. *)
Theorem lincomb_skips_zero_operand (rec : closure -> value -> option value -> M value)
    (a b : R) (c1 c1' c2 c2' : closure) (x out : value) (m : mem) :
  (reqb b rO = true ->
   lincomb_call_out_of_place rec a b c1 c2 x m
   = lincomb_call_out_of_place rec a b c1 c2' x m
   /\ lincomb_call_in_place rec a b c1 c2 x out m
      = lincomb_call_in_place rec a b c1 c2' x out m)
  /\ (reqb a rO = true -> reqb b rO = false ->
      lincomb_call_out_of_place rec a b c1 c2 x m
      = lincomb_call_out_of_place rec a b c1' c2 x m
      /\ lincomb_call_in_place rec a b c1 c2 x out m
         = lincomb_call_in_place rec a b c1' c2 x out m).
Proof.
  unfold lincomb_call_out_of_place, lincomb_call_in_place. split.
  - intros Hb. rewrite Hb. cbn [negb]. rewrite !andb_false_r.
    split; [reflexivity|]. now destruct (reqb a rO).
  - intros Ha Hb. rewrite Ha, Hb. cbn [negb andb]. split; reflexivity.
Qed.

(** X2.  [lincomb_call_in_place] with [a == 0] and [b == 0]: the buffer is
    multiplied by zero where it lies ([out *= 0]) and returned; no operand is
    called and nothing is allocated, so that the closure returns even where
    the operands would not. *)
Theorem lincomb_in_place_zero (rec : closure -> value -> option value -> M value)
    (a b : R) (c1 c2 : closure) (x : value) (lo : nat) (O : ndarray)
    (h : list ndarray) (t : list nat) :
  reqb a rO = true -> reqb b rO = true -> h !! lo = Some O ->
  lincomb_call_in_place rec a b c1 c2 x (VArr lo) {| heap := h; trace := t |}
  = (Ok (VArr lo),
     {| heap := <[lo := {| shape := shape O; data := (fun v => rmul v rO) <$> data O |}]> h;
        trace := t |}).
Proof.
  intros Ha Hb Hlo. unfold lincomb_call_in_place. cbn [is_ndarray negb].
  rewrite Ha, Hb. cbn [andb].
  now rewrite (iop_scalar_array _ _ _ _ _ _ Hlo).
Qed.

End OperatorClosures.

(** ** Pointwise product and quotient *)

Section ProductQuotient.
Context {S : Scalar} (E : Env) (V : list vector).

(** [x1_call_oop(x) op x2_call_oop(x)], the body of
    [product_call_out_of_place] and [quotient_call_out_of_place], on an
    input array: [B] is the operator, which on two arrays is numpy's. *)
Lemma bop_oop_run (B : value -> value -> M value) (g : R -> R -> R)
    n c1 c2 f1 f2 k h t lx A pts :
  (forall a b, B (VArr a) (VArr b) = bop g (VArr a) (VArr b)) ->
  vec_oop_at E V n c1 f1 A pts -> vec_oop_at E V n c2 f2 A pts -> n <= k ->
  h !! lx = Some A ->
  exists lo extra t',
    (r1 <- call E V k c1 (VArr lx) None ;;
     r2 <- call E V k c2 (VArr lx) None ;;
     B r1 r2)%py {| heap := h; trace := t |}
    = (Ok (VArr lo), {| heap := h ++ extra; trace := t' |})
    /\ length h <= lo
    /\ (h ++ extra) !! lo
       = Some {| shape := [length pts];
                 data := (fun p => g (f1 (coords p)) (f2 (coords p))) <$> pts |}.
Proof.
  intros HB H1 H2 Hk Hx.
  destruct (H1 k h t lx Hk Hx) as (lo1 & e1 & t1 & Hrun1 & Hlo1 & Hres1).
  rewrite (bind_ok _ _ _ _ _ Hrun1).
  assert ((h ++ e1) !! lx = Some A) as Hx1
    by (rewrite lookup_app_l; [exact Hx|eapply lookup_lt_Some; eauto]).
  destruct (H2 k (h ++ e1) t1 lx Hk Hx1) as (lo2 & e2 & t2 & Hrun2 & Hlo2 & Hres2).
  rewrite (bind_ok _ _ _ _ _ Hrun2).
  assert (lo1 < length (h ++ e1)) as Hlt1 by (eapply lookup_lt_Some; eauto).
  assert (((h ++ e1) ++ e2) !! lo1
          = Some {| shape := [length pts]; data := (fun p => f1 (coords p)) <$> pts |})
    as Hres1' by (rewrite lookup_app_l; auto).
  rewrite HB.
  rewrite (bop_array _ _ _ _ _ _ _ Hres1' Hres2 eq_refl). cbn [shape data].
  eexists (length ((h ++ e1) ++ e2)), _, t2. split; [|split].
  - now rewrite <- !app_assoc.
  - rewrite !length_app. lia.
  - rewrite !app_assoc. rewrite list_lookup_middle by reflexivity.
    now rewrite zip_with_fmap_l, zip_with_fmap_r, zip_with_diag.
Qed.

(** The product at a single point, for operands that are not vectorized. *)
Lemma bop_pt_run (g : R -> R -> R) n c1 c2 f1 f2 k h t pv p :
  pt_spec E V n c1 f1 -> pt_spec E V n c2 f2 -> n <= k -> point_at h pv p ->
  exists t',
    (r1 <- call E V k c1 pv None ;;
     r2 <- call E V k c2 pv None ;;
     bop g r1 r2)%py {| heap := h; trace := t |}
    = (Ok (VNum (g (f1 (coords p)) (f2 (coords p)))), {| heap := h; trace := t' |}).
Proof.
  intros H1 H2 Hk Hat.
  destruct (H1 k h t pv p Hk Hat) as (t1 & Hrun1).
  rewrite (bind_ok _ _ _ _ _ Hrun1).
  destruct (H2 k h t1 pv p Hk Hat) as (t2 & Hrun2).
  rewrite (bind_ok _ _ _ _ _ Hrun2).
  exists t2. reflexivity.
Qed.

(** The quotient at a single point: both operands are evaluated, then the
    division of the two numbers raises where the second one is zero. *)
Lemma div_pt_run n c1 c2 f1 f2 k h t pv p :
  pt_spec E V n c1 f1 -> pt_spec E V n c2 f2 -> n <= k -> point_at h pv p ->
  exists t',
    (r1 <- call E V k c1 pv None ;;
     r2 <- call E V k c2 pv None ;;
     div_value r1 r2)%py {| heap := h; trace := t |}
    = (if reqb (f2 (coords p)) rO then Raise (Exn ZeroDivisionError Runtime)
       else Ok (VNum (rdiv (f1 (coords p)) (f2 (coords p)))),
       {| heap := h; trace := t' |}).
Proof.
  intros H1 H2 Hk Hat.
  destruct (H1 k h t pv p Hk Hat) as (t1 & Hrun1).
  rewrite (bind_ok _ _ _ _ _ Hrun1).
  destruct (H2 k h t1 pv p Hk Hat) as (t2 & Hrun2).
  rewrite (bind_ok _ _ _ _ _ Hrun2).
  exists t2. cbn [div_value]. now destruct (reqb (f2 (coords p)) rO).
Qed.

(** The body of [product_call_in_place] and [quotient_call_in_place]: the
    second operand is evaluated into a temporary shaped like [out]; [I] is
    the in-place operator, which on two arrays is numpy's. *)
Lemma iop_ip_run (I : value -> value -> M value) (g : R -> R -> R)
    n c1 c2 f1 f2 k h t lx A pts lo O :
  (forall a b, I (VArr a) (VArr b) = iop g (VArr a) (VArr b)) ->
  vec_ip_spec E V n c1 f1 -> vec_ip_spec E V n c2 f2 -> n <= k ->
  h !! lx = Some A -> input_points A = Some pts ->
  h !! lo = Some O -> lo <> lx ->
  shape O = [length pts] -> length (data O) = length pts ->
  exists extra t',
    (tmp <- np_empty_like (VArr lo) ;;
     call E V k c1 (VArr lx) (Some (VArr lo)) ;;;
     call E V k c2 (VArr lx) (Some tmp) ;;;
     I (VArr lo) tmp)%py {| heap := h; trace := t |}
    = (Ok (VArr lo),
       {| heap := <[lo := {| shape := [length pts];
                             data := (fun p => g (f1 (coords p)) (f2 (coords p))) <$> pts |}]> h
                    ++ extra;
          trace := t' |}).
Proof.
  intros HI H1 H2 Hk Hx Hp Hlo Hne HsO HdO.
  assert (lo < length h) as Hlt by (eapply lookup_lt_Some; eauto).
  assert (lx < length h) as Hxlt by (eapply lookup_lt_Some; eauto).
  set (T := {| shape := shape O; data := replicate (size (shape O)) rjunk |}).
  assert (np_empty_like (VArr lo) {| heap := h; trace := t |}
          = (Ok (VArr (length h)), {| heap := h ++ [T]; trace := t |})) as Htmp.
  { unfold np_empty_like. now rewrite (bind_ok _ _ _ _ _ (load_ok _ _ _ _ Hlo)). }
  rewrite (bind_ok _ _ _ _ _ Htmp).
  destruct (H1 k (h ++ [T]) t lx A pts lo O Hk) as (r1 & e1 & t1 & Hrun1);
    [now rewrite lookup_app_l|exact Hp|now rewrite lookup_app_l|exact Hne
    |exact HsO|exact HdO|].
  rewrite (bind_ok _ _ _ _ _ Hrun1).
  set (Y1 := {| shape := [length pts]; data := (fun p => f1 (coords p)) <$> pts |}) in *.
  set (H2' := <[lo := Y1]> (h ++ [T]) ++ e1) in *.
  assert (updates lo Y1 h H2') as U2.
  { exists ([T] ++ e1). unfold H2'. rewrite insert_app_l by lia.
    now rewrite <- app_assoc. }
  assert (H2' !! length h = Some T) as HT2.
  { unfold H2'. rewrite lookup_app_l by (rewrite length_insert, length_app; cbn; lia).
    rewrite list_lookup_insert_ne by lia. now apply list_lookup_middle. }
  destruct (H2 k H2' t1 lx A pts (length h) T Hk) as (r2 & e2 & t2 & Hrun2).
  { rewrite (updates_lookup_ne _ _ _ _ _ U2); auto. }
  { exact Hp. }
  { exact HT2. }
  { lia. }
  { exact HsO. }
  { cbn. rewrite length_replicate, HsO. apply size_1. }
  rewrite (bind_ok _ _ _ _ _ Hrun2).
  set (Y2 := {| shape := [length pts]; data := (fun p => f2 (coords p)) <$> pts |}) in *.
  set (H3 := <[length h := Y2]> H2' ++ e2) in *.
  assert (length h < length H2') as HltT by (eapply lookup_lt_Some; eauto).
  assert (updates lo Y1 h H3) as U3
    by (apply updates_app, updates_insert_ge; [exact U2|lia]).
  assert (H3 !! length h = Some Y2) as HT3.
  { unfold H3. rewrite lookup_app_l by (rewrite length_insert; lia).
    now apply list_lookup_insert_eq. }
  rewrite HI.
  rewrite (iop_array _ _ _ _ _ _ _ (updates_lookup _ _ _ _ U3 Hlt) HT3 eq_refl).
  destruct (updates_insert_same lo Y1
              {| shape := shape Y1; data := zip_with g (data Y1) (data Y2) |}
              h H3 U3 Hlt) as [e6 He6].
  exists e6, t2. rewrite He6. cbn [Y1 Y2 shape data]. do 5 f_equal.
  now rewrite zip_with_fmap_l, zip_with_fmap_r, zip_with_diag.
Qed.

(** What [_multiply] and [_divide] store on [out] evaluates the pointwise
    [g] of the operands, [g] being [*] or [/]; the quotient of two operands
    that are not vectorized is taken between numbers, and needs a second
    operand that vanishes nowhere. *)
Lemma installed_bop_oop (op : binop) (g : R -> R -> R) sp v1 v2 o f1 f2 n :
  (op = Product /\ g = rmul)
  \/ (op = Quotient /\ g = rdiv
      /\ (vectorized E v1 || vectorized E v2 = true
          \/ forall q, reqb (f2 q) rO = false)) ->
  operand_spec E V n v1 f1 -> operand_spec E V n v2 f2 ->
  operand_spec E V (n + 2) (installed E op sp v1 v2 o) (fun p => g (f1 p) (f2 p)).
Proof.
  intros Hop H1 H2. unfold operand_spec. rewrite installed_vectorized.
  unfold installed.
  destruct (vectorized E v1 || vectorized E v2) eqn:Hvect; cbn [_call_out_of_place].
  - intros k h t lx A pts Hk Hx Hp. destruct k as [|k]; [lia|].
    assert (vec_oop_at E V (Datatypes.S n) (captured_oop E (field_dtype sp) true v1) f1 A pts)
      as Hc1 by (eapply vec_oop_spec_at; [now apply captured_oop_spec|exact Hp]).
    assert (vec_oop_at E V (Datatypes.S n) (captured_oop E (field_dtype sp) true v2) f2 A pts)
      as Hc2 by (eapply vec_oop_spec_at; [now apply captured_oop_spec|exact Hp]).
    destruct Hop as [[-> ->]|(-> & -> & _)]; cbn [call call_body];
      [unfold product_call_out_of_place|unfold quotient_call_out_of_place];
      apply (bop_oop_run _ _ (Datatypes.S n) _ _ _ _ _ _ _ _ A);
      auto; try lia; reflexivity.
  - apply orb_false_elim in Hvect as [Hv1 Hv2].
    unfold operand_spec in H1, H2. rewrite Hv1 in H1. rewrite Hv2 in H2.
    intros k h t pv p Hk Hat. destruct k as [|k]; [lia|].
    destruct Hop as [[-> ->]|(-> & -> & [Hv|Hnz])]; cbn [call call_body].
    + unfold product_call_out_of_place. apply (bop_pt_run _ n); auto; lia.
    + discriminate Hv.
    + unfold quotient_call_out_of_place.
      destruct (div_pt_run n (_call_out_of_place v1) (_call_out_of_place v2)
                  f1 f2 k h t pv p) as (t' & Hrun); auto; [lia|].
      exists t'. rewrite Hrun, Hnz. reflexivity.
Qed.

Lemma installed_bop_ip (op : binop) (g : R -> R -> R) sp v1 v2 o f1 f2 n :
  (op = Product /\ g = rmul) \/ (op = Quotient /\ g = rdiv) ->
  vectorized E v1 = true -> vectorized E v2 = true ->
  vec_ip_spec E V n (_call_in_place v1) f1 ->
  vec_ip_spec E V n (_call_in_place v2) f2 ->
  vec_ip_spec E V (n + 1) (_call_in_place (installed E op sp v1 v2 o))
    (fun p => g (f1 p) (f2 p)).
Proof.
  intros Hop Hv1 Hv2 H1 H2. unfold installed, captured_ip. rewrite Hv1, Hv2.
  cbn [orb andb negb _call_in_place].
  intros k h t lx A pts lo O Hk Hx Hp Hlo Hne HsO HdO. destruct k as [|k]; [lia|].
  destruct Hop as [[-> ->]|[-> ->]]; cbn [call call_body];
    [unfold product_call_in_place|unfold quotient_call_in_place].
  - destruct (iop_ip_run (iop rmul) rmul n (_call_in_place v1) (_call_in_place v2)
                f1 f2 k h t lx A pts lo O) as (e & t' & Hrun); auto; [lia|].
    exists (VArr lo), e, t'. exact Hrun.
  - destruct (iop_ip_run idiv_value rdiv n (_call_in_place v1) (_call_in_place v2)
                f1 f2 k h t lx A pts lo O) as (e & t' & Hrun); auto; [lia|].
    exists (VArr lo), e, t'. exact Hrun.
Qed.

(** The quotient of two operands that are not vectorized raises
    [ZeroDivisionError] at a point where the second one is zero. *)
Lemma installed_quotient_raises sp v1 v2 o f1 f2 n k p :
  vectorized E v1 = false -> vectorized E v2 = false ->
  operand_spec E V n v1 f1 -> operand_spec E V n v2 f2 ->
  n + 2 <= k -> reqb (f2 (coords p)) rO = true ->
  raises_at E V k (_call_out_of_place (installed E Quotient sp v1 v2 o))
    (Exn ZeroDivisionError Runtime) p.
Proof.
  intros Hv1 Hv2 H1 H2 Hk Hz h t pv Hat.
  unfold operand_spec in H1, H2. rewrite Hv1 in H1. rewrite Hv2 in H2.
  unfold installed. rewrite Hv1, Hv2. cbn [orb _call_out_of_place].
  destruct k as [|k]; [lia|]. cbn [call call_body].
  unfold quotient_call_out_of_place.
  destruct (div_pt_run n (_call_out_of_place v1) (_call_out_of_place v2)
              f1 f2 k h t pv p) as (t' & Hrun); auto; [lia|].
  exists t'. rewrite Hrun, Hz. reflexivity.
Qed.

End ProductQuotient.

Section MultiplyDivide.
Context {S : Scalar} (E : Env).

(** X3.  [_multiply(x1, x2, out)] stores on [out] closures that evaluate the
    pointwise product: out of place for operands that evaluate [f1] and [f2]
    (on arrays when vectorized, point by point when not, a non-vectorized
    operand being wrapped by [vectorize] when the other is vectorized), and
    in place, through a temporary shaped like the buffer, when both operands
    are vectorized and fill the buffer they are given. *)
Theorem multiply_evaluates (sp : fspace) (x1 x2 out : nat) (v1 v2 o : vector)
    (f1 f2 : list R -> R) (n : nat) (V : list vector) :
  V !! x1 = Some v1 -> V !! x2 = Some v2 -> V !! out = Some o ->
  let r := installed E Product sp v1 v2 o in
  let V' := <[out := r]> V in
  let F := fun p => rmul (f1 p) (f2 p) in
  FunctionSpace__multiply E sp x1 x2 out V = (Ok out, V')
  /\ V' !! out = Some r
  /\ (operand_spec E V' n v1 f1 -> operand_spec E V' n v2 f2 ->
      operand_spec E V' (n + 2) r F)
  /\ (vectorized E v1 = true -> vectorized E v2 = true ->
      vec_ip_spec E V' n (_call_in_place v1) f1 ->
      vec_ip_spec E V' n (_call_in_place v2) f2 ->
      vec_ip_spec E V' (n + 1) (_call_in_place r) F).
Proof.
  intros H1 H2 Ho r V' F. split; [|split; [|split]].
  - unfold FunctionSpace__multiply. now apply binary_operator_result.
  - apply list_lookup_insert_eq. eapply lookup_lt_Some; eauto.
  - intros Hs1 Hs2. apply (installed_bop_oop E V' Product rmul); auto.
  - intros Hv1 Hv2 Hs1 Hs2. apply (installed_bop_ip E V' Product rmul); auto.
Qed.

(** X4.  [_divide(x1, x2, out)] stores on [out] closures that evaluate the
    pointwise quotient [x1(x) / x2(x)].  Where an operand is vectorized the
    division is numpy's, between arrays, out of place and in place, and
    raises nothing.  Where neither is, [quotient_call_out_of_place] divides
    two Python numbers: it returns the quotient at every point when the
    second operand vanishes nowhere, and raises [ZeroDivisionError] at a
    point where the second operand is zero. *)
Theorem divide_evaluates (sp : fspace) (x1 x2 out : nat) (v1 v2 o : vector)
    (f1 f2 : list R -> R) (n : nat) (V : list vector) :
  V !! x1 = Some v1 -> V !! x2 = Some v2 -> V !! out = Some o ->
  let r := installed E Quotient sp v1 v2 o in
  let V' := <[out := r]> V in
  let F := fun p => rdiv (f1 p) (f2 p) in
  FunctionSpace__divide E sp x1 x2 out V = (Ok out, V')
  /\ V' !! out = Some r
  /\ (operand_spec E V' n v1 f1 -> operand_spec E V' n v2 f2 ->
      vectorized E v1 || vectorized E v2 = true
      \/ (forall q, reqb (f2 q) rO = false) ->
      operand_spec E V' (n + 2) r F)
  /\ (vectorized E v1 = false -> vectorized E v2 = false ->
      operand_spec E V' n v1 f1 -> operand_spec E V' n v2 f2 ->
      forall k p, n + 2 <= k -> reqb (f2 (coords p)) rO = true ->
        raises_at E V' k (_call_out_of_place r) (Exn ZeroDivisionError Runtime) p)
  /\ (vectorized E v1 = true -> vectorized E v2 = true ->
      vec_ip_spec E V' n (_call_in_place v1) f1 ->
      vec_ip_spec E V' n (_call_in_place v2) f2 ->
      vec_ip_spec E V' (n + 1) (_call_in_place r) F).
Proof.
  intros H1 H2 Ho r V' F. split; [|split; [|split; [|split]]].
  - unfold FunctionSpace__divide. now apply binary_operator_result.
  - apply list_lookup_insert_eq. eapply lookup_lt_Some; eauto.
  - intros Hs1 Hs2 Hnz. apply (installed_bop_oop E V' Quotient rdiv); auto.
  - intros Hv1 Hv2 Hs1 Hs2 k p Hk Hz.
    now apply (installed_quotient_raises E V' sp v1 v2 o f1 f2 n).
  - intros Hv1 Hv2 Hs1 Hs2. apply (installed_bop_ip E V' Quotient rdiv); auto.
Qed.

(** X5.  When neither operand is vectorized, a binary operator stores the
    module function [_default_in_place] itself as the in-place closure of
    [out], not its wrapping around the vector that [FunctionSetVector.__init__]
    builds (lines 863, 917, 965 against 395).  The result is not vectorized,
    and its raw in-place evaluation [_call(x, out)] raises the [TypeError] of
    a call that leaves the parameter [x] of [_default_in_place(func, x, out)]
    without argument, for every input, buffer and memory. *)
Theorem nonvectorized_result_in_place_raises (op : binop) (sp : fspace)
    (x1 x2 out : nat) (v1 v2 o : vector) (V : list vector) :
  V !! x1 = Some v1 -> V !! x2 = Some v2 -> V !! out = Some o ->
  vectorized E v1 = false -> vectorized E v2 = false ->
  exists r,
    binary_operator E op sp x1 x2 out V = (Ok out, <[out := r]> V)
    /\ _call_in_place r = C_default_in_place
    /\ vectorized E r = false
    /\ forall n x buf m,
         FunctionSetVector__call (call E (<[out := r]> V) (Datatypes.S n)) r x (Some buf) m
         = (Raise (Exn TypeError Runtime), m).
Proof.
  intros H1 H2 Ho Hv1 Hv2. exists (installed E op sp v1 v2 o).
  split; [now apply binary_operator_result|].
  rewrite installed_vectorized, Hv1, Hv2. unfold installed. rewrite Hv1, Hv2.
  cbn [orb _call_in_place]. repeat split.
Qed.

End MultiplyDivide.

(** ** The closures of [_scalar_power] *)

Section PowerClosures.
Context {S : Scalar} (E : Env) (V : list vector).

(** Where the laws of exact arithmetic hold, repeated squaring computes the
    power. *)
Lemma sq_pow_rpow (L : ScalarLaws S) (n : positive) :
  forall v, sq_pow v n = rpow v (Zpos n).
Proof.
  induction n as [n IH|n IH|]; intros v; cbn [sq_pow].
  - rewrite IH. symmetry. apply (rpow_xI L).
  - rewrite IH. symmetry. apply (rpow_xO L).
  - symmetry. apply (rpow_1 L).
Qed.

(** [ipow_posint(x, n)] on an array, with no law of arithmetic used: every
    entry [v] becomes [sq_pow v n], and [copies n] arrays are allocated. *)
Lemma ipow_posint_squares (n : positive) :
  forall (l : nat) (X : ndarray) (h : list ndarray) (t : list nat),
  h !! l = Some X ->
  exists extra,
    ipow_posint (VArr l) n {| heap := h; trace := t |}
    = (Ok (VArr l),
       {| heap := <[l := {| shape := shape X;
                            data := (fun v => sq_pow v n) <$> data X |}]> h ++ extra;
          trace := t |})
    /\ length extra = copies n.
Proof.
  induction n as [n IH|n IH|]; intros l X h t Hl.
  - assert (l < length h) as Hlt by (eapply lookup_lt_Some; eauto).
    cbn [ipow_posint copies].
    assert (np_copy (VArr l) {| heap := h; trace := t |}
            = (Ok (VArr (length h)), {| heap := h ++ [X]; trace := t |})) as Hcopy.
    { unfold np_copy. now rewrite (bind_ok _ _ _ _ _ (load_ok _ _ _ _ Hl)). }
    rewrite (bind_ok _ _ _ _ _ Hcopy).
    assert ((h ++ [X]) !! l = Some X) as Hl1 by (now rewrite lookup_app_l).
    rewrite (bind_ok _ _ _ _ _ (iop_array rmul _ _ _ _ _ t Hl1 Hl1 eq_refl)).
    set (X2 := {| shape := shape X; data := zip_with rmul (data X) (data X) |}).
    destruct (IH l X2 (<[l := X2]> (h ++ [X])) t) as (e & Hrec & He).
    { apply list_lookup_insert_eq. rewrite length_app. lia. }
    rewrite (bind_ok _ _ _ _ _ Hrec). cbn [shape data X2].
    set (Xp := {| shape := shape X;
                  data := (fun v => sq_pow v n) <$> zip_with rmul (data X) (data X) |}).
    assert (<[l := Xp]> (<[l := X2]> (h ++ [X])) ++ e = <[l := Xp]> h ++ ([X] ++ e)) as Hheap.
    { rewrite list_insert_insert_eq, insert_app_l by lia. now rewrite <- app_assoc. }
    rewrite Hheap.
    assert ((<[l := Xp]> h ++ [X] ++ e) !! l = Some Xp) as Hp.
    { rewrite lookup_app_l by (rewrite length_insert; lia).
      now apply list_lookup_insert_eq. }
    assert ((<[l := Xp]> h ++ [X] ++ e) !! length h = Some X) as Hc.
    { rewrite lookup_app_r by (rewrite length_insert; lia).
      rewrite length_insert, Nat.sub_diag. reflexivity. }
    rewrite (bind_ok _ _ _ _ _ (iop_array rmul _ _ _ _ _ t Hp Hc eq_refl)).
    exists ([X] ++ e). split; [|cbn; now rewrite He].
    unfold ret. rewrite insert_app_l by (rewrite length_insert; lia).
    rewrite list_insert_insert_eq. cbn [Xp shape data]. do 5 f_equal.
    rewrite zip_with_diag, <- list_fmap_compose.
    rewrite zip_with_fmap_l, zip_with_diag.
    apply list_fmap_ext. intros _ v _. reflexivity.
  - assert (l < length h) as Hlt by (eapply lookup_lt_Some; eauto).
    cbn [ipow_posint copies].
    rewrite (bind_ok _ _ _ _ _ (iop_array rmul _ _ _ _ _ t Hl Hl eq_refl)).
    set (X2 := {| shape := shape X; data := zip_with rmul (data X) (data X) |}).
    destruct (IH l X2 (<[l := X2]> h) t) as (e & Hrec & He).
    { now apply list_lookup_insert_eq. }
    rewrite Hrec. exists e. split; [|exact He].
    rewrite list_insert_insert_eq. cbn [X2 shape data].
    do 5 f_equal. rewrite zip_with_diag, <- list_fmap_compose.
    apply list_fmap_ext. intros _ v _. reflexivity.
  - exists []. split; [|reflexivity].
    cbn [ipow_posint]. unfold ret. rewrite app_nil_r. do 2 f_equal.
    symmetry. apply list_insert_id. rewrite Hl. f_equal.
    destruct X as [sh d]. cbn. f_equal.
    transitivity (id <$> d); [now rewrite list_fmap_id|].
    apply list_fmap_ext. intros _ v _. reflexivity.
Qed.

(** X6.  [ipow_posint(x, n)] on an array, for every [n >= 1]: it returns the
    array it was given, in which every former entry [v] is replaced by
    [sq_pow v n], the product the squarings and multiplications of the code
    give in the order the code performs them; no law of arithmetic enters,
    so this describes floating-point entries too.  No other array is changed,
    and one copy is allocated for each odd exponent above 1 on the way down,
    none at all when [n] is a power of two.  Where the laws of exact
    arithmetic hold, and only there, [sq_pow v n] is the power [v ** n]. *)
Theorem ipow_posint_in_place (n : positive) (l : nat) (X : ndarray)
    (h : list ndarray) (t : list nat) :
  h !! l = Some X ->
  (exists extra,
     ipow_posint (VArr l) n {| heap := h; trace := t |}
     = (Ok (VArr l),
        {| heap := <[l := {| shape := shape X;
                             data := (fun v => sq_pow v n) <$> data X |}]> h ++ extra;
           trace := t |})
     /\ length extra = copies n)
  /\ (ScalarLaws S -> forall v, sq_pow v n = rpow v (Zpos n)).
Proof.
  intros Hl. split.
  - now apply ipow_posint_squares.
  - intros L. now apply sq_pow_rpow.
Qed.





End PowerClosures.

(** ** [pow_posint] in exact arithmetic *)

Section PowerOutOfPlace.
Context {S : Scalar} (L : ScalarLaws S).


End PowerOutOfPlace.

(** ** The functions [zero] and [one] define *)

Section ZeroOne.
Context {S : Scalar} (L : ScalarLaws S) (E : Env) (V : list vector).

Lemma broadcast_all_scalars n : broadcast_all (replicate n []) = Some [].
Proof. induction n as [|n IH]; [reflexivity|]. cbn. now rewrite IH. Qed.

(** X9.  [zero_vec] and [one_vec] called on a coordinate array of shape
    [(d, N)], [2 <= d <= 32] (the numbers of arguments every version of
    [np.broadcast] takes): the result is a new array of shape [(N,)] filled
    with zeros, respectively ones, whatever the dimension of the domain; the
    input is not changed and no user callable runs. *)
Theorem zero_one_vec_constant (nd k : nat) (A : ndarray) (d N : nat)
    (h : list ndarray) (t : list nat) (lx : nat) :
  shape A = [d; N] -> 2 <= d <= 32 -> h !! lx = Some A ->
  call E V (Datatypes.S k) (Czero_vec nd) (VArr lx) None {| heap := h; trace := t |}
  = (Ok (VArr (length h)),
     {| heap := h ++ [{| shape := [N]; data := replicate N rO |}]; trace := t |})
  /\ call E V (Datatypes.S k) (Cone_vec nd) (VArr lx) None {| heap := h; trace := t |}
     = (Ok (VArr (length h)),
        {| heap := h ++ [{| shape := [N]; data := replicate N rI |}]; trace := t |}).
Proof.
  intros Hs Hd Hx. cbn [call call_body].
  split; apply (const_vec_at _ nd A d N Hs); auto; lia.
Qed.

(** X10.  On a plain array of [N] numbers -- the other form of input for a
    domain on the line -- [zero_vec] and [one_vec] do not return [N] values:
    [np.broadcast] is called on the [N] entries of the array, which are
    scalars, so that the result is an array without axes holding the one
    constant ([2 <= N <= 32]). *)
Theorem zero_one_vec_plain_array (nd k : nat) (A : ndarray) (N : nat)
    (h : list ndarray) (t : list nat) (lx : nat) :
  shape A = [N] -> 2 <= N <= 32 -> h !! lx = Some A ->
  call E V (Datatypes.S k) (Czero_vec nd) (VArr lx) None {| heap := h; trace := t |}
  = (Ok (VArr (length h)), {| heap := h ++ [{| shape := []; data := [rO] |}]; trace := t |})
  /\ call E V (Datatypes.S k) (Cone_vec nd) (VArr lx) None {| heap := h; trace := t |}
     = (Ok (VArr (length h)), {| heap := h ++ [{| shape := []; data := [rI] |}]; trace := t |}).
Proof.
  intros Hs HN Hx. cbn [call call_body].
  assert (forall r, const_vec r nd (VArr lx) {| heap := h; trace := t |}
                    = (Ok (VArr (length h)),
                       {| heap := h ++ [{| shape := []; data := [r] |}]; trace := t |})) as Hc.
  { intros r. unfold const_vec.
    rewrite (bind_ok _ _ _ false {| heap := h; trace := t |}) by reflexivity.
    rewrite (bind_ok _ _ _ [] {| heap := h; trace := t |}); [reflexivity|].
    unfold np_broadcast_shape.
    rewrite (bind_ok _ _ _ (replicate N []) {| heap := h; trace := t |}).
    - rewrite length_replicate.
      replace (32 <? N) with false by (symmetry; apply Nat.ltb_ge; lia).
      now rewrite broadcast_all_scalars.
    - unfold unpack_shapes. rewrite (bind_ok _ _ _ _ _ (load_ok _ _ _ _ Hx)).
      now rewrite Hs. }
  split; apply Hc.
Qed.

(** X11.  The functions that [zero()] and [one()] wrap are the identities of
    the pointwise algebra.  On a coordinate array of shape [(d, N)],
    [2 <= d <= 32], where the closure [c] returns the values of [f] in a new
    array, the closure [_lincomb] builds for [1*c + 1*zero_vec] and the
    closure [_multiply] builds for [c * one_vec] return the values of [f]
    again. *)
Theorem zero_one_are_identities (n : nat) (c : closure) (f : list R -> R) (nd : nat)
    (A : ndarray) (d N : nat) (pts : list point) (k : nat) (h : list ndarray)
    (t : list nat) (lx : nat) :
  vec_oop_at E V n c f A pts -> n <= k -> 1 <= k ->
  shape A = [d; N] -> 2 <= d <= 32 -> input_points A = Some pts ->
  h !! lx = Some A ->
  (exists lo extra t',
      call E V (Datatypes.S k)
        (Cbin_call_out_of_place (Lincomb rI rI) c (Czero_vec nd)) (VArr lx) None
        {| heap := h; trace := t |}
      = (Ok (VArr lo), {| heap := h ++ extra; trace := t' |})
      /\ (h ++ extra) !! lo
         = Some {| shape := [length pts]; data := (fun p => f (coords p)) <$> pts |})
  /\ (exists lo extra t',
         call E V (Datatypes.S k)
           (Cbin_call_out_of_place Product c (Cone_vec nd)) (VArr lx) None
           {| heap := h; trace := t |}
         = (Ok (VArr lo), {| heap := h ++ extra; trace := t' |})
         /\ (h ++ extra) !! lo
            = Some {| shape := [length pts]; data := (fun p => f (coords p)) <$> pts |}).
Proof.
  intros Hc Hk Hk1 Hs Hd Hp Hx. cbn [call call_body].
  apply (zero_one_identities L E V n c f nd A d N pts k h t lx); auto. lia.
Qed.

End ZeroOne.

(** ** The wrappers of [vectorize], further *)

Section Wrappers.
Context {S : Scalar} (E : Env) (V : list vector).

(** The dimension [_vect_wrapper] finds for an input array, and the test it
    then passes. *)
Lemma vect_wrapper_array_branch dt g lx out h t A pts k :
  h !! lx = Some A -> input_points A = Some pts ->
  _vect_wrapper (call E V k) dt g (VArr lx) out {| heap := h; trace := t |}
  = _vect_wrapper_array (call E V k) dt g (VArr lx) out {| heap := h; trace := t |}.
Proof.
  intros Hx Hp.
  destruct (input_points_valid h t lx A pts Hx Hp) as (d & Hd & Hvalid & Hshape).
  unfold _vect_wrapper.
  rewrite (bind_ok _ _ _ d {| heap := h; trace := t |}).
  2:{ rewrite (bind_ok _ _ _ _ _ (load_ok _ _ _ _ Hx)).
      destruct (shape A) as [|a [|b [|c s]]]; try contradiction; now subst d. }
  now rewrite (bind_ok _ _ _ _ _ Hvalid).
Qed.

(** X12.  A function wrapped by [vectorize] with an output parameter and
    called with a buffer: the values are written into the buffer, entry [i]
    from point [i], and the buffer itself is returned; nothing is allocated
    for the result, and [dtype] is not consulted.  The wrapper does not
    compare the buffer with the input: of a buffer longer than the number of
    points the first entries are written and the others kept. *)
Theorem vectorize_fills_buffer (n : nat) (g : closure) (f : list R -> R) (k : nat)
    (oa : outarg) (dt : dtype) (h : list ndarray) (t : list nat) (lx lo : nat)
    (A : ndarray) (pts : list point) (M : nat) (D : list R) :
  pt_spec E V n g f -> n <= k -> oa <> OutNone ->
  h !! lx = Some A -> input_points A = Some pts ->
  h !! lo = Some {| shape := [M]; data := D |} -> lo <> lx ->
  length D = M -> length pts <= M ->
  exists extra t',
    call E V (Datatypes.S k) (Cvect_wrapper oa dt g) (VArr lx) (Some (VArr lo))
         {| heap := h; trace := t |}
    = (Ok (VArr lo),
       {| heap := <[lo := {| shape := [M];
                             data := ((fun p => f (coords p)) <$> pts)
                                       ++ drop (length pts) D |}]> h ++ extra;
          trace := t' |}).
Proof.
  intros Hg Hk Hoa Hx Hp Hlo Hne HD HM.
  assert (call E V (Datatypes.S k) (Cvect_wrapper oa dt g) (VArr lx) (Some (VArr lo))
          = _vect_wrapper (call E V k) dt g (VArr lx) (Some (VArr lo))) as ->.
  { cbn [call call_body]. unfold vect_wrapper. destruct oa; congruence. }
  rewrite (vect_wrapper_array_branch dt g lx (Some (VArr lo)) h t A pts k Hx Hp).
  unfold _vect_wrapper_array.
  rewrite (bind_ok _ _ _ (VArr lo) {| heap := h; trace := t |}) by reflexivity.
  rewrite (bind_ok _ _ _ _ _ (input_points_rows _ _ _ A _ Hx Hp)).
  destruct (fill_loop_spec E V n g f k Hg Hk pts 0 h t lo D M Hlo HD ltac:(lia))
    as (extra & t' & Hfill).
  rewrite Hfill. exists extra, t'. reflexivity.
Qed.

(** X13.  An input without points -- a coordinate array of shape [(d, 0)] --
    gives an empty result: the wrapper returns a new array of shape [(0,)]
    and never calls the wrapped function, whatever that function is. *)
Theorem vectorize_empty_input (g : closure) (k : nat) (oa : outarg) (dt : dtype)
    (h : list ndarray) (t : list nat) (lx : nat) (A : ndarray) (d : nat) :
  oa <> OutPositional -> numeric dt -> 1 <= d ->
  h !! lx = Some A -> shape A = [d; 0] ->
  call E V (Datatypes.S k) (Cvect_wrapper oa dt g) (VArr lx) None
       {| heap := h; trace := t |}
  = (Ok (VArr (length h)),
     {| heap := h ++ [{| shape := [0]; data := [] |}]; trace := t |}).
Proof.
  intros Hoa Hdt Hd Hx Hs.
  pose proof (input_points_columns A d 0 Hs) as Hp. cbn in Hp.
  assert (call E V (Datatypes.S k) (Cvect_wrapper oa dt g) (VArr lx) None
          = _vect_wrapper (call E V k) dt g (VArr lx) None) as ->.
  { cbn [call call_body]. unfold vect_wrapper. destruct oa; congruence. }
  rewrite (vect_wrapper_array_branch dt g lx None h t A [] k Hx Hp).
  destruct (input_points_valid h t lx A [] Hx Hp) as (d' & _ & _ & Hshape).
  unfold _vect_wrapper_array.
  rewrite (bind_ok _ _ _ (VArr (length h))
             {| heap := h ++ [{| shape := [0]; data := [] |}]; trace := t |}).
  2:{ rewrite (bind_ok _ _ _ _ _ Hshape). unfold new_out, np_empty.
      destruct Hdt; subst dt; reflexivity. }
  rewrite (bind_ok _ _ _ [] {| heap := h ++ [{| shape := [0]; data := [] |}]; trace := t |}).
  - reflexivity.
  - apply (input_points_rows _ _ _ A); [|exact Hp].
    rewrite lookup_app_l; [exact Hx|]. eapply lookup_lt_Some; eauto.
Qed.

(** X14.  Inputs [_vect_wrapper] refuses before the wrapped function is
    called or anything is allocated: an array that has neither one nor two
    axes raises [ValueError], and a scalar, which has no length, the
    [TypeError] of [len(x)] -- with or without a buffer, whenever the call
    fits the signature of the wrapper. *)
Theorem vectorize_refuses_input (g : closure) (k : nat) (oa : outarg) (dt : dtype)
    (out : option value) (m : mem) :
  (out = None -> oa <> OutPositional) -> (out <> None -> oa <> OutNone) ->
  (forall lx A, heap m !! lx = Some A -> length (shape A) <> 1 -> length (shape A) <> 2 ->
     call E V (Datatypes.S k) (Cvect_wrapper oa dt g) (VArr lx) out m
     = (Raise (Exn ValueError InvalidInput), m))
  /\ (forall r,
        call E V (Datatypes.S k) (Cvect_wrapper oa dt g) (VNum r) out m
        = (Raise (Exn TypeError Runtime), m)).
Proof.
  intros Hnone Hsome.
  assert (forall x, call E V (Datatypes.S k) (Cvect_wrapper oa dt g) x out
                    = _vect_wrapper (call E V k) dt g x out) as Hw.
  { intros x. cbn [call call_body]. unfold vect_wrapper.
    destruct oa, out; try reflexivity.
    - now destruct Hsome.
    - now destruct Hnone. }
  split.
  - intros lx A Hx H1 H2. rewrite Hw. unfold _vect_wrapper.
    destruct m as [h t]. cbn [heap] in Hx.
    unfold bind at 1. rewrite (bind_ok _ _ _ _ _ (load_ok _ _ _ _ Hx)).
    destruct (shape A) as [|a [|b [|c s]]]; cbn in H1, H2; try lia; reflexivity.
  - intros r. rewrite Hw. reflexivity.
Qed.

(** The loop of [_vect_wrapper_array] with the calls it records. *)
Lemma fill_loop_traced n g f tr k :
  pt_spec_traced E V n g f tr -> n <= k ->
  forall pts i h t lo D N,
    h !! lo = Some {| shape := [N]; data := D |} -> length D = N ->
    i + length pts <= N ->
    exists extra,
      fill_loop (call E V k) g pts i (VArr lo) {| heap := h; trace := t |}
      = (Ok (VArr lo),
         {| heap := <[lo := {| shape := [N];
                               data := take i D ++ ((fun p => f (coords p)) <$> pts)
                                         ++ drop (i + length pts) D |}]> h ++ extra;
            trace := t ++ concat (replicate (length pts) tr) |}).
Proof.
  intros Hg Hk. induction pts as [|p rest IH]; intros i h t lo D N Hlo HD Hi.
  - exists []. cbn [fill_loop fmap list_fmap length replicate concat].
    rewrite Nat.add_0_r, !app_nil_r.
    cbn [app]. rewrite take_drop, list_insert_id; [reflexivity|exact Hlo].
  - cbn [length] in Hi. cbn [fill_loop].
    destruct (point_value_spec p h t) as (pv & e & Hpv & Hat).
    rewrite (bind_ok _ _ _ _ _ Hpv).
    rewrite (bind_ok _ _ _ _ _ (Hg k (h ++ e) t pv p Hk Hat)).
    assert (lo < length h) as Hlt by (eapply lookup_lt_Some; eauto).
    assert ((h ++ e) !! lo = Some {| shape := [N]; data := D |}) as Hlo'
      by (rewrite lookup_app_l; auto).
    rewrite (bind_ok _ _ _ _ _
               (setitem_scalar _ (t ++ tr) _ _ _ i (f (coords p)) Hlo' ltac:(lia))).
    set (D' := take i D ++ [f (coords p)] ++ drop (Datatypes.S i) D).
    assert (length D' = N) as HD'.
    { unfold D'. rewrite !length_app, length_take, length_drop. cbn [length]. lia. }
    edestruct (IH (Datatypes.S i) (<[lo := {| shape := [N]; data := D' |}]> (h ++ e))
                 (t ++ tr) lo D' N) as (extra & Hrest).
    { apply list_lookup_insert_eq. rewrite length_app. lia. }
    { exact HD'. }
    { lia. }
    rewrite Hrest. exists (e ++ extra). f_equal. f_equal.
    + rewrite list_insert_insert_eq, insert_app_l by lia.
      rewrite <- app_assoc. f_equal. f_equal. f_equal.
      unfold D'. cbn [fmap list_fmap].
      rewrite take_app_ge by (rewrite length_take; lia).
      rewrite length_take, Nat.min_l by lia.
      replace (Datatypes.S i - i) with 1 by lia.
      rewrite drop_app_ge by (rewrite length_take; lia).
      rewrite length_take, Nat.min_l by lia.
      replace (Datatypes.S i + length rest - i) with (Datatypes.S (length rest)) by lia.
      cbn [app take drop]. rewrite drop_drop.
      replace (Datatypes.S i + length rest) with (i + Datatypes.S (length rest)) by lia.
      rewrite <- !app_assoc. reflexivity.
    + cbn [length replicate concat]. now rewrite <- app_assoc.
Qed.

(** X15.  The wrapper calls the wrapped function exactly once for each
    point, and not at all otherwise (no trial call to find the type of the
    result): when each call of [g] records the calls [tr], evaluating the
    wrapper on [N] points records [tr] [N] times over. *)
Theorem vectorize_one_call_per_point (n : nat) (g : closure) (f : list R -> R)
    (tr : list nat) (k : nat) (oa : outarg) (dt : dtype) (h : list ndarray)
    (t : list nat) (lx : nat) (A : ndarray) (pts : list point) :
  pt_spec_traced E V n g f tr -> n <= k -> oa <> OutPositional -> numeric dt ->
  h !! lx = Some A -> input_points A = Some pts ->
  exists extra,
    call E V (Datatypes.S k) (Cvect_wrapper oa dt g) (VArr lx) None
         {| heap := h; trace := t |}
    = (Ok (VArr (length h)),
       {| heap := h ++ {| shape := [length pts];
                          data := (fun p => f (coords p)) <$> pts |} :: extra;
          trace := t ++ concat (replicate (length pts) tr) |}).
Proof.
  intros Hg Hk Hoa Hdt Hx Hp.
  destruct (input_points_valid h t lx A pts Hx Hp) as (d & Hd & Hvalid & Hshape).
  assert (call E V (Datatypes.S k) (Cvect_wrapper oa dt g) (VArr lx) None
          = _vect_wrapper (call E V k) dt g (VArr lx) None) as ->.
  { cbn [call call_body]. unfold vect_wrapper. destruct oa; congruence. }
  rewrite (vect_wrapper_array_branch dt g lx None h t A pts k Hx Hp).
  unfold _vect_wrapper_array.
  rewrite (bind_ok _ _ _ (VArr (length h))
             {| heap := h ++ [{| shape := [length pts];
                                 data := replicate (length pts) rjunk |}];
                trace := t |}).
  2:{ rewrite (bind_ok _ _ _ _ _ Hshape). unfold new_out, np_empty.
      rewrite size_1. destruct Hdt; subst dt; reflexivity. }
  rewrite (bind_ok _ _ _ pts
             {| heap := h ++ [{| shape := [length pts];
                                 data := replicate (length pts) rjunk |}];
                trace := t |}).
  2:{ apply (input_points_rows _ _ _ A); [|exact Hp].
      rewrite lookup_app_l; [exact Hx|]. eapply lookup_lt_Some; eauto. }
  edestruct (fill_loop_traced n g f tr k Hg Hk pts 0
               (h ++ [{| shape := [length pts]; data := replicate (length pts) rjunk |}])
               t (length h) (replicate (length pts) rjunk) (length pts))
    as (extra & Hfill).
  { now apply list_lookup_middle. }
  { apply length_replicate. }
  { lia. }
  rewrite Hfill. exists extra. f_equal. f_equal.
  rewrite insert_app_r_alt by lia. rewrite Nat.sub_diag. cbn [insert list_insert app].
  rewrite drop_ge by (rewrite length_replicate; lia).
  rewrite app_nil_r, <- app_assoc. reflexivity.
Qed.

(** The loop of [_vect_wrapper_array] when the function raises at a
    point. *)
Lemma fill_loop_raises g f e k post p :
  raises_at E V k g e p ->
  forall pre i h t lo D N,
    Forall (returns_at E V k g f) pre ->
    h !! lo = Some {| shape := [N]; data := D |} -> length D = N ->
    i + length pre <= N ->
    exists extra t',
      fill_loop (call E V k) g (pre ++ p :: post) i (VArr lo) {| heap := h; trace := t |}
      = (Raise e,
         {| heap := <[lo := {| shape := [N];
                               data := take i D ++ ((fun q => f (coords q)) <$> pre)
                                         ++ drop (i + length pre) D |}]> h ++ extra;
            trace := t' |}).
Proof.
  intros Hp. induction pre as [|q rest IH]; intros i h t lo D N Hpre Hlo HD Hi.
  - cbn [app fill_loop].
    destruct (point_value_spec p h t) as (pv & e0 & Hpv & Hat).
    rewrite (bind_ok _ _ _ _ _ Hpv).
    destruct (Hp (h ++ e0) t pv Hat) as (t' & Hcall).
    exists e0, t'. unfold bind. rewrite Hcall.
    cbn [fmap list_fmap length app]. rewrite Nat.add_0_r, take_drop.
    now rewrite list_insert_id.
  - cbn [length] in Hi. apply Forall_cons in Hpre as [Hq Hrest].
    change ((q :: rest) ++ p :: post) with (q :: (rest ++ p :: post)). cbn [fill_loop].
    destruct (point_value_spec q h t) as (pv & e0 & Hpv & Hat).
    rewrite (bind_ok _ _ _ _ _ Hpv).
    destruct (Hq (h ++ e0) t pv Hat) as (t1 & Hcall).
    rewrite (bind_ok _ _ _ _ _ Hcall).
    assert (lo < length h) as Hlt by (eapply lookup_lt_Some; eauto).
    assert ((h ++ e0) !! lo = Some {| shape := [N]; data := D |}) as Hlo'
      by (rewrite lookup_app_l; auto).
    rewrite (bind_ok _ _ _ _ _ (setitem_scalar _ t1 _ _ _ i (f (coords q)) Hlo' ltac:(lia))).
    set (D' := take i D ++ [f (coords q)] ++ drop (Datatypes.S i) D).
    assert (length D' = N) as HD'.
    { unfold D'. rewrite !length_app, length_take, length_drop. cbn [length]. lia. }
    edestruct (IH (Datatypes.S i) (<[lo := {| shape := [N]; data := D' |}]> (h ++ e0)) t1 lo D' N)
      as (extra & t' & Hrun).
    { exact Hrest. }
    { apply list_lookup_insert_eq. rewrite length_app. lia. }
    { exact HD'. }
    { lia. }
    rewrite Hrun. exists (e0 ++ extra), t'. f_equal. f_equal.
    rewrite list_insert_insert_eq, insert_app_l by lia.
    rewrite <- app_assoc. f_equal. f_equal. f_equal.
    unfold D'. cbn [fmap list_fmap].
    rewrite take_app_ge by (rewrite length_take; lia).
    rewrite length_take, Nat.min_l by lia.
    replace (Datatypes.S i - i) with 1 by lia.
    rewrite drop_app_ge by (rewrite length_take; lia).
    rewrite length_take, Nat.min_l by lia.
    replace (Datatypes.S i + length rest - i) with (Datatypes.S (length rest)) by lia.
    cbn [app take drop]. rewrite drop_drop.
    replace (Datatypes.S i + length rest) with (i + Datatypes.S (length rest)) by lia.
    rewrite <- !app_assoc. reflexivity.
Qed.

(** X16.  The wrapper has no handler: when the wrapped function raises at
    a point, the wrapper raises that exception, and the writes made so far
    stay.  Called with a buffer, it leaves the values of the points before
    the failing one in the buffer and the entries from that point on as they
    were. *)
Theorem vectorize_raises_after_partial_write (g : closure) (f : list R -> R) (e : exn)
    (k : nat) (oa : outarg) (dt : dtype) (h : list ndarray) (t : list nat) (lx lo : nat)
    (A : ndarray) (pre post : list point) (p : point) (M : nat) (D : list R) :
  oa <> OutNone ->
  h !! lx = Some A -> input_points A = Some (pre ++ p :: post) ->
  Forall (returns_at E V k g f) pre -> raises_at E V k g e p ->
  h !! lo = Some {| shape := [M]; data := D |} -> lo <> lx ->
  length D = M -> length pre <= M ->
  exists extra t',
    call E V (Datatypes.S k) (Cvect_wrapper oa dt g) (VArr lx) (Some (VArr lo))
         {| heap := h; trace := t |}
    = (Raise e,
       {| heap := <[lo := {| shape := [M];
                             data := ((fun q => f (coords q)) <$> pre)
                                       ++ drop (length pre) D |}]> h ++ extra;
          trace := t' |}).
Proof.
  intros Hoa Hx Hpts Hpre Hp Hlo Hne HD HM.
  assert (call E V (Datatypes.S k) (Cvect_wrapper oa dt g) (VArr lx) (Some (VArr lo))
          = _vect_wrapper (call E V k) dt g (VArr lx) (Some (VArr lo))) as ->.
  { cbn [call call_body]. unfold vect_wrapper. destruct oa; congruence. }
  rewrite (vect_wrapper_array_branch dt g lx (Some (VArr lo)) h t A _ k Hx Hpts).
  unfold _vect_wrapper_array.
  rewrite (bind_ok _ _ _ (VArr lo) {| heap := h; trace := t |}) by reflexivity.
  rewrite (bind_ok _ _ _ _ _ (input_points_rows _ _ _ A _ Hx Hpts)).
  destruct (fill_loop_raises g f e k post p Hp pre 0 h t lo D M Hpre Hlo HD ltac:(lia))
    as (extra & t' & Hfill).
  rewrite Hfill. exists extra, t'. reflexivity.
Qed.

End Wrappers.

(** ** Evaluation through [__call__], further *)

Section CallProtocol.
Context {S : Scalar} (E : Env) (V : list vector).

(** [__call__] up to the classification of the input, for an input array
    that is passed on as it is: what remains are the bounds check on the
    domain, the evaluation and the checks on the result, with the shape
    [(N,)] expected and [scalar_out] false. *)
Lemma call_classifies rec self (v : vector) lx A pts out chk h t :
  V !! self = Some v ->
  (chk = true -> is_Some (contains_all (domain (_space v)))) ->
  no_element (domain (_space v)) (VArr lx) {| heap := h; trace := t |} ->
  h !! lx = Some A -> input_points A = Some pts ->
  passed_on (ndim (domain (_space v))) A ->
  FunctionSetVector___call__ E V rec self (VArr lx) out chk {| heap := h; trace := t |}
  = (when chk
          (ok <- all_in_set (domain (_space v)) (VArr lx) ;;
           when (negb ok) (raise ValueError OutOfDomain)) ;;;
     out <- match out with
            | None => FunctionSetVector__call rec v (VArr lx) None
            | Some o => ret o
            end ;;
     mismatch <- (if negb (shape_eqb [length pts] [1]) then
                    s <- get_shape out ;; ret (negb (shape_eqb s [length pts]))
                  else ret false) ;;
     (if mismatch then raise ValueError ShapeMismatch
      else
        if vectorized E v then
          when (negb (is_ndarray out)) (raise TypeError TypeConflict) ;;;
          s <- get_shape out ;;
          when (negb (shape_eqb s [length pts])) (raise ValueError ShapeMismatch) ;;;
          FunctionSetVector__call rec v (VArr lx) (Some out) ;;;
          when chk
               (ok <- all_in_set (range (_space v)) out ;;
                when (negb ok) (raise ValueError OutOfRange))
        else raise ValueError InvalidUsage) ;;;
     ret out)%py {| heap := h; trace := t |}.
Proof.
  intros Hv Hcap (Hnot & c & s & Hc & Helem) Hx Hp Hpass. cbn [heap] in Hnot.
  unfold FunctionSetVector___call__.
  unfold bind at 1. unfold lookup_vector. rewrite Hv. cbn [ret].
  rewrite (bind_ok _ _ _ tt {| heap := h; trace := t |}).
  2:{ destruct chk; [|reflexivity]. cbn [andb].
      rewrite bool_decide_eq_true_2 by auto. reflexivity. }
  rewrite (bind_ok _ _ _ false {| heap := h; trace := t |}).
  2:{ unfold in_set. cbn [heap]. now rewrite Hnot. }
  cbn [negb].
  rewrite (bind_ok _ _ _ (VArr lx, Some false) {| heap := h; trace := t |}).
  2:{ unfold try_except. unfold bind at 1. rewrite Helem.
      destruct Hc; subst c; reflexivity. }
  cbn [fst snd].
  destruct (input_points_valid h t lx A pts Hx Hp) as (d & Hd & Hvalid & Hshape).
  assert (d = ndim (domain (_space v))) as ->.
  { unfold passed_on in Hpass.
    destruct (shape A) as [|a [|b [|c' s']]]; try contradiction; [congruence|].
    destruct Hpass. congruence. }
  clear Hd.
  rewrite (bind_ok _ _ _ _ _ Hvalid).
  rewrite (bind_ok _ _ _ (VArr lx, [length pts]) {| heap := h; trace := t |}).
  2:{ unfold passed_on in Hpass. unfold input_points in Hp. unfold get_shape.
      destruct (shape A) as [|a [|b [|c' s']]] eqn:Hs; try contradiction.
      - rewrite Hpass. cbn [Nat.eqb].
        rewrite (bind_ok _ _ _ [a] {| heap := h; trace := t |})
          by (now rewrite (bind_ok _ _ _ _ _ (load_ok _ _ _ _ Hx)), Hs).
        cbn [length Nat.eqb].
        rewrite (bind_ok _ _ _ (VArr lx) {| heap := h; trace := t |}) by reflexivity.
        rewrite (bind_ok _ _ _ [a] {| heap := h; trace := t |})
          by (now rewrite (bind_ok _ _ _ _ _ (load_ok _ _ _ _ Hx)), Hs).
        destruct (decide _) as [Hl|]; [|discriminate]. inversion Hp.
        now rewrite length_fmap, Hl.
      - destruct Hpass as [-> Hne].
        apply Nat.eqb_neq in Hne. rewrite Hne.
        rewrite (bind_ok _ _ _ [ndim (domain (_space v)); b] {| heap := h; trace := t |})
          by (now rewrite (bind_ok _ _ _ _ _ (load_ok _ _ _ _ Hx)), Hs).
        inversion Hp. cbn [nth]. now rewrite length_fmap, length_seq. }
  reflexivity.
Qed.

(** The evaluation into a supplied buffer of the expected shape, up to the
    bounds check on the result; [b] is the answer of the range to the values
    written. *)
Lemma call_in_place_run n k self (v : vector) (f : list R -> R) lx A pts lo O chk b h t :
  V !! self = Some v -> vectorized E v = true ->
  vec_ip_spec E V n (_call_in_place v) f -> n <= k ->
  no_element (domain (_space v)) (VArr lx) {| heap := h; trace := t |} ->
  h !! lx = Some A -> input_points A = Some pts ->
  passed_on (ndim (domain (_space v))) A ->
  h !! lo = Some O -> lo <> lx ->
  shape O = [length pts] -> length (data O) = length pts ->
  (chk = true ->
   bulk_test (domain (_space v)) A true
   /\ bulk_test (range (_space v))
        {| shape := [length pts]; data := (fun p => f (coords p)) <$> pts |} b) ->
  exists extra t',
    FunctionSetVector___call__ E V (call E V k) self (VArr lx) (Some (VArr lo)) chk
      {| heap := h; trace := t |}
    = (if chk && negb b then Raise (Exn ValueError OutOfRange) else Ok (VArr lo),
       {| heap := <[lo := {| shape := [length pts];
                             data := (fun p => f (coords p)) <$> pts |}]> h ++ extra;
          trace := t' |}).
Proof.
  intros Hv Hvect Hip Hk Hno Hx Hp Hpass Hlo Hne HsO HdO Hchk.
  assert (chk = true -> is_Some (contains_all (domain (_space v)))) as Hcap.
  { intros ->. destruct (Hchk eq_refl) as [(fs & -> & _) _]. now eexists. }
  rewrite (call_classifies _ self v lx A pts _ chk h t Hv Hcap Hno Hx Hp Hpass).
  assert (lo < length h) as Hlt by (eapply lookup_lt_Some; eauto).
  rewrite (bind_ok _ _ _ tt {| heap := h; trace := t |}).
  2:{ destruct chk; [|reflexivity]. destruct (Hchk eq_refl) as [(fs & Hfs & Hall) _].
      unfold when at 1. unfold all_in_set. rewrite Hfs. unfold bind at 1. cbn [heap].
      now rewrite (Hall h lx Hx). }
  rewrite (bind_ok _ _ _ (VArr lo) {| heap := h; trace := t |}) by reflexivity.
  assert (get_shape (VArr lo) {| heap := h; trace := t |}
          = (Ok [length pts], {| heap := h; trace := t |})) as Hget.
  { unfold get_shape. now rewrite (bind_ok _ _ _ _ _ (load_ok _ _ _ _ Hlo)), HsO. }
  rewrite (bind_ok _ _ _ false {| heap := h; trace := t |}).
  2:{ destruct (negb (shape_eqb [length pts] [1])); [|reflexivity].
      rewrite (bind_ok _ _ _ _ _ Hget). unfold shape_eqb.
      now rewrite bool_decide_eq_true_2. }
  rewrite Hvect. cbn [is_ndarray negb when].
  destruct (Hip k h t lx A pts lo O Hk Hx Hp Hlo Hne HsO HdO) as (r & e & t' & Hrun).
  set (Y := {| shape := [length pts]; data := (fun p => f (coords p)) <$> pts |}) in *.
  cbv iota. exists e, t'.
  set (M' := {| heap := <[lo := Y]> h ++ e; trace := t' |}).
  assert ((ret tt ;;;
           s <- get_shape (VArr lo) ;;
           when (negb (shape_eqb s [length pts])) (raise ValueError ShapeMismatch) ;;;
           FunctionSetVector__call (call E V k) v (VArr lx) (Some (VArr lo)) ;;;
           when chk
             (ok <- all_in_set (range (_space v)) (VArr lo) ;;
              when (negb ok) (raise ValueError OutOfRange)))%py
            {| heap := h; trace := t |}
          = (if chk && negb b then Raise (Exn ValueError OutOfRange) else Ok tt, M'))
    as Hinner.
  { rewrite (bind_ok _ _ _ tt {| heap := h; trace := t |}) by reflexivity.
    rewrite (bind_ok _ _ _ _ _ Hget).
    rewrite (bind_ok _ _ _ tt {| heap := h; trace := t |})
      by (unfold shape_eqb; now rewrite bool_decide_eq_true_2).
    rewrite (bind_ok _ _ _ (VArr lo) M')
      by (unfold FunctionSetVector__call; now rewrite (bind_ok _ _ _ _ _ Hrun)).
    destruct chk; [|reflexivity]. destruct (Hchk eq_refl) as [_ (fs & Hfs & Hall)].
    unfold when at 1. unfold all_in_set. rewrite Hfs. unfold bind at 1. cbn [heap M'].
    rewrite (Hall (<[lo := Y]> h ++ e) lo).
    - now destruct b.
    - rewrite lookup_app_l by (rewrite length_insert; lia).
      now apply list_lookup_insert_eq. }
  unfold bind at 1. rewrite Hinner. now destruct (chk && negb b).
Qed.

(** X17.  The bounds check asked for (the default) on a domain that has no
    [contains_all]: [__call__] raises [AttributeError] at once, whatever the
    input and the buffer -- before the input is classified or any closure
    called. *)
Theorem call_missing_capability (k self : nat) (v : vector) (x : value)
    (out : option value) (m : mem) :
  V !! self = Some v -> contains_all (domain (_space v)) = None ->
  evaluate E V k self x out true m = (Raise (Exn AttributeError MissingCapability), m).
Proof.
  intros Hv Hnone. unfold evaluate, FunctionSetVector___call__.
  unfold bind at 1. unfold lookup_vector. rewrite Hv. cbn [ret].
  rewrite Hnone. reflexivity.
Qed.

(** X18.  An input that is neither a valid coordinate array nor a valid
    meshgrid for the domain is refused with [TypeError] before any closure
    is called: the memory is left as it was.  This holds whether the input
    is an element of the domain or the domain cannot make one of it. *)
Theorem call_invalid_input (k self : nat) (v : vector) (x : value)
    (out : option value) (chk : bool) (m : mem) :
  V !! self = Some v ->
  (chk = true -> is_Some (contains_all (domain (_space v)))) ->
  contains (domain (_space v)) x (heap m) = true \/ no_element (domain (_space v)) x m ->
  is_valid_input_array x (ndim (domain (_space v))) m = (Ok false, m) ->
  is_valid_input_meshgrid x (ndim (domain (_space v))) m = (Ok false, m) ->
  evaluate E V k self x out chk m = (Raise (Exn TypeError InvalidInput), m).
Proof.
  intros Hv Hcap Hdom Harr Hmg. unfold evaluate, FunctionSetVector___call__.
  unfold bind at 1. unfold lookup_vector. rewrite Hv. cbn [ret].
  rewrite (bind_ok _ _ _ tt m).
  2:{ destruct chk; [|reflexivity]. cbn [andb].
      rewrite bool_decide_eq_true_2 by auto. reflexivity. }
  assert (exists so,
             (is_elem <- in_set (domain (_space v)) x ;;
              if negb is_elem then
                try_except
                  (x1 <- element (domain (_space v)) x ;;
                   x2 <- atleast_2d_T x1 ;;
                   ret (x2, Some (bool_decide (out = None))))
                  (ret (x, Some false))
              else ret (x, None))%py m = (Ok (x, so), m)) as (so & Hcls).
  { destruct Hdom as [Hin|(Hnot & c & s & Hc & Helem)].
    - exists None. unfold in_set, bind. now rewrite Hin.
    - exists (Some false). unfold in_set. unfold bind at 1. rewrite Hnot. cbn [negb].
      unfold try_except. unfold bind at 1. rewrite Helem.
      destruct Hc; subst c; reflexivity. }
  rewrite <- bind_assoc. rewrite (bind_ok _ _ _ _ _ Hcls). cbn [fst snd].
  rewrite (bind_ok _ _ _ _ _ Harr).
  unfold bind at 1. unfold bind at 1. now rewrite Hmg.
Qed.

(** X19.  With the bounds check on, an input array holding a point that the
    domain does not contain is refused with [ValueError] (out of domain)
    before any closure is called, with or without a buffer: the memory, the
    trace of calls included, is left as it was. *)
Theorem call_out_of_domain (k self : nat) (v : vector) (lx : nat) (A : ndarray)
    (pts : list point) (out : option value) (h : list ndarray) (t : list nat) :
  V !! self = Some v ->
  no_element (domain (_space v)) (VArr lx) {| heap := h; trace := t |} ->
  h !! lx = Some A -> input_points A = Some pts ->
  passed_on (ndim (domain (_space v))) A ->
  bulk_test (domain (_space v)) A false ->
  evaluate E V k self (VArr lx) out true {| heap := h; trace := t |}
  = (Raise (Exn ValueError OutOfDomain), {| heap := h; trace := t |}).
Proof.
  intros Hv Hno Hx Hp Hpass (fs & Hfs & Hall). unfold evaluate.
  assert (true = true -> is_Some (contains_all (domain (_space v)))) as Hcap.
  { intros _. rewrite Hfs. now eexists. }
  rewrite (call_classifies _ self v lx A pts _ true h t Hv Hcap Hno Hx Hp Hpass).
  unfold bind at 1. unfold when at 1. unfold all_in_set. rewrite Hfs.
  unfold bind at 1. cbn [heap]. now rewrite (Hall h lx Hx).
Qed.

(** X20.  A buffer whose shape is not the one expected from the input is
    refused with [ValueError] (shape mismatch) before the in-place closure is
    called: the buffer is not written and the memory is left as it was. *)
Theorem call_wrong_buffer_shape (k self : nat) (v : vector) (lx lo : nat)
    (A O : ndarray) (pts : list point) (chk : bool) (h : list ndarray) (t : list nat) :
  V !! self = Some v -> vectorized E v = true ->
  no_element (domain (_space v)) (VArr lx) {| heap := h; trace := t |} ->
  h !! lx = Some A -> input_points A = Some pts ->
  passed_on (ndim (domain (_space v))) A ->
  (chk = true -> bulk_test (domain (_space v)) A true) ->
  h !! lo = Some O -> shape O <> [length pts] ->
  evaluate E V k self (VArr lx) (Some (VArr lo)) chk {| heap := h; trace := t |}
  = (Raise (Exn ValueError ShapeMismatch), {| heap := h; trace := t |}).
Proof.
  intros Hv Hvect Hno Hx Hp Hpass Hchk Hlo HsO. unfold evaluate.
  assert (chk = true -> is_Some (contains_all (domain (_space v)))) as Hcap.
  { intros ->. destruct (Hchk eq_refl) as (fs & -> & _). now eexists. }
  rewrite (call_classifies _ self v lx A pts _ chk h t Hv Hcap Hno Hx Hp Hpass).
  rewrite (bind_ok _ _ _ tt {| heap := h; trace := t |}).
  2:{ destruct chk; [|reflexivity]. destruct (Hchk eq_refl) as (fs & Hfs & Hall).
      unfold when at 1. unfold all_in_set. rewrite Hfs. unfold bind at 1. cbn [heap].
      now rewrite (Hall h lx Hx). }
  rewrite (bind_ok _ _ _ (VArr lo) {| heap := h; trace := t |}) by reflexivity.
  assert (get_shape (VArr lo) {| heap := h; trace := t |}
          = (Ok (shape O), {| heap := h; trace := t |})) as Hget.
  { unfold get_shape. now rewrite (bind_ok _ _ _ _ _ (load_ok _ _ _ _ Hlo)). }
  destruct (negb (shape_eqb [length pts] [1])).
  - rewrite (bind_ok _ _ _ true {| heap := h; trace := t |}); [reflexivity|].
    rewrite (bind_ok _ _ _ _ _ Hget). unfold shape_eqb.
    now rewrite bool_decide_eq_false_2.
  - rewrite (bind_ok _ _ _ false {| heap := h; trace := t |}) by reflexivity.
    rewrite Hvect. cbn [is_ndarray negb when]. cbv iota.
    unfold bind at 1.
    rewrite (bind_ok _ _ _ tt {| heap := h; trace := t |}) by reflexivity.
    rewrite (bind_ok _ _ _ _ _ Hget). unfold shape_eqb.
    rewrite bool_decide_eq_false_2 by exact HsO. reflexivity.
Qed.

(** X21.  Evaluation into a buffer of the expected shape, for a vectorized
    vector whose in-place closure fills the buffer it is given: [__call__]
    returns the buffer itself, holding the values of the function at the
    points of the input, and changes no other array.  With the bounds check
    on, the domain and the range have to accept the points and the values;
    with the check off, neither is consulted (the domain need not even have
    a [contains_all]). *)
Theorem evaluation_into_buffer (n k self : nat) (v : vector) (f : list R -> R)
    (lx lo : nat) (A O : ndarray) (pts : list point) (chk : bool)
    (h : list ndarray) (t : list nat) :
  V !! self = Some v -> vectorized E v = true ->
  vec_ip_spec E V n (_call_in_place v) f -> n <= k ->
  no_element (domain (_space v)) (VArr lx) {| heap := h; trace := t |} ->
  h !! lx = Some A -> input_points A = Some pts ->
  passed_on (ndim (domain (_space v))) A ->
  h !! lo = Some O -> lo <> lx ->
  shape O = [length pts] -> length (data O) = length pts ->
  (chk = true ->
   bulk_test (domain (_space v)) A true
   /\ bulk_test (range (_space v))
        {| shape := [length pts]; data := (fun p => f (coords p)) <$> pts |} true) ->
  exists extra t',
    evaluate E V k self (VArr lx) (Some (VArr lo)) chk {| heap := h; trace := t |}
    = (Ok (VArr lo),
       {| heap := <[lo := {| shape := [length pts];
                             data := (fun p => f (coords p)) <$> pts |}]> h ++ extra;
          trace := t' |}).
Proof.
  intros Hv Hvect Hip Hk Hno Hx Hp Hpass Hlo Hne HsO HdO Hchk.
  destruct (call_in_place_run n k self v f lx A pts lo O chk true h t)
    as (e & t' & Hrun); auto.
  exists e, t'. unfold evaluate. rewrite Hrun. now rewrite andb_false_r.
Qed.

(** X22.  On the in-place path the bounds check on the range comes after
    the evaluation: when the values leave the range, [__call__] raises
    [ValueError] (out of range), and the buffer of the caller already holds
    those values. *)
Theorem call_out_of_range_after_write (n k self : nat) (v : vector) (f : list R -> R)
    (lx lo : nat) (A O : ndarray) (pts : list point)
    (h : list ndarray) (t : list nat) :
  V !! self = Some v -> vectorized E v = true ->
  vec_ip_spec E V n (_call_in_place v) f -> n <= k ->
  no_element (domain (_space v)) (VArr lx) {| heap := h; trace := t |} ->
  h !! lx = Some A -> input_points A = Some pts ->
  passed_on (ndim (domain (_space v))) A ->
  h !! lo = Some O -> lo <> lx ->
  shape O = [length pts] -> length (data O) = length pts ->
  bulk_test (domain (_space v)) A true ->
  bulk_test (range (_space v))
    {| shape := [length pts]; data := (fun p => f (coords p)) <$> pts |} false ->
  exists extra t',
    evaluate E V k self (VArr lx) (Some (VArr lo)) true {| heap := h; trace := t |}
    = (Raise (Exn ValueError OutOfRange),
       {| heap := <[lo := {| shape := [length pts];
                             data := (fun p => f (coords p)) <$> pts |}]> h ++ extra;
          trace := t' |}).
Proof.
  intros Hv Hvect Hip Hk Hno Hx Hp Hpass Hlo Hne HsO HdO Hdom Hrng.
  destruct (call_in_place_run n k self v f lx A pts lo O true false h t)
    as (e & t' & Hrun); auto.
  exists e, t'. unfold evaluate. now rewrite Hrun.
Qed.

(** X23.  A buffer given to a vector that is not vectorized: [__call__]
    raises [ValueError] ("output parameter can only be specified for
    vectorized functions") without calling a closure, although the buffer
    has the expected shape; the memory is left as it was. *)
Theorem call_buffer_needs_vectorized (k self : nat) (v : vector) (lx lo : nat)
    (A O : ndarray) (pts : list point) (chk : bool) (h : list ndarray) (t : list nat) :
  V !! self = Some v -> vectorized E v = false ->
  no_element (domain (_space v)) (VArr lx) {| heap := h; trace := t |} ->
  h !! lx = Some A -> input_points A = Some pts ->
  passed_on (ndim (domain (_space v))) A ->
  (chk = true -> bulk_test (domain (_space v)) A true) ->
  h !! lo = Some O -> shape O = [length pts] ->
  evaluate E V k self (VArr lx) (Some (VArr lo)) chk {| heap := h; trace := t |}
  = (Raise (Exn ValueError InvalidUsage), {| heap := h; trace := t |}).
Proof.
  intros Hv Hvect Hno Hx Hp Hpass Hchk Hlo HsO. unfold evaluate.
  assert (chk = true -> is_Some (contains_all (domain (_space v)))) as Hcap.
  { intros ->. destruct (Hchk eq_refl) as (fs & -> & _). now eexists. }
  rewrite (call_classifies _ self v lx A pts _ chk h t Hv Hcap Hno Hx Hp Hpass).
  rewrite (bind_ok _ _ _ tt {| heap := h; trace := t |}).
  2:{ destruct chk; [|reflexivity]. destruct (Hchk eq_refl) as (fs & Hfs & Hall).
      unfold when at 1. unfold all_in_set. rewrite Hfs. unfold bind at 1. cbn [heap].
      now rewrite (Hall h lx Hx). }
  rewrite (bind_ok _ _ _ (VArr lo) {| heap := h; trace := t |}) by reflexivity.
  assert (get_shape (VArr lo) {| heap := h; trace := t |}
          = (Ok [length pts], {| heap := h; trace := t |})) as Hget.
  { unfold get_shape. now rewrite (bind_ok _ _ _ _ _ (load_ok _ _ _ _ Hlo)), HsO. }
  rewrite (bind_ok _ _ _ false {| heap := h; trace := t |}).
  2:{ destruct (negb (shape_eqb [length pts] [1])); [|reflexivity].
      rewrite (bind_ok _ _ _ _ _ Hget). unfold shape_eqb.
      now rewrite bool_decide_eq_true_2. }
  rewrite Hvect. reflexivity.
Qed.

(** X24.  The test for [contains_all] at the head of [__call__] looks at
    the domain only.  When the range has no such method, an evaluation into
    a buffer with the bounds check on runs the in-place closure first and
    then raises the [AttributeError] of the missing method: the buffer of
    the caller holds the values already. *)
Theorem call_range_without_bulk_test (n k self : nat) (v : vector) (f : list R -> R)
    (lx lo : nat) (A O : ndarray) (pts : list point)
    (h : list ndarray) (t : list nat) :
  V !! self = Some v -> vectorized E v = true ->
  vec_ip_spec E V n (_call_in_place v) f -> n <= k ->
  no_element (domain (_space v)) (VArr lx) {| heap := h; trace := t |} ->
  h !! lx = Some A -> input_points A = Some pts ->
  passed_on (ndim (domain (_space v))) A ->
  h !! lo = Some O -> lo <> lx ->
  shape O = [length pts] -> length (data O) = length pts ->
  bulk_test (domain (_space v)) A true ->
  contains_all (range (_space v)) = None ->
  exists extra t',
    evaluate E V k self (VArr lx) (Some (VArr lo)) true {| heap := h; trace := t |}
    = (Raise (Exn AttributeError Runtime),
       {| heap := <[lo := {| shape := [length pts];
                             data := (fun p => f (coords p)) <$> pts |}]> h ++ extra;
          trace := t' |}).
Proof.
  intros Hv Hvect Hip Hk Hno Hx Hp Hpass Hlo Hne HsO HdO (fs & Hfs & Hall) Hrng.
  unfold evaluate.
  assert (true = true -> is_Some (contains_all (domain (_space v)))) as Hcap.
  { intros _. rewrite Hfs. now eexists. }
  rewrite (call_classifies _ self v lx A pts _ true h t Hv Hcap Hno Hx Hp Hpass).
  rewrite (bind_ok _ _ _ tt {| heap := h; trace := t |}).
  2:{ unfold when at 1. unfold all_in_set. rewrite Hfs. unfold bind at 1. cbn [heap].
      now rewrite (Hall h lx Hx). }
  rewrite (bind_ok _ _ _ (VArr lo) {| heap := h; trace := t |}) by reflexivity.
  assert (get_shape (VArr lo) {| heap := h; trace := t |}
          = (Ok [length pts], {| heap := h; trace := t |})) as Hget.
  { unfold get_shape. now rewrite (bind_ok _ _ _ _ _ (load_ok _ _ _ _ Hlo)), HsO. }
  rewrite (bind_ok _ _ _ false {| heap := h; trace := t |}).
  2:{ destruct (negb (shape_eqb [length pts] [1])); [|reflexivity].
      rewrite (bind_ok _ _ _ _ _ Hget). unfold shape_eqb.
      now rewrite bool_decide_eq_true_2. }
  rewrite Hvect. cbn [is_ndarray negb when]. cbv iota.
  destruct (Hip k h t lx A pts lo O Hk Hx Hp Hlo Hne HsO HdO) as (r & e & t' & Hrun).
  exists e, t'. unfold bind at 1.
  rewrite (bind_ok _ _ _ tt {| heap := h; trace := t |}) by reflexivity.
  rewrite (bind_ok _ _ _ _ _ Hget).
  rewrite (bind_ok _ _ _ tt {| heap := h; trace := t |})
    by (unfold shape_eqb; now rewrite bool_decide_eq_true_2).
  rewrite (bind_ok _ _ _ (VArr lo) _)
    by (unfold FunctionSetVector__call; now rewrite (bind_ok _ _ _ _ _ Hrun)).
  unfold all_in_set. rewrite Hrng. reflexivity.
Qed.

End CallProtocol.

(** ** The default out-of-place evaluator *)

Section DefaultOutOfPlace.
Context {S : Scalar} (E : Env) (V : list vector).

(** X25.  [_default_out_of_place(func, dtype, x)], the out-of-place
    evaluator that lines 1064-1074 give to a vector wrapped from an
    in-place-only callable: on an input array it allocates a buffer of the
    shape inferred from the input, has the vector evaluate into it (bounds
    check on) and returns the buffer -- a new array, at the first free
    location, holding the values of the function; the input is not
    changed. *)
Theorem default_out_of_place_evaluates (n k self : nat) (v : vector) (f : list R -> R)
    (dt : dtype) (lx : nat) (A : ndarray) (pts : list point)
    (h : list ndarray) (t : list nat) :
  V !! self = Some v -> vectorized E v = true ->
  vec_ip_spec E V n (_call_in_place v) f -> n <= k -> numeric dt ->
  (forall m, no_element (domain (_space v)) (VArr lx) m) ->
  h !! lx = Some A -> input_points A = Some pts ->
  passed_on (ndim (domain (_space v))) A ->
  bulk_test (domain (_space v)) A true ->
  bulk_test (range (_space v))
    {| shape := [length pts]; data := (fun p => f (coords p)) <$> pts |} true ->
  exists extra t',
    call E V (Datatypes.S k) (Coop_wrapper self dt) (VArr lx) None
         {| heap := h; trace := t |}
    = (Ok (VArr (length h)),
       {| heap := h ++ {| shape := [length pts];
                          data := (fun p => f (coords p)) <$> pts |} :: extra;
          trace := t' |}).
Proof.
  intros Hv Hvect Hip Hk Hdt Hno Hx Hp Hpass Hdom Hrng.
  cbn [call call_body]. unfold _default_out_of_place.
  unfold bind at 1. unfold lookup_vector. rewrite Hv. cbn [ret].
  destruct (input_points_valid h t lx A pts Hx Hp) as (d & Hd & Hvalid & Hshape).
  assert (d = ndim (domain (_space v))) as ->.
  { unfold passed_on in Hpass.
    destruct (shape A) as [|a [|b [|c' s']]]; try contradiction; [congruence|].
    destruct Hpass. congruence. }
  rewrite (bind_ok _ _ _ _ _ Hvalid).
  rewrite (bind_ok _ _ _ _ _ Hshape).
  set (B := {| shape := [length pts]; data := replicate (length pts) rjunk |}).
  rewrite (bind_ok _ _ _ (VArr (length h)) {| heap := h ++ [B]; trace := t |}).
  2:{ unfold np_empty. rewrite size_1. destruct Hdt; subst dt; reflexivity. }
  assert (lx < length h) as Hxlt by (eapply lookup_lt_Some; eauto).
  destruct (call_in_place_run E V n k self v f lx A pts (length h) B true true
              (h ++ [B]) t) as (e & t' & Hrun); auto.
  - now rewrite lookup_app_l.
  - now apply list_lookup_middle.
  - lia.
  - apply length_replicate.
  - rewrite (bind_ok _ _ _ _ _ Hrun). exists e, t'. unfold ret. do 2 f_equal.
    rewrite insert_app_r_alt by lia. rewrite Nat.sub_diag. cbn [insert list_insert].
    now rewrite <- app_assoc.
Qed.

End DefaultOutOfPlace.

(** ** Assignment and equality of vectors *)

Section AssignEqual.
Context {S : Scalar} (L : ScalarLaws S) (E : Env).

Lemma reqb_refl (a : R) : reqb a a = true.
Proof. now apply (sl_eqb S L). Qed.

Lemma closure_eqb_refl (c : closure) : closure_eqb c c = true.
Proof.
  induction c as [id| | |i|i dt|oa dt c IH|dt oa|i| |i| |i|op c1 IH1 c2 IH2
                 |op c1 IH1 c1i IH1i c2 IH2 c2i IH2i|p c IH|p c IH ci IHi];
    cbn [closure_eqb];
    rewrite ?Nat.eqb_refl, ?Z.eqb_refl, ?bool_decide_eq_true_2 by reflexivity;
    rewrite ?IH, ?IH1, ?IH2, ?IH1i, ?IH2i, ?IHi; try reflexivity;
    destruct op; cbn [binop_eqb andb]; rewrite ?reqb_refl; reflexivity.
Qed.

Lemma pset_eqb_sym (a b : pset) : pset_eqb a b = pset_eqb b a.
Proof. unfold pset_eqb. apply Nat.eqb_sym. Qed.

(** X26.  [vec.assign(other)], for a vector [other] of the space of [vec]
    (both spaces of one class): the closures, the calling-convention flags
    and the vectorization flag of [other] are stored on [vec]; [vec] keeps
    its space, no other vector is changed, and afterwards [vec == other] and
    [other == vec] evaluate to [True] -- what the method is written for. *)
Theorem assign_then_equal (self other : nat) (s o : vector) (V : list vector) :
  V !! self = Some s -> V !! other = Some o ->
  FunctionSet___contains__ (_space s) o = true ->
  sp_class (_space o) = sp_class (_space s) ->
  exists s',
    FunctionSetVector_assign E self other V = (Ok tt, <[self := s']> V)
    /\ _space s' = _space s
    /\ _call_in_place s' = _call_in_place o
    /\ _call_out_of_place s' = _call_out_of_place o
    /\ vectorized E s' = vectorized E o
    /\ FunctionSetVector___eq__ E self other (<[self := s']> V)
       = (Ok true, <[self := s']> V)
    /\ FunctionSetVector___eq__ E other self (<[self := s']> V)
       = (Ok true, <[self := s']> V).
Proof.
  intros Hs Ho Hin Hcls.
  eexists. split; [now apply (assign_transfers E self other s o V)|].
  cbn [_space _call_in_place _call_out_of_place].
  split; [reflexivity|]. split; [reflexivity|]. split; [reflexivity|].
  split; [reflexivity|].
  assert (self < length V) as Hlt by (eapply lookup_lt_Some; eauto).
  assert (fspace_eqb (_space s) (_space o) = true) as Heq.
  { unfold FunctionSet___contains__ in Hin.
    destruct (sp_class (_space s)), (v_class o); congruence. }
  assert (fspace_eqb (_space o) (_space s) = true) as Heq'.
  { unfold fspace_eqb in *. rewrite Hcls in *.
    rewrite (pset_eqb_sym (domain (_space o))), (pset_eqb_sym (range (_space o))).
    destruct (sp_class (_space s)); exact Heq. }
  unfold FunctionSetVector___eq__.
  destruct (Nat.eqb_spec self other) as [->|Hne].
  - rewrite Nat.eqb_refl. split; reflexivity.
  - assert ((other =? self) = false) as -> by (apply Nat.eqb_neq; congruence).
    assert (forall w : vector, eqb (vectorized E w) (vectorized E w) = true) as Hvv
      by (intros w; apply eqb_reflx).
    split; unfold get_vector, bind.
    + rewrite list_lookup_insert_eq by exact Hlt.
      rewrite list_lookup_insert_ne by exact Hne. rewrite Ho.
      cbn [_call_has_out _call_out_optional _call_in_place _call_out_of_place _space].
      rewrite !eqb_reflx. cbn [negb orb].
      change (vectorized E {| v_class := v_class s; _space := _space s;
                              _call_in_place := _call_in_place o;
                              _call_out_of_place := _call_out_of_place o;
                              _call_has_out := _call_has_out o;
                              _call_out_optional := _call_out_optional o;
                              _vectorized := Some (vectorized E o) |})
        with (vectorized E o).
      rewrite ?Hvv, Heq, !closure_eqb_refl. now destruct (_call_has_out o).
    + rewrite list_lookup_insert_ne by exact Hne. rewrite Ho.
      rewrite list_lookup_insert_eq by exact Hlt.
      cbn [_call_has_out _call_out_optional _call_in_place _call_out_of_place _space].
      rewrite !eqb_reflx. cbn [negb orb].
      change (vectorized E {| v_class := v_class s; _space := _space s;
                              _call_in_place := _call_in_place o;
                              _call_out_of_place := _call_out_of_place o;
                              _call_has_out := _call_has_out o;
                              _call_out_optional := _call_out_optional o;
                              _vectorized := Some (vectorized E o) |})
        with (vectorized E o).
      rewrite ?Hvv, Heq', !closure_eqb_refl. now destruct (_call_has_out o).
Qed.

End AssignEqual.

(** ** An operator followed by an evaluation *)

Section OperatorThenCall.
Context {S : Scalar} (L : ScalarLaws S) (E : Env).

Lemma installed_ip_spec op sp v1 v2 o f1 f2 n V :
  vectorized E v1 = true -> vectorized E v2 = true ->
  vec_ip_spec E V n (_call_in_place v1) f1 ->
  vec_ip_spec E V n (_call_in_place v2) f2 ->
  vec_ip_spec E V (n + 1) (_call_in_place (installed E op sp v1 v2 o))
    (fun p => binop_fun op (f1 p) (f2 p)).
Proof.
  intros Hv1 Hv2 H1 H2. destruct op as [a b| |]; cbn [binop_fun].
  - now apply installed_lincomb_ip.
  - apply (installed_bop_ip E V Product rmul); auto.
  - apply (installed_bop_ip E V Quotient rdiv); auto.
Qed.

(** X27.  A binary operator of the space followed by an evaluation into a
    buffer.  For vectorized operands whose in-place closures fill the buffer
    they are given with the values of [f1] and [f2], the vector that
    [_lincomb], [_multiply] or [_divide] has stored on [out], called through
    [__call__] with an input array and a buffer of the expected shape,
    returns that buffer holding [a*f1 + b*f2], [f1 * f2] or [f1 / f2] at the
    points of the input; no other array that existed is changed. *)
Theorem operator_result_in_place (op : binop) (sp : fspace) (x1 x2 out : nat)
    (v1 v2 o : vector) (f1 f2 : list R -> R) (n k : nat) (V : list vector)
    (lx lo : nat) (A O : ndarray) (pts : list point) (chk : bool)
    (h : list ndarray) (t : list nat) :
  V !! x1 = Some v1 -> V !! x2 = Some v2 -> V !! out = Some o ->
  vectorized E v1 = true -> vectorized E v2 = true ->
  let V' := <[out := installed E op sp v1 v2 o]> V in
  let Y := {| shape := [length pts];
              data := (fun p => binop_fun op (f1 (coords p)) (f2 (coords p))) <$> pts |} in
  vec_ip_spec E V' n (_call_in_place v1) f1 ->
  vec_ip_spec E V' n (_call_in_place v2) f2 -> n + 1 <= k ->
  no_element (domain (_space o)) (VArr lx) {| heap := h; trace := t |} ->
  h !! lx = Some A -> input_points A = Some pts ->
  passed_on (ndim (domain (_space o))) A ->
  h !! lo = Some O -> lo <> lx ->
  shape O = [length pts] -> length (data O) = length pts ->
  (chk = true ->
   bulk_test (domain (_space o)) A true /\ bulk_test (range (_space o)) Y true) ->
  binary_operator E op sp x1 x2 out V = (Ok out, V')
  /\ exists extra t',
       evaluate E V' k out (VArr lx) (Some (VArr lo)) chk {| heap := h; trace := t |}
       = (Ok (VArr lo), {| heap := <[lo := Y]> h ++ extra; trace := t' |}).
Proof.
  intros H1 H2 Ho Hv1 Hv2 V' Y Hs1 Hs2 Hk Hno Hx Hp Hpass Hlo Hne HsO HdO Hchk.
  split; [now apply binary_operator_result|].
  set (r := installed E op sp v1 v2 o) in *.
  assert (V' !! out = Some r) as Hr
    by (apply list_lookup_insert_eq; eapply lookup_lt_Some; eauto).
  assert (_space r = _space o) as Hsp
    by (unfold r, installed; now destruct (vectorized E v1 || vectorized E v2)).
  assert (vectorized E r = true) as Hvr
    by (unfold r; rewrite installed_vectorized, Hv1; reflexivity).
  destruct (call_in_place_run E V' (n + 1) k out r
              (fun p => binop_fun op (f1 p) (f2 p)) lx A pts lo O chk true h t)
    as (e & t' & Hrun); auto; try (rewrite Hsp; assumption).
  - now apply installed_ip_spec.
  - exists e, t'. unfold evaluate. rewrite Hrun. now rewrite andb_false_r.
Qed.

End OperatorThenCall.

(** ** Operands that return their argument *)

Section SharedResults.
Context {S : Scalar} (L : ScalarLaws S) (E : Env) (V : list vector).

(** X28.  [lincomb_call_out_of_place] works on the arrays its operands
    return ([out *= a], [tmp *= b], [out += tmp]), [product_call_out_of_place]
    does not ([x1(x) * x2(x)] is a new array).  For operands that return
    their argument, as [lambda x: x] does, and nonzero coefficients, the
    closure of [_lincomb] therefore overwrites the input array of the caller
    -- each entry [v] becomes [b*(a*v) + b*(a*v)] -- and returns that array,
    where the closure of [_multiply] returns the squares in a new array and
    leaves the input as it was. *)
Theorem shared_result_is_overwritten (n k : nat) (c1 c2 : closure) (a b : R)
    (lx : nat) (X : ndarray) (h : list ndarray) (t : list nat) :
  returns_argument E V n c1 -> returns_argument E V n c2 -> n <= k ->
  reqb a rO = false -> reqb b rO = false -> h !! lx = Some X ->
  (exists t',
      lincomb_call_out_of_place (call E V k) a b c1 c2 (VArr lx) {| heap := h; trace := t |}
      = (Ok (VArr lx),
         {| heap := <[lx := {| shape := shape X;
                               data := (fun v => radd (rmul b (rmul a v)) (rmul b (rmul a v)))
                                         <$> data X |}]> h;
            trace := t' |}))
  /\ (exists t',
         product_call_out_of_place (call E V k) c1 c2 (VArr lx) {| heap := h; trace := t |}
         = (Ok (VArr (length h)),
            {| heap := h ++ [{| shape := shape X;
                                data := (fun v => rmul v v) <$> data X |}];
               trace := t' |})).
Proof.
  intros H1 H2 Hk Ha Hb Hx. split.
  - unfold lincomb_call_out_of_place. rewrite Ha, Hb. cbn [andb negb].
    assert (lx < length h) as Hlt by (eapply lookup_lt_Some; eauto).
    destruct (H1 k (VArr lx) h t Hk) as (t1 & Hrun1).
    rewrite (bind_ok _ _ _ _ _ Hrun1).
    rewrite (bind_ok _ _ _ _ _ (scale_array L _ _ a _ t1 Hx)).
    set (X1 := {| shape := shape X; data := rmul a <$> data X |}).
    destruct (H2 k (VArr lx) (<[lx := X1]> h) t1 Hk) as (t2 & Hrun2).
    rewrite (bind_ok _ _ _ _ _ Hrun2).
    assert ((<[lx := X1]> h) !! lx = Some X1) as Hx1 by (now apply list_lookup_insert_eq).
    rewrite (bind_ok _ _ _ _ _ (scale_array L _ _ b _ t2 Hx1)).
    rewrite list_insert_insert_eq. cbn [X1 shape data].
    set (X2 := {| shape := shape X; data := rmul b <$> (rmul a <$> data X) |}).
    assert ((<[lx := X2]> h) !! lx = Some X2) as Hx2 by (now apply list_lookup_insert_eq).
    rewrite (iop_array radd _ _ _ _ _ t2 Hx2 Hx2 eq_refl).
    exists t2. rewrite list_insert_insert_eq. cbn [X2 shape data]. do 5 f_equal.
    rewrite zip_with_diag, <- !list_fmap_compose. reflexivity.
  - unfold product_call_out_of_place.
    destruct (H1 k (VArr lx) h t Hk) as (t1 & Hrun1).
    rewrite (bind_ok _ _ _ _ _ Hrun1).
    destruct (H2 k (VArr lx) h t1 Hk) as (t2 & Hrun2).
    rewrite (bind_ok _ _ _ _ _ Hrun2).
    rewrite (bop_array rmul _ _ _ _ _ t2 Hx Hx eq_refl).
    exists t2. now rewrite zip_with_diag.
Qed.

End SharedResults.

(** ** The wrappers of [vectorize] on a meshgrid *)

Section Meshgrid.
Context {S : Scalar} (E : Env) (V : list vector).

Lemma broadcast_sparse n1 n2 : broadcast_all [[n1; 1]; [1; n2]] = Some [n1; n2].
Proof.
  destruct n1 as [|[|n1]], n2 as [|[|n2]]; cbn; unfold broadcast_shapes; cbn;
    rewrite ?Nat.eqb_refl; reflexivity.
Qed.

Lemma length_product_pair (X1 X2 : list R) :
  length (product [X1; X2]) = length X1 * length X2.
Proof.
  assert (length (product [X2]) = length X2) as H2.
  { cbn [product]. induction X2 as [|b X2 IH2]; [reflexivity|]. cbn in *. now rewrite IH2. }
  change (product [X1; X2]) with (flat_map (fun r => map (cons r) (product [X2])) X1).
  induction X1 as [|a X1 IH]; [reflexivity|].
  cbn [flat_map length]. rewrite length_app, IH, length_map, H2. lia.
Qed.

(** The loop of [_vect_wrapper_meshgrid]: [out.flat[i] = func(pt)]. *)
Lemma fill_flat_spec n g f k :
  tuple_spec E V n g f -> n <= k ->
  forall pts i h t lo sh D,
    h !! lo = Some {| shape := sh; data := D |} ->
    i + length pts <= length D ->
    exists t',
      fill_flat (call E V k) g pts i (VArr lo) {| heap := h; trace := t |}
      = (Ok (VArr lo),
         {| heap := <[lo := {| shape := sh;
                               data := take i D ++ (f <$> pts)
                                         ++ drop (i + length pts) D |}]> h;
            trace := t' |}).
Proof.
  intros Hg Hk. induction pts as [|p rest IH]; intros i h t lo sh D Hlo Hi.
  - exists t. cbn [fill_flat fmap list_fmap length]. rewrite Nat.add_0_r.
    cbn [app]. rewrite take_drop, list_insert_id; [reflexivity|exact Hlo].
  - cbn [length] in Hi. cbn [fill_flat].
    destruct (Hg k h t p Hk) as (t1 & Hcall).
    rewrite (bind_ok _ _ _ _ _ Hcall).
    assert (lo < length h) as Hlt by (eapply lookup_lt_Some; eauto).
    set (D' := <[i := f p]> D).
    assert (setflat (VArr lo) i (VNum (f p)) {| heap := h; trace := t1 |}
            = (Ok (VArr lo),
               {| heap := <[lo := {| shape := sh; data := D' |}]> h; trace := t1 |}))
      as Hset.
    { unfold setflat. rewrite (bind_ok _ _ _ _ _ (load_ok _ _ _ _ Hlo)). cbn [data shape].
      destruct (decide (i < length D)); [reflexivity|lia]. }
    rewrite (bind_ok _ _ _ _ _ Hset).
    destruct (IH (Datatypes.S i) (<[lo := {| shape := sh; data := D' |}]> h) t1 lo sh D')
      as (t' & Hrest).
    { now apply list_lookup_insert_eq. }
    { unfold D'. rewrite length_insert. lia. }
    rewrite Hrest. exists t'. rewrite list_insert_insert_eq. do 4 f_equal.
    unfold D'. cbn [fmap list_fmap].
    rewrite (insert_take_drop D) by lia.
    rewrite take_app_ge by (rewrite length_take; lia).
    rewrite length_take, Nat.min_l by lia.
    replace (Datatypes.S i - i) with 1 by lia.
    rewrite drop_app_ge by (rewrite length_take; lia).
    rewrite length_take, Nat.min_l by lia.
    replace (Datatypes.S i + length rest - i) with (Datatypes.S (length rest)) by lia.
    cbn [app take drop]. rewrite drop_drop.
    replace (Datatypes.S i + length rest) with (i + Datatypes.S (length rest)) by lia.
    rewrite <- !app_assoc. reflexivity.
Qed.

(** X29.  A function of a point wrapped by [vectorize] and called on a
    sparse meshgrid of the plane -- a column of [n1] and a row of [n2]
    coordinates -- without a buffer: the result is a new array of the
    broadcast shape [(n1, n2)], allocated once, whose entries in row-major
    order are the values of the function at the points of
    [product(x_vector, y_vector)], each passed as a tuple of coordinates. *)
Theorem vectorize_meshgrid_call (n : nat) (g : closure) (f : list R -> R) (k : nat)
    (oa : outarg) (dt : dtype) (h : list ndarray) (t : list nat) (l1 l2 : nat)
    (X1 X2 : list R) :
  tuple_spec E V n g f -> n <= k -> oa <> OutPositional -> numeric dt ->
  h !! l1 = Some {| shape := [length X1; 1]; data := X1 |} ->
  h !! l2 = Some {| shape := [1; length X2]; data := X2 |} ->
  exists t',
    call E V (Datatypes.S k) (Cvect_wrapper oa dt g) (VSeq [VArr l1; VArr l2]) None
         {| heap := h; trace := t |}
    = (Ok (VArr (length h)),
       {| heap := h ++ [{| shape := [length X1; length X2];
                           data := f <$> product [X1; X2] |}];
          trace := t' |}).
Proof.
  intros Hg Hk Hoa Hdt H1 H2.
  assert (call E V (Datatypes.S k) (Cvect_wrapper oa dt g) (VSeq [VArr l1; VArr l2]) None
          = _vect_wrapper (call E V k) dt g (VSeq [VArr l1; VArr l2]) None) as ->.
  { cbn [call call_body]. unfold vect_wrapper. destruct oa; congruence. }
  unfold _vect_wrapper.
  rewrite (bind_ok _ _ _ 2 {| heap := h; trace := t |}) by reflexivity.
  rewrite (bind_ok _ _ _ false {| heap := h; trace := t |}) by reflexivity.
  rewrite (bind_ok _ _ _ true {| heap := h; trace := t |}).
  2:{ unfold is_valid_input_meshgrid.
      rewrite (bind_ok _ _ _ (Some [[length X1; 1]; [1; length X2]]) {| heap := h; trace := t |}).
      - cbn [length Nat.eqb forallb andb].
        rewrite broadcast_sparse. rewrite bool_decide_eq_true_2 by (now eexists).
        reflexivity.
      - cbn [mesh_shapes].
        rewrite (bind_ok _ _ _ _ _ (load_ok _ _ _ _ H1)).
        rewrite (bind_ok _ _ _ (Some [[1; length X2]]) {| heap := h; trace := t |}); [reflexivity|].
        now rewrite (bind_ok _ _ _ _ _ (load_ok _ _ _ _ H2)). }
  unfold _vect_wrapper_meshgrid.
  set (B := {| shape := [length X1; length X2];
               data := replicate (size [length X1; length X2]) rjunk |}).
  rewrite (bind_ok _ _ _ (VArr (length h)) {| heap := h ++ [B]; trace := t |}).
  2:{ rewrite (bind_ok _ _ _ [length X1; length X2] {| heap := h; trace := t |}).
      - unfold new_out, np_empty. destruct Hdt; subst dt; reflexivity.
      - unfold out_shape_from_meshgrid, np_broadcast_shape.
        rewrite (bind_ok _ _ _ [[length X1; 1]; [1; length X2]] {| heap := h; trace := t |}).
        + now rewrite broadcast_sparse.
        + unfold unpack_shapes.
          rewrite (bind_ok _ _ _ _ _ (load_ok _ _ _ _ H1)).
          rewrite (bind_ok _ _ _ [[1; length X2]] {| heap := h; trace := t |}); [reflexivity|].
          now rewrite (bind_ok _ _ _ _ _ (load_ok _ _ _ _ H2)). }
  assert (l1 < length h) as Hl1 by (eapply lookup_lt_Some; eauto).
  assert (l2 < length h) as Hl2 by (eapply lookup_lt_Some; eauto).
  rewrite (bind_ok _ _ _ [X1; X2] {| heap := h ++ [B]; trace := t |}).
  2:{ cbn [vecs_from_meshgrid].
      rewrite (bind_ok _ _ _ _ _ (load_ok _ _ _ _ (eq_trans (lookup_app_l _ _ _ Hl1) H1))).
      rewrite (bind_ok _ _ _ [X2] {| heap := h ++ [B]; trace := t |}); [reflexivity|].
      now rewrite (bind_ok _ _ _ _ _
                     (load_ok _ _ _ _ (eq_trans (lookup_app_l _ _ _ Hl2) H2))). }
  assert (length (data B) = length (product [X1; X2])) as HB.
  { unfold B. cbn [data]. rewrite length_replicate, length_product_pair.
    unfold size. cbn. lia. }
  destruct (fill_flat_spec n g f k Hg Hk (product [X1; X2]) 0 (h ++ [B]) t (length h)
              [length X1; length X2] (data B)) as (t' & Hfill).
  { now apply list_lookup_middle. }
  { lia. }
  rewrite Hfill. exists t'. do 2 f_equal.
  rewrite insert_app_r_alt by lia. rewrite Nat.sub_diag. cbn [insert list_insert take app].
  rewrite drop_ge by lia. now rewrite app_nil_r.
Qed.

End Meshgrid.

(** ** Creating an element, then calling it *)

Section ElementThenCall.
Context {S : Scalar} (E : Env).

(** X30.  [FunctionSet.element(f)] for a dual-use function [f(x, out=None)]
    in a plain function set, followed by an evaluation into a buffer.  The
    new vector is appended to the store, which is otherwise unchanged, and
    holds [f] as both of its closures; provided that a new vector counts as
    vectorized and [f] fills the buffer it is given, the call through
    [__call__] with an input array and a buffer of the expected shape
    returns that buffer filled with the values of [f]. *)
Theorem element_evaluates_in_place (sp : fspace) (c : closure) (f : list R -> R)
    (n k : nat) (V : list vector) (lx lo : nat) (A O : ndarray) (pts : list point)
    (chk : bool) (h : list ndarray) (t : list nat) :
  sp_class sp = CFunctionSet -> _dispatch_call_args E c = (true, true) ->
  vectorized_default E = true ->
  let r := {| v_class := CFunctionSetVector; _space := sp;
              _call_in_place := c; _call_out_of_place := c;
              _call_has_out := true; _call_out_optional := true;
              _vectorized := None |} in
  let Y := {| shape := [length pts]; data := (fun p => f (coords p)) <$> pts |} in
  vec_ip_spec E (V ++ [r]) n c f -> n <= k ->
  no_element (domain sp) (VArr lx) {| heap := h; trace := t |} ->
  h !! lx = Some A -> input_points A = Some pts ->
  passed_on (ndim (domain sp)) A ->
  h !! lo = Some O -> lo <> lx ->
  shape O = [length pts] -> length (data O) = length pts ->
  (chk = true -> bulk_test (domain sp) A true /\ bulk_test (range sp) Y true) ->
  FunctionSet_element E sp (OFunction c) true V = (Ok (length V), V ++ [r])
  /\ exists extra t',
       evaluate E (V ++ [r]) k (length V) (VArr lx) (Some (VArr lo)) chk
         {| heap := h; trace := t |}
       = (Ok (VArr lo), {| heap := <[lo := Y]> h ++ extra; trace := t' |}).
Proof.
  intros Hcls Hsig Hdef r Y Hip Hk Hno Hx Hp Hpass Hlo Hne HsO HdO Hchk.
  split.
  - unfold FunctionSet_element, element_type. cbn [callable negb]. rewrite Hcls.
    unfold new_object, FunctionSetVector___init__. cbn [bind_keywords forallb].
    now rewrite Hsig.
  - destruct (call_in_place_run E (V ++ [r]) n k (length V) r f lx A pts lo O chk true h t)
      as (e & t' & Hrun); auto.
    + now apply list_lookup_middle.
    + exists e, t'. unfold evaluate. rewrite Hrun. now rewrite andb_false_r.
Qed.

End ElementThenCall.

(** * Further instances on the integers *)

Section FurtherInstances.
Local Open Scope Z_scope.
#[local] Existing Instance Z_scalar.

Lemma first_vec_oop (V : list vector) : vec_oop_spec env_Z V 1 (CUser 3) first.
Proof. apply pointwise_vec_oop; reflexivity. Qed.

Lemma first_vec_ip (V : list vector) : vec_ip_spec env_Z V 1 (CUser 3) first.
Proof. apply pointwise_vec_ip; reflexivity. Qed.

Lemma first_in_place_only (V : list vector) : vec_ip_spec env_Z V 1 (CUser 4) first.
Proof. apply pointwise_vec_ip; reflexivity. Qed.

Lemma coordinate_sum_traced (V : list vector) :
  pt_spec_traced env_Z V 1 (CUser 2) coordinate_sum [2%nat].
Proof.
  intros k h t pv p Hk Hat. destruct k as [|k]; [lia|].
  destruct p as [r|cs]; cbn in Hat.
  - subst pv. reflexivity.
  - destruct Hat as (l & -> & Hl). cbn [call call_body].
    unfold when, bind, ret, log_call. cbn. now rewrite Hl.
Qed.

(** An array of points is no element of an interval. *)
Lemma interval_no_element id lo hi l (m : mem) : no_element (interval id lo hi) (VArr l) m.
Proof. split; [reflexivity|]. exists TypeError, Runtime. split; [now left|reflexivity]. Qed.

Lemma interval_bulk_test id lo hi (Y : ndarray) :
  bulk_test (interval id lo hi) Y (forallb (in_interval lo hi) (data Y)).
Proof.
  exists (all_in_interval lo hi). split; [reflexivity|].
  intros H l Hl. cbn. now rewrite Hl.
Qed.

Lemma reals_bulk_test (Y : ndarray) : bulk_test reals Y true.
Proof. eexists. split; [reflexivity|]. reflexivity. Qed.

(** [2*f + 0*g]: the closure of [g] does not matter. *)
Lemma lincomb_skips_zero_operand_witness :
  lincomb_call_out_of_place (call env_Z store_fgh 3) 2 0 (CUser 3) (CUser 2) (VArr 0)
    {| heap := [x_Z]; trace := [] |}
  = lincomb_call_out_of_place (call env_Z store_fgh 3) 2 0 (CUser 3) (CUser 0) (VArr 0)
      {| heap := [x_Z]; trace := [] |}.
Proof.
  exact (proj1 (proj1 (lincomb_skips_zero_operand (call env_Z store_fgh 3) 2 0
                         (CUser 3) (CUser 3) (CUser 2) (CUser 0) (VArr 0) (VArr 0)
                         {| heap := [x_Z]; trace := [] |}) eq_refl)).
Defined.

Lemma lincomb_in_place_zero_witness :
  lincomb_call_in_place (call env_Z store_fgh 0) 0 0 (CUser 3) (CUser 2) (VArr 0) (VArr 1)
    {| heap := [x_Z; arr [3%nat] [4; 5; 6]]; trace := [] |}
  = (Ok (VArr 1), {| heap := [x_Z; arr [3%nat] [0; 0; 0]]; trace := [] |}).
Proof.
  exact (lincomb_in_place_zero (call env_Z store_fgh 0) 0 0 (CUser 3) (CUser 2)
           (VArr 0) 1 (arr [3%nat] [4; 5; 6]) [x_Z; arr [3%nat] [4; 5; 6]] []
           eq_refl eq_refl eq_refl).
Defined.

(** [f * g] for the vectorized [f(x) = x[0]] and the per-point
    [g(x) = sum(x)]. *)
Lemma multiply_evaluates_witness :
  FunctionSpace__multiply env_Z space_Z 0 1 2 store_fgh
  = (Ok 2%nat, <[2%nat := installed env_Z Product space_Z f_vec g_novec h_out]> store_fgh)
  /\ operand_spec env_Z
       (<[2%nat := installed env_Z Product space_Z f_vec g_novec h_out]> store_fgh) 3
       (installed env_Z Product space_Z f_vec g_novec h_out)
       (fun p => first p * coordinate_sum p).
Proof.
  destruct (multiply_evaluates env_Z space_Z 0 1 2 f_vec g_novec h_out
              first coordinate_sum 1 store_fgh eq_refl eq_refl eq_refl)
    as (Hop & _ & Hoop & _).
  split; [exact Hop|]. apply Hoop.
  - apply first_vec_oop.
  - apply coordinate_sum_pt.
Defined.

(** [f / g] for the vectorized [f(x) = x[0]] and the per-point
    [g(x) = sum(x)], on arrays; and [g / g], at single points, at the point
    [(1, -1)] where [g] is zero. *)
Lemma divide_evaluates_witness :
  FunctionSpace__divide env_Z space_Z 0 1 2 store_fgh
  = (Ok 2%nat, <[2%nat := installed env_Z Quotient space_Z f_vec g_novec h_out]> store_fgh)
  /\ operand_spec env_Z
       (<[2%nat := installed env_Z Quotient space_Z f_vec g_novec h_out]> store_fgh) 3
       (installed env_Z Quotient space_Z f_vec g_novec h_out)
       (fun p => first p / coordinate_sum p)
  /\ raises_at env_Z
       (<[2%nat := installed env_Z Quotient space_Z g_novec g_novec h_out]> store_fgh) 3
       (_call_out_of_place (installed env_Z Quotient space_Z g_novec g_novec h_out))
       (Exn ZeroDivisionError Runtime) (PVec [1; -1]).
Proof.
  destruct (divide_evaluates env_Z space_Z 0 1 2 f_vec g_novec h_out
              first coordinate_sum 1 store_fgh eq_refl eq_refl eq_refl)
    as (Hop & _ & Hoop & _).
  destruct (divide_evaluates env_Z space_Z 1 1 2 g_novec g_novec h_out
              coordinate_sum coordinate_sum 1 store_fgh eq_refl eq_refl eq_refl)
    as (_ & _ & _ & Hraise & _).
  split; [exact Hop|]. split.
  - apply Hoop.
    + apply first_vec_oop.
    + apply coordinate_sum_pt.
    + left. reflexivity.
  - apply Hraise.
    + reflexivity.
    + reflexivity.
    + apply coordinate_sum_pt.
    + apply coordinate_sum_pt.
    + lia.
    + reflexivity.
Defined.

(** The sum of two per-point functions cannot be evaluated in place. *)
Lemma nonvectorized_result_in_place_raises_witness :
  exists r,
    binary_operator env_Z (Lincomb 1 1) space_Z 1 1 2 store_fgh
    = (Ok 2%nat, <[2%nat := r]> store_fgh)
    /\ _call_in_place r = C_default_in_place
    /\ vectorized env_Z r = false
    /\ forall n x buf m,
         FunctionSetVector__call (call env_Z (<[2%nat := r]> store_fgh) (S n)) r x (Some buf) m
         = (Raise (Exn TypeError Runtime), m).
Proof.
  exact (nonvectorized_result_in_place_raises env_Z (Lincomb 1 1) space_Z 1 1 2
           g_novec g_novec h_out store_fgh eq_refl eq_refl eq_refl eq_refl eq_refl).
Defined.

(** [[1, 2, 5] ** 5] in place: one copy, for the odd exponent 5; the
    integers satisfy the laws, so that the products are the powers. *)
Lemma ipow_posint_in_place_witness :
  (exists extra,
     ipow_posint (VArr 0) 5 {| heap := [x_Z]; trace := [] |}
     = (Ok (VArr 0),
        {| heap := <[0%nat := arr [3%nat] [1; 32; 3125]]> [x_Z] ++ extra; trace := [] |})
     /\ length extra = 1%nat)
  /\ (ScalarLaws Z_scalar -> forall v, sq_pow v 5 = v ^ 5).
Proof.
  exact (@ipow_posint_in_place Z_scalar 5 0 x_Z [x_Z] [] eq_refl).
Defined.



Lemma zero_one_vec_constant_witness :
  call env_Z [] 1 (Czero_vec 2) (VArr 0) None {| heap := [coordinates_Z]; trace := [] |}
  = (Ok (VArr 1), {| heap := [coordinates_Z; arr [3%nat] [0; 0; 0]]; trace := [] |})
  /\ call env_Z [] 1 (Cone_vec 2) (VArr 0) None {| heap := [coordinates_Z]; trace := [] |}
     = (Ok (VArr 1), {| heap := [coordinates_Z; arr [3%nat] [1; 1; 1]]; trace := [] |}).
Proof.
  exact (zero_one_vec_constant env_Z [] 2 0 coordinates_Z 2 3 [coordinates_Z] [] 0
           eq_refl ltac:(lia) eq_refl).
Defined.

Lemma zero_one_vec_plain_array_witness :
  call env_Z [] 1 (Czero_vec 1) (VArr 0) None {| heap := [x_Z]; trace := [] |}
  = (Ok (VArr 1), {| heap := [x_Z; arr [] [0]]; trace := [] |})
  /\ call env_Z [] 1 (Cone_vec 1) (VArr 0) None {| heap := [x_Z]; trace := [] |}
     = (Ok (VArr 1), {| heap := [x_Z; arr [] [1]]; trace := [] |}).
Proof.
  exact (zero_one_vec_plain_array env_Z [] 1 0 x_Z 3 [x_Z] [] 0
           eq_refl ltac:(lia) eq_refl).
Defined.

Lemma coordinates_first_plus_one :
  vec_oop_at env_Z [] 1 (CUser 1) first_plus_one coordinates_Z
    [PVec [1; 4]; PVec [2; 5]; PVec [3; 6]].
Proof.
  apply vec_oop_spec_at; [|reflexivity]. apply pointwise_vec_oop; reflexivity.
Qed.

Lemma zero_one_are_identities_witness :
  (exists lo extra t',
      call env_Z [] 3 (Cbin_call_out_of_place (Lincomb 1 1) (CUser 1) (Czero_vec 2))
        (VArr 0) None {| heap := [coordinates_Z]; trace := [] |}
      = (Ok (VArr lo), {| heap := [coordinates_Z] ++ extra; trace := t' |})
      /\ ([coordinates_Z] ++ extra) !! lo = Some (arr [3%nat] [2; 3; 4]))
  /\ (exists lo extra t',
         call env_Z [] 3 (Cbin_call_out_of_place Product (CUser 1) (Cone_vec 2))
           (VArr 0) None {| heap := [coordinates_Z]; trace := [] |}
         = (Ok (VArr lo), {| heap := [coordinates_Z] ++ extra; trace := t' |})
         /\ ([coordinates_Z] ++ extra) !! lo = Some (arr [3%nat] [2; 3; 4])).
Proof.
  exact (zero_one_are_identities Z_laws env_Z [] 1 (CUser 1) first_plus_one 2
           coordinates_Z 2 3 [PVec [1; 4]; PVec [2; 5]; PVec [3; 6]] 2
           [coordinates_Z] [] 0 coordinates_first_plus_one
           ltac:(lia) ltac:(lia) eq_refl ltac:(lia) eq_refl eq_refl).
Defined.

(** The sums of the columns of [coordinates_Z] written into a buffer of
    four entries: the fourth is kept. *)
Lemma vectorize_fills_buffer_witness :
  exists extra t',
    call env_Z [] 2 (Cvect_wrapper OutPositional DNone (CUser 2)) (VArr 0) (Some (VArr 1))
         {| heap := [coordinates_Z; arr [4%nat] [0; 0; 0; 8]]; trace := [] |}
    = (Ok (VArr 1),
       {| heap := <[1%nat := arr [4%nat] [5; 7; 9; 8]]>
                    [coordinates_Z; arr [4%nat] [0; 0; 0; 8]] ++ extra;
          trace := t' |}).
Proof.
  exact (vectorize_fills_buffer env_Z [] 1 (CUser 2) coordinate_sum 1 OutPositional DNone
           [coordinates_Z; arr [4%nat] [0; 0; 0; 8]] [] 0 1 coordinates_Z
           [PVec [1; 4]; PVec [2; 5]; PVec [3; 6]] 4 [0; 0; 0; 8]
           (coordinate_sum_pt []) (le_n 1) ltac:(discriminate) eq_refl eq_refl eq_refl
           ltac:(discriminate) eq_refl ltac:(cbn; lia)).
Defined.

Lemma vectorize_empty_input_witness :
  call env_Z [] 1 (Cvect_wrapper OutNone DFloat (CUser 0)) (VArr 0) None
       {| heap := [arr [2%nat; 0%nat] []]; trace := [] |}
  = (Ok (VArr 1), {| heap := [arr [2%nat; 0%nat] []; arr [0%nat] []]; trace := [] |}).
Proof.
  exact (vectorize_empty_input env_Z [] (CUser 0) 0 OutNone DFloat
           [arr [2%nat; 0%nat] []] [] 0 (arr [2%nat; 0%nat] []) 2
           ltac:(discriminate) ltac:(now left) ltac:(lia) eq_refl eq_refl).
Defined.

Lemma vectorize_refuses_input_witness :
  call env_Z [] 1 (Cvect_wrapper OutNone DFloat (CUser 2)) (VArr 0) None
       {| heap := [cube_Z]; trace := [] |}
  = (Raise (Exn ValueError InvalidInput), {| heap := [cube_Z]; trace := [] |}).
Proof.
  exact (proj1 (vectorize_refuses_input env_Z [] (CUser 2) 0 OutNone DFloat None
                  {| heap := [cube_Z]; trace := [] |}
                  ltac:(discriminate) ltac:(congruence))
           0%nat cube_Z eq_refl ltac:(discriminate) ltac:(discriminate)).
Defined.

Lemma vectorize_one_call_per_point_witness :
  exists extra,
    call env_Z [] 2 (Cvect_wrapper OutNone DFloat (CUser 2)) (VArr 0) None
         {| heap := [coordinates_Z]; trace := [] |}
    = (Ok (VArr 1),
       {| heap := [coordinates_Z] ++ arr [3%nat] [5; 7; 9] :: extra;
          trace := [2%nat; 2%nat; 2%nat] |}).
Proof.
  exact (vectorize_one_call_per_point env_Z [] 1 (CUser 2) coordinate_sum [2%nat] 1
           OutNone DFloat [coordinates_Z] [] 0 coordinates_Z
           [PVec [1; 4]; PVec [2; 5]; PVec [3; 6]]
           (coordinate_sum_traced []) (le_n 1) ltac:(discriminate) ltac:(now left)
           eq_refl eq_refl).
Defined.

Lemma call_missing_capability_witness :
  evaluate env_Z [dual set_bare (CUser 3)] 5 0 (VArr 0) None true
    {| heap := [x_Z]; trace := [] |}
  = (Raise (Exn AttributeError MissingCapability), {| heap := [x_Z]; trace := [] |}).
Proof.
  exact (call_missing_capability env_Z [dual set_bare (CUser 3)] 5 0
           (dual set_bare (CUser 3)) (VArr 0) None {| heap := [x_Z]; trace := [] |}
           eq_refl eq_refl).
Defined.

Lemma call_invalid_input_witness :
  evaluate env_Z store_Z 5 1 (VArr 0) None true {| heap := [cube_Z]; trace := [] |}
  = (Raise (Exn TypeError InvalidInput), {| heap := [cube_Z]; trace := [] |}).
Proof.
  exact (call_invalid_input env_Z store_Z 5 1 (dual set_Z (CUser 3)) (VArr 0) None true
           {| heap := [cube_Z]; trace := [] |} eq_refl
           (fun _ => ltac:(now eexists))
           (or_intror (interval_no_element 0 0 10 0 _)) eq_refl eq_refl).
Defined.

Lemma call_out_of_domain_witness :
  evaluate env_Z store_Z 5 1 (VArr 0) None true
    {| heap := [arr [3%nat] [1; 20; 5]]; trace := [] |}
  = (Raise (Exn ValueError OutOfDomain),
     {| heap := [arr [3%nat] [1; 20; 5]]; trace := [] |}).
Proof.
  exact (call_out_of_domain env_Z store_Z 5 1 (dual set_Z (CUser 3)) 0
           (arr [3%nat] [1; 20; 5]) [PScalar 1; PScalar 20; PScalar 5] None
           [arr [3%nat] [1; 20; 5]] [] eq_refl (interval_no_element 0 0 10 0 _)
           eq_refl eq_refl eq_refl (interval_bulk_test 0 0 10 (arr [3%nat] [1; 20; 5]))).
Defined.

Lemma call_wrong_buffer_shape_witness :
  evaluate env_Z store_Z 5 1 (VArr 0) (Some (VArr 1)) true
    {| heap := [x_Z; arr [2%nat] [0; 0]]; trace := [] |}
  = (Raise (Exn ValueError ShapeMismatch),
     {| heap := [x_Z; arr [2%nat] [0; 0]]; trace := [] |}).
Proof.
  exact (call_wrong_buffer_shape env_Z store_Z 5 1 (dual set_Z (CUser 3)) 0 1
           x_Z (arr [2%nat] [0; 0]) [PScalar 1; PScalar 2; PScalar 5] true
           [x_Z; arr [2%nat] [0; 0]] [] eq_refl eq_refl (interval_no_element 0 0 10 0 _)
           eq_refl eq_refl eq_refl (fun _ => interval_bulk_test 0 0 10 x_Z)
           eq_refl ltac:(discriminate)).
Defined.

(** The first coordinate on the function space over [0, 10], evaluated into
    a buffer with the bounds check on. *)
Lemma evaluation_into_buffer_witness :
  exists extra t',
    evaluate env_Z store_dual 5 0 (VArr 0) (Some (VArr 1)) true
      {| heap := [x_Z; buffer_Z]; trace := [] |}
    = (Ok (VArr 1),
       {| heap := <[1%nat := arr [3%nat] [1; 2; 5]]> [x_Z; buffer_Z] ++ extra;
          trace := t' |}).
Proof.
  exact (evaluation_into_buffer env_Z store_dual 1 5 0 f_vec first 0 1 x_Z buffer_Z
           [PScalar 1; PScalar 2; PScalar 5] true [x_Z; buffer_Z] []
           eq_refl eq_refl (first_vec_ip store_dual) ltac:(lia)
           (interval_no_element 0 0 10 0 _) eq_refl eq_refl eq_refl eq_refl
           ltac:(discriminate) eq_refl eq_refl
           (fun _ => conj (interval_bulk_test 0 0 10 x_Z) (reals_bulk_test _))).
Defined.

(** On the function set with range [0, 3] the value 5 leaves the range: the
    call raises, and the buffer holds [[1, 2, 5]]. *)
Lemma call_out_of_range_after_write_witness :
  exists extra t',
    evaluate env_Z store_Z 5 1 (VArr 0) (Some (VArr 1)) true
      {| heap := [x_Z; buffer_Z]; trace := [] |}
    = (Raise (Exn ValueError OutOfRange),
       {| heap := <[1%nat := arr [3%nat] [1; 2; 5]]> [x_Z; buffer_Z] ++ extra;
          trace := t' |}).
Proof.
  exact (call_out_of_range_after_write env_Z store_Z 1 5 1 (dual set_Z (CUser 3)) first
           0 1 x_Z buffer_Z [PScalar 1; PScalar 2; PScalar 5] [x_Z; buffer_Z] []
           eq_refl eq_refl (first_vec_ip store_Z) ltac:(lia)
           (interval_no_element 0 0 10 0 _) eq_refl eq_refl eq_refl eq_refl
           ltac:(discriminate) eq_refl eq_refl
           (interval_bulk_test 0 0 10 x_Z)
           (interval_bulk_test 1 0 3 (arr [3%nat] [1; 2; 5]))).
Defined.

Lemma default_out_of_place_evaluates_witness :
  exists extra t',
    call env_Z [k_in_place] 6 (Coop_wrapper 0 DFloat) (VArr 0) None
         {| heap := [x_Z]; trace := [] |}
    = (Ok (VArr 1), {| heap := [x_Z] ++ arr [3%nat] [1; 2; 5] :: extra; trace := t' |}).
Proof.
  exact (default_out_of_place_evaluates env_Z [k_in_place] 1 5 0 k_in_place first DFloat
           0 x_Z [PScalar 1; PScalar 2; PScalar 5] [x_Z] []
           eq_refl eq_refl (first_in_place_only [k_in_place]) ltac:(lia) ltac:(now left)
           (interval_no_element 0 0 10 0) eq_refl eq_refl eq_refl
           (interval_bulk_test 0 0 10 x_Z) (reals_bulk_test _)).
Defined.

Lemma assign_then_equal_witness :
  exists s',
    FunctionSetVector_assign env_Z 2 0 store_fgh = (Ok tt, <[2%nat := s']> store_fgh)
    /\ FunctionSetVector___eq__ env_Z 2 0 (<[2%nat := s']> store_fgh)
       = (Ok true, <[2%nat := s']> store_fgh).
Proof.
  destruct (assign_then_equal Z_laws env_Z 2 0 h_out f_vec store_fgh
              eq_refl eq_refl eq_refl eq_refl) as (s' & Ha & _ & _ & _ & _ & He & _).
  exists s'. split; [exact Ha|exact He].
Defined.

(** [f * f] for [f(x) = x[0]], then evaluated into a buffer at [1, 2, 5]. *)
Lemma operator_result_in_place_witness :
  exists extra t',
    evaluate env_Z (<[2%nat := installed env_Z Product space_Z f_vec f_vec f_vec]> store_dual)
      5 2 (VArr 0) (Some (VArr 1)) true {| heap := [x_Z; buffer_Z]; trace := [] |}
    = (Ok (VArr 1),
       {| heap := <[1%nat := arr [3%nat] [1; 4; 25]]> [x_Z; buffer_Z] ++ extra;
          trace := t' |}).
Proof.
  exact (proj2 (operator_result_in_place Z_laws env_Z Product space_Z 0 1 2
                  f_vec f_vec f_vec first first 1 5 store_dual 0 1 x_Z buffer_Z
                  [PScalar 1; PScalar 2; PScalar 5] true [x_Z; buffer_Z] []
                  eq_refl eq_refl eq_refl eq_refl eq_refl
                  (first_vec_ip _) (first_vec_ip _) ltac:(lia)
                  (interval_no_element 0 0 10 0 _) eq_refl eq_refl eq_refl eq_refl
                  ltac:(discriminate) eq_refl eq_refl
                  (fun _ => conj (interval_bulk_test 0 0 10 x_Z) (reals_bulk_test _)))).
Defined.

Lemma numbers_of_tuple (p : list Z) : numbers ((@VNum Z_scalar) <$> p) = p.
Proof. induction p as [|a p IH]; [reflexivity|]. cbn. now f_equal. Qed.

Lemma coordinate_sum_tuple (V : list vector) : tuple_spec env_T V 1 (CUser 0) coordinate_sum.
Proof.
  intros k h t p Hk. destruct k as [|k]; [lia|].
  exists (t ++ [0%nat]). cbn [call call_body].
  unfold when, bind, ret, log_call. cbn. now rewrite numbers_of_tuple.
Qed.

(** The sum of the coordinates on the meshgrid of [10, 20] and [1, 2, 3]. *)
Lemma vectorize_meshgrid_call_witness :
  exists t',
    call env_T [] 2 (Cvect_wrapper OutNone DFloat (CUser 0)) (VSeq [VArr 0; VArr 1]) None
         {| heap := [column_Z; row_Z]; trace := [] |}
    = (Ok (VArr 2),
       {| heap := [column_Z; row_Z] ++ [arr [2%nat; 3%nat] [11; 12; 13; 21; 22; 23]];
          trace := t' |}).
Proof.
  exact (vectorize_meshgrid_call env_T [] 1 (CUser 0) coordinate_sum 1 OutNone DFloat
           [column_Z; row_Z] [] 0 1 [10; 20] [1; 2; 3]
           (coordinate_sum_tuple []) (le_n 1) ltac:(discriminate) ltac:(now left)
           eq_refl eq_refl).
Defined.

(** The dual-use callable 3 made an element of the functions from [0, 10]
    to [0, 3], then evaluated at [1, 2, 3] into a buffer. *)
Lemma element_evaluates_in_place_witness :
  FunctionSet_element env_Z set_Z (OFunction (CUser 3)) true []
  = (Ok 0%nat,
     [{| v_class := CFunctionSetVector; _space := set_Z;
         _call_in_place := CUser 3; _call_out_of_place := CUser 3;
         _call_has_out := true; _call_out_optional := true; _vectorized := None |}])
  /\ exists extra t',
       evaluate env_Z
         [{| v_class := CFunctionSetVector; _space := set_Z;
             _call_in_place := CUser 3; _call_out_of_place := CUser 3;
             _call_has_out := true; _call_out_optional := true; _vectorized := None |}]
         5 0 (VArr 0) (Some (VArr 1)) true
         {| heap := [arr [3%nat] [1; 2; 3]; buffer_Z]; trace := [] |}
       = (Ok (VArr 1),
          {| heap := <[1%nat := arr [3%nat] [1; 2; 3]]> [arr [3%nat] [1; 2; 3]; buffer_Z]
                       ++ extra;
             trace := t' |}).
Proof.
  exact (element_evaluates_in_place env_Z set_Z (CUser 3) first 1 5 [] 0 1
           (arr [3%nat] [1; 2; 3]) buffer_Z [PScalar 1; PScalar 2; PScalar 3] true
           [arr [3%nat] [1; 2; 3]; buffer_Z] []
           eq_refl eq_refl eq_refl (first_vec_ip _) ltac:(lia)
           (interval_no_element 0 0 10 0 _) eq_refl eq_refl eq_refl eq_refl
           ltac:(discriminate) eq_refl eq_refl
           (fun _ => conj (interval_bulk_test 0 0 10 (arr [3%nat] [1; 2; 3]))
                          (interval_bulk_test 1 0 3 (arr [3%nat] [1; 2; 3])))).
Defined.

(** A vector that is not vectorized refuses a buffer. *)
Lemma call_buffer_needs_vectorized_witness :
  evaluate env_Z store_fgh 5 1 (VArr 0) (Some (VArr 1)) true
    {| heap := [x_Z; buffer_Z]; trace := [] |}
  = (Raise (Exn ValueError InvalidUsage), {| heap := [x_Z; buffer_Z]; trace := [] |}).
Proof.
  exact (call_buffer_needs_vectorized env_Z store_fgh 5 1 g_novec 0 1 x_Z buffer_Z
           [PScalar 1; PScalar 2; PScalar 5] true [x_Z; buffer_Z] []
           eq_refl eq_refl (interval_no_element 0 0 10 0 _) eq_refl eq_refl eq_refl
           (fun _ => interval_bulk_test 0 0 10 x_Z) eq_refl eq_refl).
Defined.

Lemma call_range_without_bulk_test_witness :
  exists extra t',
    evaluate env_Z [dual set_open (CUser 3)] 5 0 (VArr 0) (Some (VArr 1)) true
      {| heap := [x_Z; buffer_Z]; trace := [] |}
    = (Raise (Exn AttributeError Runtime),
       {| heap := <[1%nat := arr [3%nat] [1; 2; 5]]> [x_Z; buffer_Z] ++ extra;
          trace := t' |}).
Proof.
  exact (call_range_without_bulk_test env_Z [dual set_open (CUser 3)] 1 5 0
           (dual set_open (CUser 3)) first 0 1 x_Z buffer_Z
           [PScalar 1; PScalar 2; PScalar 5] [x_Z; buffer_Z] []
           eq_refl eq_refl (first_vec_ip _) ltac:(lia)
           (interval_no_element 0 0 10 0 _) eq_refl eq_refl eq_refl eq_refl
           ltac:(discriminate) eq_refl eq_refl
           (interval_bulk_test 0 0 10 x_Z) eq_refl).
Defined.

Lemma identity_returns_argument (V : list vector) : returns_argument env_Z V 1 (CUser 0).
Proof.
  intros k x h t Hk. destruct k as [|k]; [lia|]. exists (t ++ [0%nat]). reflexivity.
Qed.

(** [2*x + 3*x] and [x * x] for [lambda x: x] at [[1, 2, 3]]. *)
Lemma shared_result_is_overwritten_witness :
  (exists t',
      lincomb_call_out_of_place (call env_Z [] 1) 2 3 (CUser 0) (CUser 0) (VArr 0)
        {| heap := [arr [3%nat] [1; 2; 3]]; trace := [] |}
      = (Ok (VArr 0), {| heap := [arr [3%nat] [12; 24; 36]]; trace := t' |}))
  /\ (exists t',
         product_call_out_of_place (call env_Z [] 1) (CUser 0) (CUser 0) (VArr 0)
           {| heap := [arr [3%nat] [1; 2; 3]]; trace := [] |}
         = (Ok (VArr 1),
            {| heap := [arr [3%nat] [1; 2; 3]; arr [3%nat] [1; 4; 9]]; trace := t' |})).
Proof.
  exact (shared_result_is_overwritten Z_laws env_Z [] 1 1 (CUser 0) (CUser 0) 2 3 0
           (arr [3%nat] [1; 2; 3]) [arr [3%nat] [1; 2; 3]] []
           (identity_returns_argument []) (identity_returns_argument []) (le_n 1)
           eq_refl eq_refl eq_refl).
Defined.

(** Of the points 1, -2, 5 the second makes the callable raise: the wrapper
    raises too, having written the value at the first point. *)
Lemma vectorize_raises_after_partial_write_witness :
  exists extra t',
    call env_P [] 2 (Cvect_wrapper OutPositional DFloat (CUser 0)) (VArr 0) (Some (VArr 1))
         {| heap := [arr [3%nat] [1; -2; 5]; buffer_Z]; trace := [] |}
    = (Raise (Exn ValueError Runtime),
       {| heap := <[1%nat := arr [3%nat] [2; 0; 0]]> [arr [3%nat] [1; -2; 5]; buffer_Z]
                    ++ extra;
          trace := t' |}).
Proof.
  refine (vectorize_raises_after_partial_write env_P [] (CUser 0) first_plus_one
            (Exn ValueError Runtime) 1 OutPositional DFloat
            [arr [3%nat] [1; -2; 5]; buffer_Z] [] 0 1 (arr [3%nat] [1; -2; 5])
            [PScalar 1] [PScalar 5] (PScalar (-2)) 3 [0; 0; 0]
            ltac:(discriminate) eq_refl eq_refl _ _ eq_refl ltac:(discriminate) eq_refl
            ltac:(cbn; lia)).
  - constructor; [|constructor]. intros h t pv ->. now eexists.
  - intros h t pv ->. now eexists.
Defined.

End FurtherInstances.
